(** * The overlay peer session of hcnet-core

    A shallow embedding of [Peer.cpp], [Peer.h] and [FlowControlCapacity.cpp]
    (overlay directory), with the properties of the peer-to-peer overlay
    specification proved about it.

    Conventions.
    - Fixed-width unsigned integers are [Z] values; every C++ operation that
      can wrap is written with [wrap64] / [wrap32].
    - Time points and durations are [Z] counts of nanoseconds, the tick of
      [VirtualClock].
    - A member function of [Peer] is a computation in the monad [M]: it
      reads and updates the [Peer] object, appends to the list of observable
      events (calls of pure virtual members, of collaborators, metric marks)
      and fails when a [releaseAssert] does.
    - The collaborators reached through [mApp] are the fields of the record
      [Application], read at the instant of the call. *)

From Stdlib Require Import ZArith Lia Ascii String.
From stdpp Require Import base option list strings gmap fin_maps.

#[local] Open Scope Z_scope.

(** Sequencing of computations that may abort: [None] is a failed
    [releaseAssert]. *)
Definition bindO {A B : Type} (c : option A) (k : A -> option B) : option B :=
  match c with
  | Some a => k a
  | None => None
  end.

Notation "'let?' p ':=' c 'in' k" :=
  (bindO c (fun x => match x with p => k end))
  (at level 10, p pattern, c at level 100, k at level 200).

(** ** Machine integers *)

Definition wrap64 (z : Z) : Z := z mod 2 ^ 64.
Definition wrap32 (z : Z) : Z := z mod 2 ^ 32.
Definition UINT16_MAX : Z := 65535.

(** [std::chrono::seconds] converted to the clock's nanosecond ticks. *)
Definition seconds (s : Z) : Z := s * 1000000000.
Definition milliseconds (ms : Z) : Z := ms * 1000000.
Definition hours (h : Z) : Z := seconds (h * 3600).

(** ** XDR data (overlay/HcnetXDR.h) *)

(** [Hash], [uint256], [NodeID] and the HMAC key and tag are 256-bit
    values. *)
Abbreviation Hash := Z (only parsing).
Abbreviation uint256 := Z (only parsing).
Abbreviation NodeID := Z (only parsing).
Abbreviation HmacSha256Key := Z (only parsing).
Abbreviation HmacSha256Mac := Z (only parsing).
(** The result of [xdr::xdr_to_opaque]. *)
Abbreviation opaque_vec := (list Z) (only parsing).
(** Bodies the overlay only forwards are kept as their canonical encoding. *)
Abbreviation TransactionEnvelope := Z (only parsing).
Abbreviation SCPQuorumSet := Z (only parsing).
Abbreviation TransactionSet := Z (only parsing).
Abbreviation GeneralizedTransactionSet := Z (only parsing).
Abbreviation SurveyBody := Z (only parsing).

Inductive MessageType : Set :=
| ERROR_MSG | HELLO | AUTH | DONT_HAVE | GET_PEERS | PEERS
| GET_TX_SET | TX_SET | GENERALIZED_TX_SET | TRANSACTION
| GET_SCP_QUORUMSET | SCP_QUORUMSET | SCP_MESSAGE | GET_SCP_STATE
| SURVEY_REQUEST | SURVEY_RESPONSE | SEND_MORE | SEND_MORE_EXTENDED
| FLOOD_ADVERT | FLOOD_DEMAND.

#[global] Instance MessageType_eq_dec : EqDecision MessageType.
Proof. solve_decision. Defined.

Inductive ErrorCode : Set := ERR_MISC | ERR_DATA | ERR_CONF | ERR_AUTH | ERR_LOAD.

#[global] Instance ErrorCode_eq_dec : EqDecision ErrorCode.
Proof. solve_decision. Defined.

Inductive SCPStatementType : Set :=
| SCP_ST_PREPARE | SCP_ST_CONFIRM | SCP_ST_EXTERNALIZE | SCP_ST_NOMINATE.

Inductive IPAddrType : Set := IPv4 | IPv6.

Record AuthCert : Set := {
  cert_pubkey : Z;
  cert_expiration : Z;
  cert_sig : Z
}.

Record Hello : Set := {
  ledgerVersion : Z;
  overlayVersion : Z;
  overlayMinVersion : Z;
  networkID : Hash;
  versionStr : string;
  listeningPort : Z;
  peerID : NodeID;
  cert : AuthCert;
  nonce : uint256
}.

Record PeerAddress : Set := {
  pa_type : IPAddrType;
  pa_ip : Z;
  pa_port : Z;
  pa_numFailures : Z
}.

Record SCPEnvelope : Set := {
  env_nodeID : NodeID;
  env_pledges_type : SCPStatementType;
  env_body : Z
}.

(** The discriminated union [HcnetMessage]. *)
Inductive HcnetMessage : Set :=
| MsgError (code : ErrorCode) (msg : string)
| MsgHello (hello : Hello)
| MsgAuth (flags : Z)
| MsgDontHave (type : MessageType) (reqHash : uint256)
| MsgGetPeers
| MsgPeers (peers : list PeerAddress)
| MsgGetTxSet (txSetHash : uint256)
| MsgTxSet (txSet : TransactionSet)
| MsgGeneralizedTxSet (generalizedTxSet : GeneralizedTransactionSet)
| MsgTransaction (transaction : TransactionEnvelope)
| MsgGetSCPQuorumSet (qSetHash : uint256)
| MsgSCPQuorumSet (qSet : SCPQuorumSet)
| MsgSCPMessage (envelope : SCPEnvelope)
| MsgGetSCPState (getSCPLedgerSeq : Z)
| MsgSurveyRequest (body : SurveyBody)
| MsgSurveyResponse (body : SurveyBody)
| MsgSendMore (numMessages : Z)
| MsgSendMoreExtended (numMessages : Z) (numBytes : Z)
| MsgFloodAdvert (txHashes : list Hash)
| MsgFloodDemand (txHashes : list Hash).

(** [msg.type()] *)
Definition type_of (m : HcnetMessage) : MessageType :=
  match m with
  | MsgError _ _ => ERROR_MSG
  | MsgHello _ => HELLO
  | MsgAuth _ => AUTH
  | MsgDontHave _ _ => DONT_HAVE
  | MsgGetPeers => GET_PEERS
  | MsgPeers _ => PEERS
  | MsgGetTxSet _ => GET_TX_SET
  | MsgTxSet _ => TX_SET
  | MsgGeneralizedTxSet _ => GENERALIZED_TX_SET
  | MsgTransaction _ => TRANSACTION
  | MsgGetSCPQuorumSet _ => GET_SCP_QUORUMSET
  | MsgSCPQuorumSet _ => SCP_QUORUMSET
  | MsgSCPMessage _ => SCP_MESSAGE
  | MsgGetSCPState _ => GET_SCP_STATE
  | MsgSurveyRequest _ => SURVEY_REQUEST
  | MsgSurveyResponse _ => SURVEY_RESPONSE
  | MsgSendMore _ => SEND_MORE
  | MsgSendMoreExtended _ _ => SEND_MORE_EXTENDED
  | MsgFloodAdvert _ => FLOOD_ADVERT
  | MsgFloodDemand _ => FLOOD_DEMAND
  end.

(** [AuthenticatedMessage], arm [v0]. *)
Record AuthenticatedMessage : Set := {
  sequence : Z;
  message : HcnetMessage;
  mac : HmacSha256Mac
}.

(** A default-constructed envelope around [m]: XDR zero-initialises the
    sequence and the MAC. *)
Definition amsg_default (m : HcnetMessage) : AuthenticatedMessage :=
  {| sequence := 0; message := m; mac := 0 |}.

(** ** Peer.h: enumerations *)

Inductive PeerState : Set := CONNECTING | CONNECTED | GOT_HELLO | GOT_AUTH | CLOSING.

#[global] Instance PeerState_eq_dec : EqDecision PeerState.
Proof. solve_decision. Defined.

(** The enumerators' values, as [format_as] and the comparisons
    [mState >= GOT_HELLO] use them. *)
Definition state_value (s : PeerState) : Z :=
  match s with
  | CONNECTING => 0
  | CONNECTED => 1
  | GOT_HELLO => 2
  | GOT_AUTH => 3
  | CLOSING => 4
  end.

Inductive PeerRole : Set := REMOTE_CALLED_US | WE_CALLED_REMOTE.

#[global] Instance PeerRole_eq_dec : EqDecision PeerRole.
Proof. solve_decision. Defined.

Inductive DropMode : Set := FLUSH_WRITE_QUEUE | IGNORE_WRITE_QUEUE.
Inductive DropDirection : Set := REMOTE_DROPPED_US | WE_DROPPED_REMOTE.

Definition PEER_SEND_MODE_IDLE_TIMEOUT : Z := seconds 60.
Definition FIRST_VERSION_SUPPORTING_FLOW_CONTROL_IN_BYTES : Z := 28.
Definition ADVERT_CACHE_SIZE : Z := 50000.
Definition RECURRENT_TIMER_PERIOD : Z := seconds 5.

(** [Scheduler::ActionType] *)
Inductive ActionType : Set := NORMAL_ACTION | DROPPABLE_ACTION.

#[global] Instance ActionType_eq_dec : EqDecision ActionType.
Proof. solve_decision. Defined.

(** [PeerBareAddress]: empty until HELLO names the listening port. *)
Inductive PeerBareAddress : Set :=
| EmptyAddress
| IPv4Address (ip : string) (port : Z).

Definition isEmpty (a : PeerBareAddress) : bool :=
  match a with
  | EmptyAddress => true
  | IPv4Address _ _ => false
  end.

(** ** The application and its collaborators

    Everything [Peer] reaches through [mApp], and the members a transport
    subclass overrides, as read at the instant of one call. *)

Record Config : Type := {
  LEDGER_PROTOCOL_VERSION : Z;
  OVERLAY_PROTOCOL_MIN_VERSION : Z;
  OVERLAY_PROTOCOL_VERSION : Z;
  VERSION_STR : string;
  PEER_PORT : Z;
  NODE_SEED_getPublicKey : NodeID;
  PEER_TIMEOUT : Z;
  PEER_AUTHENTICATION_TIMEOUT : Z;
  PEER_STRAGGLER_TIMEOUT : Z;
  ENABLE_FLOW_CONTROL_BYTES : bool;
  PEER_FLOOD_READING_CAPACITY : Z;
  PEER_READING_CAPACITY : Z;
  FLOW_CONTROL_SEND_MORE_BATCH_SIZE : Z;
  FLOW_CONTROL_SEND_MORE_BATCH_SIZE_BYTES : Z;
  FLOOD_ADVERT_PERIOD_MS : Z;
  ALLOW_LOCALHOST_FOR_TESTING : bool
}.

(** [TransactionQueue::AddResult], as far as [recvTransaction] looks. *)
Inductive AddResult : Set :=
| ADD_STATUS_PENDING | ADD_STATUS_DUPLICATE | ADD_STATUS_ERROR
| ADD_STATUS_TRY_AGAIN_LATER | ADD_STATUS_FILTERED.

Inductive EnvelopeStatus : Set :=
| ENVELOPE_STATUS_DISCARDED | ENVELOPE_STATUS_PROCESSED.

Record Application : Type := {
  getConfig : Config;
  getNetworkID : Hash;
  (** [getClock().now()] and [getClock().currentSchedulerActionType()] *)
  now : Z;
  currentSchedulerActionType : ActionType;
  (** [getOverlayManager()] *)
  isShuttingDown : bool;
  getMaxAdvertSize : Z;
  getFlowControlBytesConfig_mTotal : Z;
  acceptAuthenticatedPeer : NodeID -> bool;
  isPreferred : PeerBareAddress -> NodeID -> bool;
  (** [getAuthenticatedPeers()]: node identity to the [Peer] object (its
      address); [getPendingPeers()]: the pending [Peer] objects, each with
      its address and its [mPeerID] *)
  getAuthenticatedPeers : gmap Z Z;
  getPendingPeers : list (Z * NodeID);
  (** [getOverlayManager().getPeerManager()] *)
  getPeersToSend : Z -> PeerBareAddress -> list PeerBareAddress;
  (** [getOverlayManager().getPeerAuth()] *)
  verifyRemoteAuthCert : NodeID -> AuthCert -> bool;
  getAuthCert : AuthCert;
  getSendingMacKey : Z -> uint256 -> uint256 -> PeerRole -> HmacSha256Key;
  getReceivingMacKey : Z -> uint256 -> uint256 -> PeerRole -> HmacSha256Key;
  (** [getBanManager()] *)
  isBanned : NodeID -> bool;
  (** [getLedgerManager()] *)
  isSynced : bool;
  getLastClosedLedgerHeader_ledgerVersion : Z;
  (** [getHerder()] *)
  getTx : Hash -> option TransactionEnvelope;
  isBannedTx : Hash -> bool;
  getTxSet : Hash -> option HcnetMessage;
  getQSet : Hash -> option SCPQuorumSet;
  herder_recvTransaction : TransactionEnvelope -> AddResult;
  herder_recvSCPEnvelope : SCPEnvelope -> EnvelopeStatus;
  trackingConsensusLedgerIndex : Z;
  getMinLedgerSeqToAskPeers : Z;
  (** crypto, xdrpp, and the helpers of other modules *)
  hmacSha256 : HmacSha256Key -> opaque_vec -> HmacSha256Mac;
  hmacSha256Verify : HmacSha256Mac -> HmacSha256Key -> opaque_vec -> bool;
  xdr_to_opaque : Z -> HcnetMessage -> opaque_vec;
  xdr_size : HcnetMessage -> Z;
  xdrSha256 : SCPQuorumSet -> Hash;
  shortHash_of_time : Z -> Hash;
  makeTransactionFromWire : TransactionEnvelope -> bool;
  toShortString : NodeID -> string;
  format_MessageType : MessageType -> string;
  toXdr : PeerBareAddress -> PeerAddress;
  fromXdr : PeerAddress -> PeerBareAddress;
  isPrivate : PeerBareAddress -> bool;
  isLocalhost : PeerBareAddress -> bool;
  (** the draws of the process-wide random engine, in order *)
  rand_uniform : nat -> Z;
  (** constants of the XDR definitions and of util/ProtocolVersion.h *)
  AUTH_MSG_FLAG_FLOW_CONTROL_BYTES_REQUESTED : Z;
  TX_ADVERT_VECTOR_MAX_SIZE : Z;
  PEERS_MAX_SIZE : Z;
  SOROBAN_PROTOCOL_VERSION : Z;
  (** members overridden by the transport: [getIP()], and
      [sendQueueIsOverloaded()], which may depend on what this call has
      written so far *)
  getIP : string;
  sendQueueIsOverloaded : list AuthenticatedMessage -> bool
}.

(** Modelled from the spec: [OverlayManager::isFloodMessage] is declared in
    overlay/OverlayManager.h, which is not among the sources. The glossary
    gives the class: "a message class (transactions, adverts, demands, SCP
    messages) subject to flow-control credit". *)
Definition isFloodMessage (m : HcnetMessage) : bool :=
  match type_of m with
  | TRANSACTION | FLOOD_ADVERT | FLOOD_DEMAND | SCP_MESSAGE => true
  | _ => false
  end.

(** ** util/RandomEvictionCache.h *)

Module Cache.

(** Modelled from the spec: the class template [RandomEvictionCache] lives
    in util/RandomEvictionCache.h, which is not among the sources. The
    data model calls it "a bounded (50,000-entry) randomized-eviction
    mapping from transaction hash to the ledger sequence": a finite map
    with a maximum size, where inserting a new key into a full map first
    evicts an entry chosen by a random draw. *)
Record t : Type := {
  mValueMap : gmap Z Z;
  mMaxSize : Z
}.

Definition empty (maxSize : Z) : t :=
  {| mValueMap := ∅; mMaxSize := maxSize |}.

Definition size (c : t) : nat := base.size (mValueMap c).

Definition exists_ (k : Z) (c : t) : bool :=
  bool_decide (is_Some (mValueMap c !! k)).

(** The victim is the entry at position [r mod size] of the map's
    enumeration. *)
Definition evictOne (r : Z) (c : t) : t :=
  match map_to_list (mValueMap c) !! Z.to_nat (r mod Z.of_nat (size c)) with
  | Some (k, _) => {| mValueMap := delete k (mValueMap c); mMaxSize := mMaxSize c |}
  | None => c
  end.

Definition put (r : Z) (k v : Z) (c : t) : t :=
  if exists_ k c
  then {| mValueMap := <[k := v]> (mValueMap c); mMaxSize := mMaxSize c |}
  else
    let c' := if mMaxSize c <=? Z.of_nat (size c) then evictOne r c else c in
    {| mValueMap := <[k := v]> (mValueMap c'); mMaxSize := mMaxSize c' |}.

(** [erase_if(f)] removes every entry whose value satisfies [f]. *)
Definition erase_if (f : Z -> bool) (c : t) : t :=
  {| mValueMap := filter (λ kv, f (snd kv) = false) (mValueMap c);
     mMaxSize := mMaxSize c |}.

End Cache.

(** ** overlay/FlowControlCapacity.cpp *)

Module Capacity.

Record ReadingCapacity : Set := {
  mFloodCapacity : Z;
  mTotalCapacity : option Z
}.

(** The two subclasses of [FlowControlCapacity]; the byte axis keeps its
    limits in a member, the message axis reads them from the
    configuration. *)
Inductive t : Set :=
| FlowControlMessageCapacity (mCapacity : ReadingCapacity) (mOutboundCapacity : Z)
| FlowControlByteCapacity (mCapacity : ReadingCapacity) (mOutboundCapacity : Z)
    (mCapacityLimits : ReadingCapacity).

Definition mCapacity (c : t) : ReadingCapacity :=
  match c with
  | FlowControlMessageCapacity cap _ => cap
  | FlowControlByteCapacity cap _ _ => cap
  end.

Definition mOutboundCapacity (c : t) : Z :=
  match c with
  | FlowControlMessageCapacity _ out => out
  | FlowControlByteCapacity _ out _ => out
  end.

Definition set_mCapacity (cap : ReadingCapacity) (c : t) : t :=
  match c with
  | FlowControlMessageCapacity _ out => FlowControlMessageCapacity cap out
  | FlowControlByteCapacity _ out lim => FlowControlByteCapacity cap out lim
  end.

Definition set_mOutboundCapacity (out : Z) (c : t) : t :=
  match c with
  | FlowControlMessageCapacity cap _ => FlowControlMessageCapacity cap out
  | FlowControlByteCapacity cap _ lim => FlowControlByteCapacity cap out lim
  end.

(** [FlowControlCapacity::msgBodySize] *)
Definition msgBodySize (app : Application) (m : HcnetMessage) : Z :=
  xdr_size app m.

(** [getMsgResourceCount]: each message takes one unit on the message
    axis, its encoded size on the byte axis. *)
Definition getMsgResourceCount (app : Application) (c : t) (m : HcnetMessage) : Z :=
  match c with
  | FlowControlMessageCapacity _ _ => 1
  | FlowControlByteCapacity _ _ _ => msgBodySize app m
  end.

Definition getCapacityLimits (app : Application) (c : t) : ReadingCapacity :=
  match c with
  | FlowControlMessageCapacity _ _ =>
      {| mFloodCapacity := PEER_FLOOD_READING_CAPACITY (getConfig app);
         mTotalCapacity := Some (PEER_READING_CAPACITY (getConfig app)) |}
  | FlowControlByteCapacity _ _ lim => lim
  end.

(** The constructors; [mOutboundCapacity] is value-initialised. *)
Definition newMessageCapacity (app : Application) : t :=
  FlowControlMessageCapacity
    {| mFloodCapacity := PEER_FLOOD_READING_CAPACITY (getConfig app);
       mTotalCapacity := Some (PEER_READING_CAPACITY (getConfig app)) |} 0.

Definition newByteCapacity (app : Application) : t :=
  let lim := {| mFloodCapacity := getFlowControlBytesConfig_mTotal app;
                mTotalCapacity := None |} in
  FlowControlByteCapacity lim 0 lim.

(** [releaseAssert(cond)]: the process aborts when [cond] is false. *)
Definition releaseAssert (cond : bool) : option unit :=
  if cond then Some tt else None.

(** [canRead]; each subclass asserts the shape of [mTotalCapacity]. *)
Definition canRead (c : t) : option bool :=
  match c with
  | FlowControlMessageCapacity cap _ =>
      match mTotalCapacity cap with
      | Some total => Some (0 <? total)
      | None => None
      end
  | FlowControlByteCapacity cap _ _ =>
      match mTotalCapacity cap with
      | Some _ => None
      | None => Some true
      end
  end.

Definition checkCapacityInvariants (app : Application) (c : t) : option unit :=
  let? _ := releaseAssert (mFloodCapacity (mCapacity c) <=? mFloodCapacity (getCapacityLimits app c)) in
  match mTotalCapacity (getCapacityLimits app c) with
  | Some limit =>
      match mTotalCapacity (mCapacity c) with
      | Some total => releaseAssert (total <=? limit)
      | None => None
      end
  | None =>
      releaseAssert (bool_decide (mTotalCapacity (mCapacity c) = None))
  end.

Definition hasOutboundCapacity (app : Application) (c : t) (m : HcnetMessage) : bool :=
  getMsgResourceCount app c m <=? mOutboundCapacity c.

Definition lockOutboundCapacity (app : Application) (m : HcnetMessage) (c : t) : option t :=
  if isFloodMessage m
  then
    let? _ := releaseAssert (hasOutboundCapacity app c m) in
    Some (set_mOutboundCapacity (mOutboundCapacity c - getMsgResourceCount app c m) c)
  else Some c.

(** [lockLocalCapacity]: the total budget is charged first; the flood
    budget is charged only when it covers the message, and the result
    tells whether it did. Both subtractions are guarded, so neither
    wraps. *)
Definition lockLocalCapacity (app : Application) (m : HcnetMessage) (c : t)
  : option (bool * t) :=
  let? _ := checkCapacityInvariants app c in
  let msgResources := getMsgResourceCount app c m in
  let? c1 :=
    match mTotalCapacity (mCapacity c) with
    | Some total =>
        let? _ := releaseAssert (msgResources <=? total) in
        Some (set_mCapacity
                {| mFloodCapacity := mFloodCapacity (mCapacity c);
                   mTotalCapacity := Some (total - msgResources) |} c)
    | None => Some c
    end in
  if isFloodMessage m
  then
    if mFloodCapacity (mCapacity c1) <? msgResources
    then Some (false, c1)
    else Some (true,
               set_mCapacity
                 {| mFloodCapacity := mFloodCapacity (mCapacity c1) - msgResources;
                    mTotalCapacity := mTotalCapacity (mCapacity c1) |} c1)
  else Some (true, c1).

(** [releaseLocalCapacity] returns the flood capacity it released. *)
Definition releaseLocalCapacity (app : Application) (m : HcnetMessage) (c : t)
  : option (Z * t) :=
  let resourcesFreed := getMsgResourceCount app c m in
  let c1 := match mTotalCapacity (mCapacity c) with
            | Some total =>
                set_mCapacity
                  {| mFloodCapacity := mFloodCapacity (mCapacity c);
                     mTotalCapacity := Some (wrap64 (total + resourcesFreed)) |} c
            | None => c
            end in
  let '(releasedFloodCapacity, c2) :=
    if isFloodMessage m
    then (resourcesFreed,
          set_mCapacity
            {| mFloodCapacity := wrap64 (mFloodCapacity (mCapacity c1) + resourcesFreed);
               mTotalCapacity := mTotalCapacity (mCapacity c1) |} c1)
    else (0, c1) in
  let? _ := checkCapacityInvariants app c2 in
  Some (releasedFloodCapacity, c2).

(** [releaseOutboundCapacity]: the message axis reads
    [FlowControl::getNumMessages], the byte axis accepts the extended
    message only. *)
Definition getNumMessages (m : HcnetMessage) : Z :=
  match m with
  | MsgSendMore n => n
  | MsgSendMoreExtended n _ => n
  | _ => 0
  end.

Definition releaseOutboundCapacity (m : HcnetMessage) (c : t) : option t :=
  match c with
  | FlowControlMessageCapacity _ _ =>
      let? _ := releaseAssert (bool_decide (type_of m = SEND_MORE)
                               || bool_decide (type_of m = SEND_MORE_EXTENDED)) in
      Some (set_mOutboundCapacity (wrap64 (mOutboundCapacity c + getNumMessages m)) c)
  | FlowControlByteCapacity _ _ _ =>
      match m with
      | MsgSendMoreExtended _ numBytes =>
          Some (set_mOutboundCapacity (wrap64 (mOutboundCapacity c + numBytes)) c)
      | _ => None
      end
  end.

(** [FlowControlByteCapacity::handleTxSizeIncrease] *)
Definition handleTxSizeIncrease (increase : Z) (c : t) : t :=
  match c with
  | FlowControlByteCapacity cap out lim =>
      FlowControlByteCapacity
        {| mFloodCapacity := wrap64 (mFloodCapacity cap + increase);
           mTotalCapacity := mTotalCapacity cap |} out
        {| mFloodCapacity := wrap64 (mFloodCapacity lim + increase);
           mTotalCapacity := mTotalCapacity lim |}
  | _ => c
  end.

End Capacity.

(** ** overlay/FlowControl.h *)

Module FlowControl.

(** Modelled from the spec: the class [FlowControl] (overlay/FlowControl.h
    and FlowControl.cpp) is not among the sources; [Peer] only calls it.
    Section 4.2 describes it: a message axis that is always on and a byte
    axis enabled at AUTH; flood-class messages wait in an outbound queue
    until "outbound-capacity on every enabled axis is at least the
    message's cost"; "each received flood message consumes local
    flood-capacity" and "after the consumer finishes processing, capacity
    is returned", the returns being coalesced into SEND_MORE grants; the
    liveness rule reads "the timestamp of its last grant". The two axes
    are the [Capacity.t] objects of FlowControlCapacity.cpp. Messages the
    controller hands to its send callback are returned to the caller. *)
Record t : Set := {
  mFlowControlCapacity : Capacity.t;
  mFlowControlBytesCapacity : option Capacity.t;
  mFloodDataProcessed : Z;
  mFloodDataProcessedBytes : Z;
  mOutboundQueue : list HcnetMessage;
  mLastGrant : option Z
}.

Definition new (app : Application) : t :=
  {| mFlowControlCapacity := Capacity.newMessageCapacity app;
     mFlowControlBytesCapacity := None;
     mFloodDataProcessed := 0;
     mFloodDataProcessedBytes := 0;
     mOutboundQueue := [];
     mLastGrant := None |}.

Definition getOutboundCapacityTimestamp (fc : t) : option Z := mLastGrant fc.

(** The initial grant: "Initial inbound grant = PEER_FLOOD_READING_CAPACITY",
    sent as SEND_MORE, "or SEND_MORE_EXTENDED for the byte-axis variant". *)
Definition start (app : Application) (enableFCBytes : bool) (fc : t)
  : t * list HcnetMessage :=
  let bytes := if enableFCBytes then Some (Capacity.newByteCapacity app) else None in
  let grant :=
    if enableFCBytes
    then MsgSendMoreExtended (PEER_FLOOD_READING_CAPACITY (getConfig app))
           (getFlowControlBytesConfig_mTotal app)
    else MsgSendMore (PEER_FLOOD_READING_CAPACITY (getConfig app)) in
  ({| mFlowControlCapacity := mFlowControlCapacity fc;
      mFlowControlBytesCapacity := bytes;
      mFloodDataProcessed := mFloodDataProcessed fc;
      mFloodDataProcessedBytes := mFloodDataProcessedBytes fc;
      mOutboundQueue := mOutboundQueue fc;
      mLastGrant := Some (now app) |}, [grant]).

Definition set_capacities (msgs : Capacity.t) (bytes : option Capacity.t) (fc : t) : t :=
  {| mFlowControlCapacity := msgs;
     mFlowControlBytesCapacity := bytes;
     mFloodDataProcessed := mFloodDataProcessed fc;
     mFloodDataProcessedBytes := mFloodDataProcessedBytes fc;
     mOutboundQueue := mOutboundQueue fc;
     mLastGrant := mLastGrant fc |}.

(** Lock local capacity on the message axis, then on the byte axis when
    it is enabled; the message is accepted when every enabled axis
    accepts it. *)
Definition beginMessageProcessing (app : Application) (m : HcnetMessage) (fc : t)
  : option (bool * t) :=
  let? (ok, msgs) := Capacity.lockLocalCapacity app m (mFlowControlCapacity fc) in
  if ok
  then
    match mFlowControlBytesCapacity fc with
    | Some bytes =>
        let? (okBytes, bytes') := Capacity.lockLocalCapacity app m bytes in
        Some (okBytes, set_capacities msgs (Some bytes') fc)
    | None => Some (true, set_capacities msgs None fc)
    end
  else Some (false, set_capacities msgs (mFlowControlBytesCapacity fc) fc).

(** Return the capacity on every enabled axis, add what was released to
    the outstanding return, and grant it to the peer once it reaches the
    batch size. *)
Definition endMessageProcessing (app : Application) (m : HcnetMessage) (fc : t)
  : option (t * list HcnetMessage) :=
  let? (released, msgs) := Capacity.releaseLocalCapacity app m (mFlowControlCapacity fc) in
  let? (releasedBytes, bytes) :=
    match mFlowControlBytesCapacity fc with
    | Some b =>
        let? (r, b') := Capacity.releaseLocalCapacity app m b in
        Some (r, Some b')
    | None => Some (0, None)
    end in
  let processed := wrap64 (mFloodDataProcessed fc + released) in
  let processedBytes := wrap64 (mFloodDataProcessedBytes fc + releasedBytes) in
  let shouldSendMore :=
    (FLOW_CONTROL_SEND_MORE_BATCH_SIZE (getConfig app) <=? processed)
    || (bool_decide (is_Some bytes)
        && (FLOW_CONTROL_SEND_MORE_BATCH_SIZE_BYTES (getConfig app) <=? processedBytes)) in
  let grant := if bool_decide (is_Some bytes)
               then MsgSendMoreExtended processed processedBytes
               else MsgSendMore processed in
  Some ({| mFlowControlCapacity := msgs;
           mFlowControlBytesCapacity := bytes;
           mFloodDataProcessed := if shouldSendMore then 0 else processed;
           mFloodDataProcessedBytes := if shouldSendMore then 0 else processedBytes;
           mOutboundQueue := mOutboundQueue fc;
           mLastGrant := mLastGrant fc |},
        if shouldSendMore then [grant] else []).

Definition canRead (fc : t) : option bool :=
  let? r := Capacity.canRead (mFlowControlCapacity fc) in
  match mFlowControlBytesCapacity fc with
  | Some b => let? rb := Capacity.canRead b in Some (r && rb)
  | None => Some r
  end.

Definition hasOutboundCapacity (app : Application) (m : HcnetMessage) (fc : t) : bool :=
  Capacity.hasOutboundCapacity app (mFlowControlCapacity fc) m
  && match mFlowControlBytesCapacity fc with
     | Some b => Capacity.hasOutboundCapacity app b m
     | None => true
     end.

(** Release queued messages in enqueue order while the peer's credit
    covers the head of the queue. *)
Fixpoint maybeSendNextBatch (app : Application) (queue : list HcnetMessage)
    (msgs : Capacity.t) (bytes : option Capacity.t)
  : option (list HcnetMessage * Capacity.t * option Capacity.t * list HcnetMessage) :=
  match queue with
  | [] => Some ([], msgs, bytes, [])
  | m :: rest =>
      let enough :=
        Capacity.hasOutboundCapacity app msgs m
        && match bytes with
           | Some b => Capacity.hasOutboundCapacity app b m
           | None => true
           end in
      if enough
      then
        let? msgs' := Capacity.lockOutboundCapacity app m msgs in
        let? bytes' :=
          match bytes with
          | Some b => let? b' := Capacity.lockOutboundCapacity app m b in Some (Some b')
          | None => Some None
          end in
        let? (queue', msgs'', bytes'', sent) := maybeSendNextBatch app rest msgs' bytes' in
        Some (queue', msgs'', bytes'', m :: sent)
      else Some (queue, msgs, bytes, [])
  end.

Definition sendQueued (app : Application) (queue : list HcnetMessage)
    (lastGrant : option Z) (fc : t) : option (t * list HcnetMessage) :=
  let? (queue', msgs, bytes, sent) :=
    maybeSendNextBatch app queue (mFlowControlCapacity fc) (mFlowControlBytesCapacity fc) in
  Some ({| mFlowControlCapacity := msgs;
           mFlowControlBytesCapacity := bytes;
           mFloodDataProcessed := mFloodDataProcessed fc;
           mFloodDataProcessedBytes := mFloodDataProcessedBytes fc;
           mOutboundQueue := queue';
           mLastGrant := lastGrant |}, sent).

(** "Non-flood messages (control, handshake, error) bypass credit": the
    result tells whether the controller took the message. *)
Definition maybeSendMessage (app : Application) (m : HcnetMessage) (fc : t)
  : option (bool * t * list HcnetMessage) :=
  if isFloodMessage m
  then
    let? (fc', sent) := sendQueued app (mOutboundQueue fc ++ [m]) (mLastGrant fc) fc in
    Some (true, fc', sent)
  else Some (false, fc, []).

(** "The announced increment may not exceed sane bounds": the grant must
    not overflow the 64-bit credit counters; SEND_MORE_EXTENDED is
    rejected on a connection without the byte axis. *)
Definition isSendMoreValid (m : HcnetMessage) (fc : t) : bool :=
  match m with
  | MsgSendMore n =>
      bool_decide (mFlowControlBytesCapacity fc = None)
      && (Capacity.mOutboundCapacity (mFlowControlCapacity fc) + n <? 2 ^ 64)
  | MsgSendMoreExtended n b =>
      match mFlowControlBytesCapacity fc with
      | Some bytes =>
          (Capacity.mOutboundCapacity (mFlowControlCapacity fc) + n <? 2 ^ 64)
          && (Capacity.mOutboundCapacity bytes + b <? 2 ^ 64)
      | None => false
      end
  | _ => false
  end.

(** The reason [isSendMoreValid] reports for a rejected grant. *)
Definition sendMoreErrorMsg : string := "invalid SEND_MORE message".

(** A grant adds to the outbound credit of each axis, is stamped with the
    current time, and may release queued messages. *)
Definition maybeReleaseCapacityAndTriggerSend (app : Application) (m : HcnetMessage)
    (fc : t) : option (t * list HcnetMessage) :=
  let? msgs := Capacity.releaseOutboundCapacity m (mFlowControlCapacity fc) in
  let? bytes :=
    match mFlowControlBytesCapacity fc with
    | Some b => let? b' := Capacity.releaseOutboundCapacity m b in Some (Some b')
    | None => Some None
    end in
  sendQueued app (mOutboundQueue fc) (Some (now app)) (set_capacities msgs bytes fc).

End FlowControl.

(** ** Peer.h: the members of [Peer] *)

(** A [VirtualTimer]: the deadline of its pending wait, if any. *)
Abbreviation VirtualTimer := (option Z) (only parsing).

Record PeerMetrics : Set := {
  mMessageRead : Z;
  mByteRead : Z;
  mMessageDrop : Z;
  mTxDemandSent : Z;
  mMessagesFulfilled : Z;
  mBannedMessageUnfulfilled : Z;
  mUnknownMessageUnfulfilled : Z
}.

(** [PeerMetrics::PeerMetrics]; every counter modelled here starts at 0. *)
Definition PeerMetrics_new : PeerMetrics :=
  {| mMessageRead := 0; mByteRead := 0; mMessageDrop := 0; mTxDemandSent := 0;
     mMessagesFulfilled := 0; mBannedMessageUnfulfilled := 0;
     mUnknownMessageUnfulfilled := 0 |}.

Record Peer : Type := {
  this : Z;
  mRole : PeerRole;
  mState : PeerState;
  mPeerID : NodeID;
  mSendNonce : uint256;
  mRecvNonce : uint256;
  mFlowControl : FlowControl.t;
  mIsPeerThrottled : bool;
  mSendMacKey : HmacSha256Key;
  mRecvMacKey : HmacSha256Key;
  mSendMacSeq : Z;
  mRecvMacSeq : Z;
  mRemoteVersion : string;
  mRemoteOverlayMinVersion : Z;
  mRemoteOverlayVersion : Z;
  mAddress : PeerBareAddress;
  mCreationTime : Z;
  mRecurringTimer : VirtualTimer;
  mDelayedExecutionTimer : VirtualTimer;
  mLastRead : Z;
  mLastWrite : Z;
  mEnqueueTimeOfLastWrite : Z;
  mPingSentTime : option Z;
  mLastPing : Z;
  mPeerMetrics : PeerMetrics;
  mTxHashesToAdvertise : list Hash;
  mAdvertTimer : VirtualTimer;
  mAdvertHistory : Cache.t;
  mShuttingDown : bool
}.

(** Assignments to one member. *)
Definition set_mState (v : PeerState) (p : Peer) : Peer :=
  Build_Peer (this p) (mRole p) v (mPeerID p) (mSendNonce p) (mRecvNonce p)
    (mFlowControl p) (mIsPeerThrottled p) (mSendMacKey p) (mRecvMacKey p)
    (mSendMacSeq p) (mRecvMacSeq p) (mRemoteVersion p)
    (mRemoteOverlayMinVersion p) (mRemoteOverlayVersion p) (mAddress p)
    (mCreationTime p) (mRecurringTimer p) (mDelayedExecutionTimer p)
    (mLastRead p) (mLastWrite p) (mEnqueueTimeOfLastWrite p)
    (mPingSentTime p) (mLastPing p) (mPeerMetrics p)
    (mTxHashesToAdvertise p) (mAdvertTimer p) (mAdvertHistory p)
    (mShuttingDown p).
Definition set_mPeerID (v : NodeID) (p : Peer) : Peer :=
  Build_Peer (this p) (mRole p) (mState p) v (mSendNonce p) (mRecvNonce p)
    (mFlowControl p) (mIsPeerThrottled p) (mSendMacKey p) (mRecvMacKey p)
    (mSendMacSeq p) (mRecvMacSeq p) (mRemoteVersion p)
    (mRemoteOverlayMinVersion p) (mRemoteOverlayVersion p) (mAddress p)
    (mCreationTime p) (mRecurringTimer p) (mDelayedExecutionTimer p)
    (mLastRead p) (mLastWrite p) (mEnqueueTimeOfLastWrite p)
    (mPingSentTime p) (mLastPing p) (mPeerMetrics p)
    (mTxHashesToAdvertise p) (mAdvertTimer p) (mAdvertHistory p)
    (mShuttingDown p).
Definition set_mRecvNonce (v : uint256) (p : Peer) : Peer :=
  Build_Peer (this p) (mRole p) (mState p) (mPeerID p) (mSendNonce p) v
    (mFlowControl p) (mIsPeerThrottled p) (mSendMacKey p) (mRecvMacKey p)
    (mSendMacSeq p) (mRecvMacSeq p) (mRemoteVersion p)
    (mRemoteOverlayMinVersion p) (mRemoteOverlayVersion p) (mAddress p)
    (mCreationTime p) (mRecurringTimer p) (mDelayedExecutionTimer p)
    (mLastRead p) (mLastWrite p) (mEnqueueTimeOfLastWrite p)
    (mPingSentTime p) (mLastPing p) (mPeerMetrics p)
    (mTxHashesToAdvertise p) (mAdvertTimer p) (mAdvertHistory p)
    (mShuttingDown p).
Definition set_mFlowControl (v : FlowControl.t) (p : Peer) : Peer :=
  Build_Peer (this p) (mRole p) (mState p) (mPeerID p) (mSendNonce p)
    (mRecvNonce p) v (mIsPeerThrottled p) (mSendMacKey p) (mRecvMacKey p)
    (mSendMacSeq p) (mRecvMacSeq p) (mRemoteVersion p)
    (mRemoteOverlayMinVersion p) (mRemoteOverlayVersion p) (mAddress p)
    (mCreationTime p) (mRecurringTimer p) (mDelayedExecutionTimer p)
    (mLastRead p) (mLastWrite p) (mEnqueueTimeOfLastWrite p)
    (mPingSentTime p) (mLastPing p) (mPeerMetrics p)
    (mTxHashesToAdvertise p) (mAdvertTimer p) (mAdvertHistory p)
    (mShuttingDown p).
Definition set_mIsPeerThrottled (v : bool) (p : Peer) : Peer :=
  Build_Peer (this p) (mRole p) (mState p) (mPeerID p) (mSendNonce p)
    (mRecvNonce p) (mFlowControl p) v (mSendMacKey p) (mRecvMacKey p)
    (mSendMacSeq p) (mRecvMacSeq p) (mRemoteVersion p)
    (mRemoteOverlayMinVersion p) (mRemoteOverlayVersion p) (mAddress p)
    (mCreationTime p) (mRecurringTimer p) (mDelayedExecutionTimer p)
    (mLastRead p) (mLastWrite p) (mEnqueueTimeOfLastWrite p)
    (mPingSentTime p) (mLastPing p) (mPeerMetrics p)
    (mTxHashesToAdvertise p) (mAdvertTimer p) (mAdvertHistory p)
    (mShuttingDown p).
Definition set_mSendMacKey (v : HmacSha256Key) (p : Peer) : Peer :=
  Build_Peer (this p) (mRole p) (mState p) (mPeerID p) (mSendNonce p)
    (mRecvNonce p) (mFlowControl p) (mIsPeerThrottled p) v (mRecvMacKey p)
    (mSendMacSeq p) (mRecvMacSeq p) (mRemoteVersion p)
    (mRemoteOverlayMinVersion p) (mRemoteOverlayVersion p) (mAddress p)
    (mCreationTime p) (mRecurringTimer p) (mDelayedExecutionTimer p)
    (mLastRead p) (mLastWrite p) (mEnqueueTimeOfLastWrite p)
    (mPingSentTime p) (mLastPing p) (mPeerMetrics p)
    (mTxHashesToAdvertise p) (mAdvertTimer p) (mAdvertHistory p)
    (mShuttingDown p).
Definition set_mRecvMacKey (v : HmacSha256Key) (p : Peer) : Peer :=
  Build_Peer (this p) (mRole p) (mState p) (mPeerID p) (mSendNonce p)
    (mRecvNonce p) (mFlowControl p) (mIsPeerThrottled p) (mSendMacKey p) v
    (mSendMacSeq p) (mRecvMacSeq p) (mRemoteVersion p)
    (mRemoteOverlayMinVersion p) (mRemoteOverlayVersion p) (mAddress p)
    (mCreationTime p) (mRecurringTimer p) (mDelayedExecutionTimer p)
    (mLastRead p) (mLastWrite p) (mEnqueueTimeOfLastWrite p)
    (mPingSentTime p) (mLastPing p) (mPeerMetrics p)
    (mTxHashesToAdvertise p) (mAdvertTimer p) (mAdvertHistory p)
    (mShuttingDown p).
Definition set_mSendMacSeq (v : Z) (p : Peer) : Peer :=
  Build_Peer (this p) (mRole p) (mState p) (mPeerID p) (mSendNonce p)
    (mRecvNonce p) (mFlowControl p) (mIsPeerThrottled p) (mSendMacKey p)
    (mRecvMacKey p) v (mRecvMacSeq p) (mRemoteVersion p)
    (mRemoteOverlayMinVersion p) (mRemoteOverlayVersion p) (mAddress p)
    (mCreationTime p) (mRecurringTimer p) (mDelayedExecutionTimer p)
    (mLastRead p) (mLastWrite p) (mEnqueueTimeOfLastWrite p)
    (mPingSentTime p) (mLastPing p) (mPeerMetrics p)
    (mTxHashesToAdvertise p) (mAdvertTimer p) (mAdvertHistory p)
    (mShuttingDown p).
Definition set_mRecvMacSeq (v : Z) (p : Peer) : Peer :=
  Build_Peer (this p) (mRole p) (mState p) (mPeerID p) (mSendNonce p)
    (mRecvNonce p) (mFlowControl p) (mIsPeerThrottled p) (mSendMacKey p)
    (mRecvMacKey p) (mSendMacSeq p) v (mRemoteVersion p)
    (mRemoteOverlayMinVersion p) (mRemoteOverlayVersion p) (mAddress p)
    (mCreationTime p) (mRecurringTimer p) (mDelayedExecutionTimer p)
    (mLastRead p) (mLastWrite p) (mEnqueueTimeOfLastWrite p)
    (mPingSentTime p) (mLastPing p) (mPeerMetrics p)
    (mTxHashesToAdvertise p) (mAdvertTimer p) (mAdvertHistory p)
    (mShuttingDown p).
Definition set_mRemoteVersion (v : string) (p : Peer) : Peer :=
  Build_Peer (this p) (mRole p) (mState p) (mPeerID p) (mSendNonce p)
    (mRecvNonce p) (mFlowControl p) (mIsPeerThrottled p) (mSendMacKey p)
    (mRecvMacKey p) (mSendMacSeq p) (mRecvMacSeq p) v
    (mRemoteOverlayMinVersion p) (mRemoteOverlayVersion p) (mAddress p)
    (mCreationTime p) (mRecurringTimer p) (mDelayedExecutionTimer p)
    (mLastRead p) (mLastWrite p) (mEnqueueTimeOfLastWrite p)
    (mPingSentTime p) (mLastPing p) (mPeerMetrics p)
    (mTxHashesToAdvertise p) (mAdvertTimer p) (mAdvertHistory p)
    (mShuttingDown p).
Definition set_mRemoteOverlayMinVersion (v : Z) (p : Peer) : Peer :=
  Build_Peer (this p) (mRole p) (mState p) (mPeerID p) (mSendNonce p)
    (mRecvNonce p) (mFlowControl p) (mIsPeerThrottled p) (mSendMacKey p)
    (mRecvMacKey p) (mSendMacSeq p) (mRecvMacSeq p) (mRemoteVersion p) v
    (mRemoteOverlayVersion p) (mAddress p) (mCreationTime p)
    (mRecurringTimer p) (mDelayedExecutionTimer p) (mLastRead p)
    (mLastWrite p) (mEnqueueTimeOfLastWrite p) (mPingSentTime p)
    (mLastPing p) (mPeerMetrics p) (mTxHashesToAdvertise p) (mAdvertTimer p)
    (mAdvertHistory p) (mShuttingDown p).
Definition set_mRemoteOverlayVersion (v : Z) (p : Peer) : Peer :=
  Build_Peer (this p) (mRole p) (mState p) (mPeerID p) (mSendNonce p)
    (mRecvNonce p) (mFlowControl p) (mIsPeerThrottled p) (mSendMacKey p)
    (mRecvMacKey p) (mSendMacSeq p) (mRecvMacSeq p) (mRemoteVersion p)
    (mRemoteOverlayMinVersion p) v (mAddress p) (mCreationTime p)
    (mRecurringTimer p) (mDelayedExecutionTimer p) (mLastRead p)
    (mLastWrite p) (mEnqueueTimeOfLastWrite p) (mPingSentTime p)
    (mLastPing p) (mPeerMetrics p) (mTxHashesToAdvertise p) (mAdvertTimer p)
    (mAdvertHistory p) (mShuttingDown p).
Definition set_mAddress (v : PeerBareAddress) (p : Peer) : Peer :=
  Build_Peer (this p) (mRole p) (mState p) (mPeerID p) (mSendNonce p)
    (mRecvNonce p) (mFlowControl p) (mIsPeerThrottled p) (mSendMacKey p)
    (mRecvMacKey p) (mSendMacSeq p) (mRecvMacSeq p) (mRemoteVersion p)
    (mRemoteOverlayMinVersion p) (mRemoteOverlayVersion p) v
    (mCreationTime p) (mRecurringTimer p) (mDelayedExecutionTimer p)
    (mLastRead p) (mLastWrite p) (mEnqueueTimeOfLastWrite p)
    (mPingSentTime p) (mLastPing p) (mPeerMetrics p)
    (mTxHashesToAdvertise p) (mAdvertTimer p) (mAdvertHistory p)
    (mShuttingDown p).
Definition set_mRecurringTimer (v : VirtualTimer) (p : Peer) : Peer :=
  Build_Peer (this p) (mRole p) (mState p) (mPeerID p) (mSendNonce p)
    (mRecvNonce p) (mFlowControl p) (mIsPeerThrottled p) (mSendMacKey p)
    (mRecvMacKey p) (mSendMacSeq p) (mRecvMacSeq p) (mRemoteVersion p)
    (mRemoteOverlayMinVersion p) (mRemoteOverlayVersion p) (mAddress p)
    (mCreationTime p) v (mDelayedExecutionTimer p) (mLastRead p)
    (mLastWrite p) (mEnqueueTimeOfLastWrite p) (mPingSentTime p)
    (mLastPing p) (mPeerMetrics p) (mTxHashesToAdvertise p) (mAdvertTimer p)
    (mAdvertHistory p) (mShuttingDown p).
Definition set_mDelayedExecutionTimer (v : VirtualTimer) (p : Peer) : Peer :=
  Build_Peer (this p) (mRole p) (mState p) (mPeerID p) (mSendNonce p)
    (mRecvNonce p) (mFlowControl p) (mIsPeerThrottled p) (mSendMacKey p)
    (mRecvMacKey p) (mSendMacSeq p) (mRecvMacSeq p) (mRemoteVersion p)
    (mRemoteOverlayMinVersion p) (mRemoteOverlayVersion p) (mAddress p)
    (mCreationTime p) (mRecurringTimer p) v (mLastRead p) (mLastWrite p)
    (mEnqueueTimeOfLastWrite p) (mPingSentTime p) (mLastPing p)
    (mPeerMetrics p) (mTxHashesToAdvertise p) (mAdvertTimer p)
    (mAdvertHistory p) (mShuttingDown p).
Definition set_mLastRead (v : Z) (p : Peer) : Peer :=
  Build_Peer (this p) (mRole p) (mState p) (mPeerID p) (mSendNonce p)
    (mRecvNonce p) (mFlowControl p) (mIsPeerThrottled p) (mSendMacKey p)
    (mRecvMacKey p) (mSendMacSeq p) (mRecvMacSeq p) (mRemoteVersion p)
    (mRemoteOverlayMinVersion p) (mRemoteOverlayVersion p) (mAddress p)
    (mCreationTime p) (mRecurringTimer p) (mDelayedExecutionTimer p) v
    (mLastWrite p) (mEnqueueTimeOfLastWrite p) (mPingSentTime p)
    (mLastPing p) (mPeerMetrics p) (mTxHashesToAdvertise p) (mAdvertTimer p)
    (mAdvertHistory p) (mShuttingDown p).
Definition set_mPingSentTime (v : option Z) (p : Peer) : Peer :=
  Build_Peer (this p) (mRole p) (mState p) (mPeerID p) (mSendNonce p)
    (mRecvNonce p) (mFlowControl p) (mIsPeerThrottled p) (mSendMacKey p)
    (mRecvMacKey p) (mSendMacSeq p) (mRecvMacSeq p) (mRemoteVersion p)
    (mRemoteOverlayMinVersion p) (mRemoteOverlayVersion p) (mAddress p)
    (mCreationTime p) (mRecurringTimer p) (mDelayedExecutionTimer p)
    (mLastRead p) (mLastWrite p) (mEnqueueTimeOfLastWrite p) v (mLastPing p)
    (mPeerMetrics p) (mTxHashesToAdvertise p) (mAdvertTimer p)
    (mAdvertHistory p) (mShuttingDown p).
Definition set_mLastPing (v : Z) (p : Peer) : Peer :=
  Build_Peer (this p) (mRole p) (mState p) (mPeerID p) (mSendNonce p)
    (mRecvNonce p) (mFlowControl p) (mIsPeerThrottled p) (mSendMacKey p)
    (mRecvMacKey p) (mSendMacSeq p) (mRecvMacSeq p) (mRemoteVersion p)
    (mRemoteOverlayMinVersion p) (mRemoteOverlayVersion p) (mAddress p)
    (mCreationTime p) (mRecurringTimer p) (mDelayedExecutionTimer p)
    (mLastRead p) (mLastWrite p) (mEnqueueTimeOfLastWrite p)
    (mPingSentTime p) v (mPeerMetrics p) (mTxHashesToAdvertise p)
    (mAdvertTimer p) (mAdvertHistory p) (mShuttingDown p).
Definition set_mPeerMetrics (v : PeerMetrics) (p : Peer) : Peer :=
  Build_Peer (this p) (mRole p) (mState p) (mPeerID p) (mSendNonce p)
    (mRecvNonce p) (mFlowControl p) (mIsPeerThrottled p) (mSendMacKey p)
    (mRecvMacKey p) (mSendMacSeq p) (mRecvMacSeq p) (mRemoteVersion p)
    (mRemoteOverlayMinVersion p) (mRemoteOverlayVersion p) (mAddress p)
    (mCreationTime p) (mRecurringTimer p) (mDelayedExecutionTimer p)
    (mLastRead p) (mLastWrite p) (mEnqueueTimeOfLastWrite p)
    (mPingSentTime p) (mLastPing p) v (mTxHashesToAdvertise p)
    (mAdvertTimer p) (mAdvertHistory p) (mShuttingDown p).
Definition set_mTxHashesToAdvertise (v : list Hash) (p : Peer) : Peer :=
  Build_Peer (this p) (mRole p) (mState p) (mPeerID p) (mSendNonce p)
    (mRecvNonce p) (mFlowControl p) (mIsPeerThrottled p) (mSendMacKey p)
    (mRecvMacKey p) (mSendMacSeq p) (mRecvMacSeq p) (mRemoteVersion p)
    (mRemoteOverlayMinVersion p) (mRemoteOverlayVersion p) (mAddress p)
    (mCreationTime p) (mRecurringTimer p) (mDelayedExecutionTimer p)
    (mLastRead p) (mLastWrite p) (mEnqueueTimeOfLastWrite p)
    (mPingSentTime p) (mLastPing p) (mPeerMetrics p) v (mAdvertTimer p)
    (mAdvertHistory p) (mShuttingDown p).
Definition set_mAdvertTimer (v : VirtualTimer) (p : Peer) : Peer :=
  Build_Peer (this p) (mRole p) (mState p) (mPeerID p) (mSendNonce p)
    (mRecvNonce p) (mFlowControl p) (mIsPeerThrottled p) (mSendMacKey p)
    (mRecvMacKey p) (mSendMacSeq p) (mRecvMacSeq p) (mRemoteVersion p)
    (mRemoteOverlayMinVersion p) (mRemoteOverlayVersion p) (mAddress p)
    (mCreationTime p) (mRecurringTimer p) (mDelayedExecutionTimer p)
    (mLastRead p) (mLastWrite p) (mEnqueueTimeOfLastWrite p)
    (mPingSentTime p) (mLastPing p) (mPeerMetrics p)
    (mTxHashesToAdvertise p) v (mAdvertHistory p) (mShuttingDown p).
Definition set_mAdvertHistory (v : Cache.t) (p : Peer) : Peer :=
  Build_Peer (this p) (mRole p) (mState p) (mPeerID p) (mSendNonce p)
    (mRecvNonce p) (mFlowControl p) (mIsPeerThrottled p) (mSendMacKey p)
    (mRecvMacKey p) (mSendMacSeq p) (mRecvMacSeq p) (mRemoteVersion p)
    (mRemoteOverlayMinVersion p) (mRemoteOverlayVersion p) (mAddress p)
    (mCreationTime p) (mRecurringTimer p) (mDelayedExecutionTimer p)
    (mLastRead p) (mLastWrite p) (mEnqueueTimeOfLastWrite p)
    (mPingSentTime p) (mLastPing p) (mPeerMetrics p)
    (mTxHashesToAdvertise p) (mAdvertTimer p) v (mShuttingDown p).
Definition set_mShuttingDown (v : bool) (p : Peer) : Peer :=
  Build_Peer (this p) (mRole p) (mState p) (mPeerID p) (mSendNonce p)
    (mRecvNonce p) (mFlowControl p) (mIsPeerThrottled p) (mSendMacKey p)
    (mRecvMacKey p) (mSendMacSeq p) (mRecvMacSeq p) (mRemoteVersion p)
    (mRemoteOverlayMinVersion p) (mRemoteOverlayVersion p) (mAddress p)
    (mCreationTime p) (mRecurringTimer p) (mDelayedExecutionTimer p)
    (mLastRead p) (mLastWrite p) (mEnqueueTimeOfLastWrite p)
    (mPingSentTime p) (mLastPing p) (mPeerMetrics p)
    (mTxHashesToAdvertise p) (mAdvertTimer p) (mAdvertHistory p) v.

(** ** Observable events *)

(** The meters of [OverlayMetrics] that [Peer] marks. *)
Module OverlayMetrics.
Inductive meter : Set :=
| mMessageRead | mByteRead | mMessageDrop
| mSendErrorMeter | mSendHelloMeter | mSendAuthMeter | mSendDontHaveMeter
| mSendGetPeersMeter | mSendPeersMeter | mSendGetTxSetMeter | mSendTxSetMeter
| mSendTransactionMeter | mSendGetSCPQuorumSetMeter | mSendSCPQuorumSetMeter
| mSendSCPMessageSetMeter | mSendGetSCPStateMeter | mSendSurveyRequestMeter
| mSendSurveyResponseMeter | mSendSendMoreMeter | mSendFloodAdvertMeter
| mSendFloodDemandMeter
| mTimeoutIdle | mTimeoutStraggler
| mMessagesDemanded | mMessagesFulfilledMeter
| mBannedMessageUnfulfilledMeter | mUnknownMessageUnfulfilledMeter
| mPulledRelevantTxs | mPulledIrrelevantTxs
| mConnectionLatencyTimer.
End OverlayMetrics.

(** A closure handed to [postOnMainThread]. The first is the lambda of
    [recvMessage], which owns the capacity tracker of its message; the second
    is the lambda of [flushAdvert] and of [sendTxDemand]. *)
Inductive Task : Set :=
| RecvMessageTask (msgTracker : HcnetMessage) (cat : string)
| SendMessageTask (m : HcnetMessage).

(** [PeerType] and [PeerManager::BackOffUpdate] *)
Inductive PeerType : Set := INBOUND | OUTBOUND | PREFERRED.

(** Calls that change a collaborator and return nothing [Peer] uses. *)
Inductive Call : Set :=
| PeerManager_update_type (address : PeerBareAddress) (type : PeerType)
    (preferredTypeKnown : bool)
| PeerManager_update_backoff_reset (address : PeerBareAddress)
| PeerManager_ensureExists (address : PeerBareAddress)
| OverlayManager_recordMessageMetric (m : HcnetMessage)
| OverlayManager_recvFloodedMsgID (m : HcnetMessage)
| OverlayManager_forgetFloodedMsg (m : HcnetMessage)
| OverlayManager_recordTxPullLatency (m : HcnetMessage)
| Herder_peerDoesntHave (type : MessageType) (itemID : uint256)
| Herder_recvTxSet (m : HcnetMessage)
| Herder_recvSCPQuorumSet (hash : Hash) (qSet : SCPQuorumSet)
| Herder_sendSCPStateToPeer (ledgerSeq : Z)
| SurveyManager_relayOrProcessRequest (m : HcnetMessage)
| SurveyManager_relayOrProcessResponse (m : HcnetMessage)
| TxAdvertQueue_queueAndMaybeTrim (txHashes : list Hash).

Inductive Event : Type :=
(** the trace line ["send: ..."] that opens [Peer::sendMessage] *)
| EvSend (m : HcnetMessage)
(** [meter.Mark(n)] *)
| EvMark (m : OverlayMetrics.meter) (n : Z)
(** the pure virtual [sendMessage(xdr::msg_ptr&&)] with the encoded frame *)
| EvWrite (amsg : AuthenticatedMessage)
(** the pure virtual [drop] (see [drop] below) *)
| EvDrop (reason : string) (dropDirection : DropDirection) (dropMode : DropMode)
(** the pure virtual [scheduleRead] and the virtual [connected] *)
| EvScheduleRead
| EvConnected
(** [mApp.postOnMainThread(task, name, type)]; [type] is [None] when the
    call leaves it to the default argument *)
| EvPost (task : Task) (name : string) (type : option ActionType)
| EvCall (c : Call).

(** ** The monad of member functions *)

Record World : Type := {
  self : Peer;
  events : list Event;
  (** how many draws of the random engine were consumed *)
  draws : nat
}.

Definition M (A : Type) : Type := World -> option (A * World).

Definition ret {A : Type} (a : A) : M A := fun w => Some (a, w).

Definition bind {A B : Type} (c : M A) (k : A -> M B) : M B :=
  fun w =>
    match c w with
    | Some (a, w') => k a w'
    | None => None
    end.

Notation "'let*' p ':=' c 'in' k" :=
  (bind c (fun x => match x with p => k end))
  (at level 10, p pattern, c at level 100, k at level 200).

Notation "c ';;' k" := (bind c (fun _ => k))
  (at level 100, k at level 200, right associativity).

(** Read a member, or any function of the object. *)
Definition get {A : Type} (f : Peer -> A) : M A := fun w => Some (f (self w), w).

(** Update the object. *)
Definition modify (f : Peer -> Peer) : M unit :=
  fun w => Some (tt, {| self := f (self w); events := events w; draws := draws w |}).

Definition emit (e : Event) : M unit :=
  fun w => Some (tt, {| self := self w; events := events w ++ [e]; draws := draws w |}).

(** The next draw of the random engine. *)
Definition draw (app : Application) : M Z :=
  fun w => Some (rand_uniform app (draws w),
                 {| self := self w; events := events w; draws := S (draws w) |}).

Definition releaseAssert (cond : bool) : M unit :=
  fun w => if cond then Some (tt, w) else None.

(** A member of the flow controller that can abort. *)
Definition lift {A : Type} (c : option A) : M A :=
  fun w => match c with Some a => Some (a, w) | None => None end.

Definition skip : M unit := ret tt.

(** [for (auto const& x : xs) body(x);] *)
Fixpoint for_each {A : Type} (xs : list A) (body : A -> M unit) : M unit :=
  match xs with
  | [] => skip
  | x :: rest => body x ;; for_each rest body
  end.

(** Run a member function on an object, starting from an empty event list. *)
Definition run {A : Type} (c : M A) (p : Peer) : option (A * World) :=
  c {| self := p; events := []; draws := 0 |}.

(** ** Peer.cpp *)

(** [Peer::Peer]. [this_] is the address of the new object and [sendNonce]
    the value [randomBytes] returned. *)
Definition Peer_new (app : Application) (role : PeerRole) (this_ : Z) (sendNonce : uint256)
  : Peer :=
  {| this := this_;
     mRole := role;
     mState := if decide (role = WE_CALLED_REMOTE) then CONNECTING else CONNECTED;
     mPeerID := 0;
     mSendNonce := sendNonce;
     mRecvNonce := 0;
     mFlowControl := FlowControl.new app;
     mIsPeerThrottled := false;
     mSendMacKey := 0;
     mRecvMacKey := 0;
     mSendMacSeq := 0;
     mRecvMacSeq := 0;
     mRemoteVersion := "";
     mRemoteOverlayMinVersion := 0;
     mRemoteOverlayVersion := 0;
     mAddress := EmptyAddress;
     mCreationTime := now app;
     mRecurringTimer := None;
     mDelayedExecutionTimer := None;
     mLastRead := now app;
     mLastWrite := now app;
     mEnqueueTimeOfLastWrite := now app;
     mPingSentTime := None;
     mLastPing := 24 * 3600 * 1000;
     mPeerMetrics := PeerMetrics_new;
     mTxHashesToAdvertise := [];
     mAdvertTimer := None;
     mAdvertHistory := Cache.empty ADVERT_CACHE_SIZE;
     mShuttingDown := false |}.

Definition isConnected (p : Peer) : bool :=
  negb (bool_decide (mState p = CONNECTING)) && negb (bool_decide (mState p = CLOSING)).

Definition isAuthenticated (p : Peer) : bool :=
  bool_decide (mState p = GOT_AUTH).

Definition shouldAbort (app : Application) (p : Peer) : bool :=
  bool_decide (mState p = CLOSING) || isShuttingDown app.

Definition getLifeTime (app : Application) (p : Peer) : Z :=
  (now app - mCreationTime p) `quot` 1000000000.

Definition peerKnowsHash (hash : Hash) (p : Peer) : bool :=
  Cache.exists_ hash (mAdvertHistory p).

Definition rememberHash (app : Application) (hash : Hash) (ledgerSeq : Z) : M unit :=
  let* r := draw app in
  modify (fun p => set_mAdvertHistory (Cache.put r hash ledgerSeq (mAdvertHistory p)) p).

Definition clearBelow (ledgerSeq : Z) : M unit :=
  modify (fun p =>
            set_mAdvertHistory
              (Cache.erase_if (fun seq => seq <? ledgerSeq) (mAdvertHistory p)) p).

Definition shutdown : M unit :=
  let* shuttingDown := get mShuttingDown in
  if shuttingDown
  then skip
  else
    modify (set_mShuttingDown true) ;;
    modify (set_mRecurringTimer None) ;;
    modify (set_mAdvertTimer None) ;;
    modify (set_mDelayedExecutionTimer None).

(** Modelled from the spec: [Peer::drop] is pure virtual; its definitions
    are in the transport subclasses, which are not among the sources.
    Section 4.5: "Drop is idempotent; moves state to CLOSING; cancels all
    timers". The event records the call and its arguments; the notification
    of the peer directory is not modelled. *)
Definition drop (reason : string) (dropDirection : DropDirection) (dropMode : DropMode)
  : M unit :=
  emit (EvDrop reason dropDirection dropMode) ;;
  let* state := get mState in
  if decide (state = CLOSING)
  then skip
  else
    modify (set_mState CLOSING) ;;
    shutdown.

(** The frames this call has handed to the transport so far. *)
Definition written (evs : list Event) : list AuthenticatedMessage :=
  omap (fun e => match e with EvWrite a => Some a | _ => None end) evs.

Definition sendAuthenticatedMessage (app : Application) (m : HcnetMessage) : M unit :=
  let* amsg :=
    if negb (bool_decide (type_of m = HELLO)) && negb (bool_decide (type_of m = ERROR_MSG))
    then
      let* seq := get mSendMacSeq in
      let* key := get mSendMacKey in
      modify (set_mSendMacSeq (wrap64 (seq + 1))) ;;
      ret {| sequence := seq;
             message := m;
             mac := hmacSha256 app key (xdr_to_opaque app seq m) |}
    else ret (amsg_default m) in
  emit (EvWrite amsg).

(** The meter [sendMessage] marks for each message type. *)
Definition sendMeter (t : MessageType) : OverlayMetrics.meter :=
  match t with
  | ERROR_MSG => OverlayMetrics.mSendErrorMeter
  | HELLO => OverlayMetrics.mSendHelloMeter
  | AUTH => OverlayMetrics.mSendAuthMeter
  | DONT_HAVE => OverlayMetrics.mSendDontHaveMeter
  | GET_PEERS => OverlayMetrics.mSendGetPeersMeter
  | PEERS => OverlayMetrics.mSendPeersMeter
  | GET_TX_SET => OverlayMetrics.mSendGetTxSetMeter
  | TX_SET | GENERALIZED_TX_SET => OverlayMetrics.mSendTxSetMeter
  | TRANSACTION => OverlayMetrics.mSendTransactionMeter
  | GET_SCP_QUORUMSET => OverlayMetrics.mSendGetSCPQuorumSetMeter
  | SCP_QUORUMSET => OverlayMetrics.mSendSCPQuorumSetMeter
  | SCP_MESSAGE => OverlayMetrics.mSendSCPMessageSetMeter
  | GET_SCP_STATE => OverlayMetrics.mSendGetSCPStateMeter
  | SURVEY_REQUEST => OverlayMetrics.mSendSurveyRequestMeter
  | SURVEY_RESPONSE => OverlayMetrics.mSendSurveyResponseMeter
  | SEND_MORE | SEND_MORE_EXTENDED => OverlayMetrics.mSendSendMoreMeter
  | FLOOD_ADVERT => OverlayMetrics.mSendFloodAdvertMeter
  | FLOOD_DEMAND => OverlayMetrics.mSendFloodDemandMeter
  end.

Definition incr_mMessageDrop (m : PeerMetrics) : PeerMetrics :=
  {| mMessageRead := mMessageRead m; mByteRead := mByteRead m;
     mMessageDrop := wrap64 (mMessageDrop m + 1); mTxDemandSent := mTxDemandSent m;
     mMessagesFulfilled := mMessagesFulfilled m;
     mBannedMessageUnfulfilled := mBannedMessageUnfulfilled m;
     mUnknownMessageUnfulfilled := mUnknownMessageUnfulfilled m |}.

(** [Peer::sendMessage(std::shared_ptr<HcnetMessage const>, bool)]: the
    load-shedding test, the per-type meter, then the flow controller, which
    either takes the message or leaves it to be sent directly. The frames
    the controller releases go out through its send callback, which
    [recvAuth] binds to [sendAuthenticatedMessage]. *)
Definition sendMessage (app : Application) (m : HcnetMessage) : M unit :=
  emit (EvSend m) ;;
  let* overloaded := (fun w => Some (sendQueueIsOverloaded app (written (events w)), w)) in
  if bool_decide (currentSchedulerActionType app = DROPPABLE_ACTION) && overloaded
  then
    emit (EvMark OverlayMetrics.mMessageDrop 1) ;;
    modify (fun p => set_mPeerMetrics (incr_mMessageDrop (mPeerMetrics p)) p)
  else
    emit (EvMark (sendMeter (type_of m)) 1) ;;
    let* fc := get mFlowControl in
    let* (taken, fc', released) := lift (FlowControl.maybeSendMessage app m fc) in
    modify (set_mFlowControl fc') ;;
    for_each released (sendAuthenticatedMessage app) ;;
    if (taken : bool) then skip else sendAuthenticatedMessage app m.

Definition sendHello (app : Application) : M unit :=
  let* sendNonce := get mSendNonce in
  let cfg := getConfig app in
  sendMessage app
    (MsgHello {| ledgerVersion := LEDGER_PROTOCOL_VERSION cfg;
                 overlayVersion := OVERLAY_PROTOCOL_VERSION cfg;
                 overlayMinVersion := OVERLAY_PROTOCOL_MIN_VERSION cfg;
                 networkID := getNetworkID app;
                 versionStr := VERSION_STR cfg;
                 listeningPort := PEER_PORT cfg;
                 peerID := NODE_SEED_getPublicKey cfg;
                 cert := getAuthCert app;
                 nonce := sendNonce |}).

Definition sendAuth (app : Application) : M unit :=
  sendMessage app
    (MsgAuth (if ENABLE_FLOW_CONTROL_BYTES (getConfig app)
              then AUTH_MSG_FLAG_FLOW_CONTROL_BYTES_REQUESTED app
              else 0)).

Definition sendDontHave (app : Application) (type : MessageType) (itemID : uint256) : M unit :=
  sendMessage app (MsgDontHave type itemID).

Definition sendSCPQuorumSet (app : Application) (qSet : SCPQuorumSet) : M unit :=
  sendMessage app (MsgSCPQuorumSet qSet).

Definition sendGetTxSet (app : Application) (setID : uint256) : M unit :=
  sendMessage app (MsgGetTxSet setID).

Definition sendGetQuorumSet (app : Application) (setID : uint256) : M unit :=
  sendMessage app (MsgGetSCPQuorumSet setID).

Definition sendGetPeers (app : Application) : M unit :=
  sendMessage app MsgGetPeers.

Definition sendGetScpState (app : Application) (ledgerSeq : Z) : M unit :=
  sendMessage app (MsgGetSCPState ledgerSeq).

Definition sendPeers (app : Application) : M unit :=
  let maxPeerCount := Z.min 50 (PEERS_MAX_SIZE app) in
  let* address := get mAddress in
  let peers := getPeersToSend app maxPeerCount address in
  releaseAssert (Z.of_nat (length peers) <=? maxPeerCount) ;;
  match peers with
  | [] => skip
  | _ => sendMessage app (MsgPeers (map (toXdr app) peers))
  end.

Definition sendError (app : Application) (error : ErrorCode) (message : string) : M unit :=
  sendMessage app (MsgError error message).

Definition sendErrorAndDrop (app : Application) (error : ErrorCode) (message : string)
    (dropMode : DropMode) : M unit :=
  sendError app error message ;;
  drop message WE_DROPPED_REMOTE dropMode.

(** [Peer::canRead] *)
Definition canRead : M bool :=
  let* fc := get mFlowControl in
  lift (FlowControl.canRead fc).

(** [Peer::beginMessageProcessing], called by the constructor of
    [MsgCapacityTracker]. *)
Definition beginMessageProcessing (app : Application) (m : HcnetMessage) : M unit :=
  let* fc := get mFlowControl in
  let* (success, fc') := lift (FlowControl.beginMessageProcessing app m fc) in
  modify (set_mFlowControl fc') ;;
  if (success : bool)
  then skip
  else drop "unexpected flood message, peer at capacity"
         WE_DROPPED_REMOTE IGNORE_WRITE_QUEUE.

(** [Peer::endMessageProcessing], called by the destructor of
    [MsgCapacityTracker] while the peer is alive. The grants the flow
    controller issues are sent as ordinary messages. *)
Definition endMessageProcessing (app : Application) (m : HcnetMessage) : M unit :=
  let* abort := get (shouldAbort app) in
  if abort
  then skip
  else
    let* fc := get mFlowControl in
    let* (fc', grants) := lift (FlowControl.endMessageProcessing app m fc) in
    modify (set_mFlowControl fc') ;;
    for_each grants (sendMessage app) ;;
    let* readable := canRead in
    releaseAssert readable ;;
    let* throttled := get mIsPeerThrottled in
    if throttled
    then
      modify (set_mIsPeerThrottled false) ;;
      emit EvScheduleRead
    else skip.

(** [MsgCapacityTracker::MsgCapacityTracker] and [~MsgCapacityTracker], for
    a tracker whose weak pointer still locks. *)
Definition MsgCapacityTracker_new := beginMessageProcessing.
Definition MsgCapacityTracker_delete := endMessageProcessing.

Definition getIOTimeout (app : Application) (p : Peer) : Z :=
  if isAuthenticated p
  then seconds (PEER_TIMEOUT (getConfig app))
  else seconds (PEER_AUTHENTICATION_TIMEOUT (getConfig app)).

Definition receivedBytes (app : Application) (byteCount : Z) (gotFullMessage : bool) : M unit :=
  let* abort := get (shouldAbort app) in
  if abort
  then skip
  else
    modify (set_mLastRead (now app)) ;;
    (if gotFullMessage
     then
       emit (EvMark OverlayMetrics.mMessageRead 1) ;;
       modify (fun p =>
                 let m := mPeerMetrics p in
                 set_mPeerMetrics
                   {| mMessageRead := wrap64 (mMessageRead m + 1); mByteRead := mByteRead m;
                      mMessageDrop := mMessageDrop m; mTxDemandSent := mTxDemandSent m;
                      mMessagesFulfilled := mMessagesFulfilled m;
                      mBannedMessageUnfulfilled := mBannedMessageUnfulfilled m;
                      mUnknownMessageUnfulfilled := mUnknownMessageUnfulfilled m |} p)
     else skip) ;;
    emit (EvMark OverlayMetrics.mByteRead byteCount) ;;
    modify (fun p =>
              let m := mPeerMetrics p in
              set_mPeerMetrics
                {| mMessageRead := mMessageRead m; mByteRead := wrap64 (mByteRead m + byteCount);
                   mMessageDrop := mMessageDrop m; mTxDemandSent := mTxDemandSent m;
                   mMessagesFulfilled := mMessagesFulfilled m;
                   mBannedMessageUnfulfilled := mBannedMessageUnfulfilled m;
                   mUnknownMessageUnfulfilled := mUnknownMessageUnfulfilled m |} p).

(** [pingIDfromTimePoint]: the short hash of the tick count. *)
Definition pingIDfromTimePoint (app : Application) (tp : Z) : Hash :=
  shortHash_of_time app tp.

(** [PING_NOT_SENT] is [None] in [mPingSentTime]. *)
Definition pingPeer (app : Application) : M unit :=
  let* authenticated := get isAuthenticated in
  let* pingSentTime := get mPingSentTime in
  match pingSentTime with
  | None =>
      if authenticated
      then
        modify (set_mPingSentTime (Some (now app))) ;;
        sendGetQuorumSet app (pingIDfromTimePoint app (now app))
      else skip
  | Some _ => skip
  end.

Definition maybeProcessPingResponse (app : Application) (id : Hash) : M unit :=
  let* pingSentTime := get mPingSentTime in
  match pingSentTime with
  | Some sent =>
      if pingIDfromTimePoint app sent =? id
      then
        let lastPing := (now app - sent) `quot` 1000000 in
        modify (set_mLastPing lastPing) ;;
        modify (set_mPingSentTime None) ;;
        emit (EvMark OverlayMetrics.mConnectionLatencyTimer lastPing)
      else skip
  | None => skip
  end.

(** [startRecurrentTimer]: arm [mRecurringTimer] to call
    [recurrentTimerExpired] after [RECURRENT_TIMER_PERIOD]. *)
Definition startRecurrentTimer (app : Application) : M unit :=
  let* abort := get (shouldAbort app) in
  if abort
  then skip
  else
    pingPeer app ;;
    modify (set_mRecurringTimer (Some (now app + RECURRENT_TIMER_PERIOD))).

(** [recurrentTimerExpired]; [error] is true when the wait was cancelled,
    and false when it ran to its deadline, which leaves the timer without a
    pending wait. *)
Definition recurrentTimerExpired (app : Application) (error : bool) : M unit :=
  if error
  then skip
  else
    modify (set_mRecurringTimer None) ;;
    let* p := get id in
    let timeout := getIOTimeout app p in
    let stragglerTimeout := seconds (PEER_STRAGGLER_TIMEOUT (getConfig app)) in
    if (timeout <=? now app - mLastRead p) && (timeout <=? now app - mLastWrite p)
    then
      emit (EvMark OverlayMetrics.mTimeoutIdle 1) ;;
      drop "idle timeout" WE_DROPPED_REMOTE IGNORE_WRITE_QUEUE
    else if
      match FlowControl.getOutboundCapacityTimestamp (mFlowControl p) with
      | Some ts => PEER_SEND_MODE_IDLE_TIMEOUT <=? now app - ts
      | None => false
      end
    then drop "idle timeout (no new flood requests)" WE_DROPPED_REMOTE IGNORE_WRITE_QUEUE
    else if stragglerTimeout <=? now app - mEnqueueTimeOfLastWrite p
    then
      emit (EvMark OverlayMetrics.mTimeoutStraggler 1) ;;
      drop "straggling (cannot keep up)" WE_DROPPED_REMOTE IGNORE_WRITE_QUEUE
    else startRecurrentTimer app.

(** [connectHandler]; [error] carries [error.message()] on failure. *)
Definition connectHandler (app : Application) (error : option string) : M unit :=
  match error with
  | Some message =>
      drop ("unable to connect: " +:+ message) WE_DROPPED_REMOTE IGNORE_WRITE_QUEUE
  | None =>
      emit EvConnected ;;
      modify (set_mState CONNECTED) ;;
      sendHello app
  end.

(** The character class of [recvError]: [isalnum] in the C locale, or a
    space. *)
Definition isalnum (c : ascii) : bool :=
  let n := Z.of_N (Ascii.N_of_ascii c) in
  ((48 <=? n) && (n <=? 57)) || ((65 <=? n) && (n <=? 90)) || ((97 <=? n) && (n <=? 122)).

Fixpoint sanitize (s : string) : string :=
  match s with
  | EmptyString => EmptyString
  | String c rest =>
      String (if isalnum c || bool_decide (c = " "%char) then c else "*"%char)
        (sanitize rest)
  end.

Definition recvError (code : ErrorCode) (msg : string) : M unit :=
  let codeStr :=
    match code with
    | ERR_MISC => "ERR_MISC"
    | ERR_DATA => "ERR_DATA"
    | ERR_CONF => "ERR_CONF"
    | ERR_AUTH => "ERR_AUTH"
    | ERR_LOAD => "ERR_LOAD"
    end in
  drop (codeStr +:+ " (" +:+ sanitize msg +:+ ")") REMOTE_DROPPED_US IGNORE_WRITE_QUEUE.

Definition updatePeerRecordAfterEcho (app : Application) : M unit :=
  let* p := get id in
  releaseAssert (negb (isEmpty (mAddress p))) ;;
  let type :=
    if isPreferred app (mAddress p) (mPeerID p) then PREFERRED
    else if decide (mRole p = WE_CALLED_REMOTE) then OUTBOUND
    else INBOUND in
  emit (EvCall (PeerManager_update_type (mAddress p) type true)).

Definition updatePeerRecordAfterAuthentication : M unit :=
  let* p := get id in
  releaseAssert (negb (isEmpty (mAddress p))) ;;
  if decide (mRole p = WE_CALLED_REMOTE)
  then emit (EvCall (PeerManager_update_backoff_reset (mAddress p)))
  else skip.

(** [static_cast<unsigned short>(elo.listeningPort)] *)
Definition to_unsigned_short (n : Z) : Z := n mod 65536.

Definition recvHello (app : Application) (elo : Hello) : M unit :=
  let* state := get mState in
  if state_value GOT_HELLO <=? state_value state
  then drop "received unexpected HELLO" WE_DROPPED_REMOTE IGNORE_WRITE_QUEUE
  else if negb (verifyRemoteAuthCert app (peerID elo) (cert elo))
  then drop "failed to verify auth cert" WE_DROPPED_REMOTE IGNORE_WRITE_QUEUE
  else if isBanned app (peerID elo)
  then drop "node is banned" WE_DROPPED_REMOTE IGNORE_WRITE_QUEUE
  else
    modify (set_mRemoteOverlayMinVersion (overlayMinVersion elo)) ;;
    modify (set_mRemoteOverlayVersion (overlayVersion elo)) ;;
    modify (set_mRemoteVersion (versionStr elo)) ;;
    modify (set_mPeerID (peerID elo)) ;;
    modify (set_mRecvNonce (nonce elo)) ;;
    modify (set_mSendMacSeq 0) ;;
    modify (set_mRecvMacSeq 0) ;;
    modify (fun p =>
              set_mSendMacKey
                (getSendingMacKey app (cert_pubkey (cert elo)) (mSendNonce p)
                   (mRecvNonce p) (mRole p)) p) ;;
    modify (fun p =>
              set_mRecvMacKey
                (getReceivingMacKey app (cert_pubkey (cert elo)) (mSendNonce p)
                   (mRecvNonce p) (mRole p)) p) ;;
    modify (set_mState GOT_HELLO) ;;
    let ip := getIP app in
    if decide (ip = "")
    then drop "failed to determine remote address" WE_DROPPED_REMOTE IGNORE_WRITE_QUEUE
    else
      modify (set_mAddress (IPv4Address ip (to_unsigned_short (listeningPort elo)))) ;;
      let* role := get mRole in
      let* dropMode :=
        if decide (role = REMOTE_CALLED_US)
        then sendHello app ;; ret FLUSH_WRITE_QUEUE
        else ret IGNORE_WRITE_QUEUE in
      let* p := get id in
      let cfg := getConfig app in
      if (mRemoteOverlayVersion p <? mRemoteOverlayMinVersion p)
         || (mRemoteOverlayVersion p <? OVERLAY_PROTOCOL_MIN_VERSION cfg)
         || (OVERLAY_PROTOCOL_VERSION cfg <? mRemoteOverlayMinVersion p)
      then sendErrorAndDrop app ERR_CONF "wrong protocol version" dropMode
      else if peerID elo =? NODE_SEED_getPublicKey cfg
      then sendErrorAndDrop app ERR_CONF "connecting to self" dropMode
      else if negb (networkID elo =? getNetworkID app)
      then sendErrorAndDrop app ERR_CONF "wrong network passphrase" dropMode
      else if (listeningPort elo <=? 0) || (UINT16_MAX <? listeningPort elo)
              || bool_decide (ip = "")
      then sendErrorAndDrop app ERR_CONF "bad address" IGNORE_WRITE_QUEUE
      else
        updatePeerRecordAfterEcho app ;;
        let alreadyConnected :=
          sendErrorAndDrop app ERR_CONF
            ("already-connected peer: " +:+ toShortString app (mPeerID p)) dropMode in
        if match getAuthenticatedPeers app !! mPeerID p with
           | Some other => negb (other =? this p)
           | None => false
           end
        then alreadyConnected
        else if existsb (fun '(other, otherID) =>
                           negb (other =? this p) && (otherID =? mPeerID p))
                  (getPendingPeers app)
        then alreadyConnected
        else if decide (role = WE_CALLED_REMOTE)
        then sendAuth app
        else skip.

(** The flag [recvAuth] passes to [FlowControl::start]. *)
Definition bothWantBytes (app : Application) (p : Peer) (flags : Z) : bool :=
  let enableBytes :=
    (FIRST_VERSION_SUPPORTING_FLOW_CONTROL_IN_BYTES
       <=? OVERLAY_PROTOCOL_VERSION (getConfig app))
    && (FIRST_VERSION_SUPPORTING_FLOW_CONTROL_IN_BYTES <=? mRemoteOverlayVersion p) in
  enableBytes
  && (flags =? AUTH_MSG_FLAG_FLOW_CONTROL_BYTES_REQUESTED app)
  && ENABLE_FLOW_CONTROL_BYTES (getConfig app).

Definition recvAuth (app : Application) (flags : Z) : M unit :=
  let* state := get mState in
  if negb (bool_decide (state = GOT_HELLO))
  then sendErrorAndDrop app ERR_MISC "out-of-order AUTH message" IGNORE_WRITE_QUEUE
  else
    let* authenticated := get isAuthenticated in
    if authenticated
    then sendErrorAndDrop app ERR_MISC "out-of-order AUTH message" IGNORE_WRITE_QUEUE
    else
      modify (set_mState GOT_AUTH) ;;
      let* role := get mRole in
      (if decide (role = REMOTE_CALLED_US)
       then sendAuth app ;; sendPeers app
       else skip) ;;
      updatePeerRecordAfterAuthentication ;;
      let* p := get id in
      if negb (acceptAuthenticatedPeer app (mPeerID p))
      then sendErrorAndDrop app ERR_LOAD "peer rejected" FLUSH_WRITE_QUEUE
      else
        let '(fc, grants) :=
          FlowControl.start app (bothWantBytes app p flags) (mFlowControl p) in
        modify (set_mFlowControl fc) ;;
        for_each grants (sendMessage app) ;;
        sendGetScpState app (getMinLedgerSeqToAskPeers app).

Definition recvSendMore (app : Application) (m : HcnetMessage) : M unit :=
  let* fc := get mFlowControl in
  let* (fc', released) := lift (FlowControl.maybeReleaseCapacityAndTriggerSend app m fc) in
  modify (set_mFlowControl fc') ;;
  for_each released (sendAuthenticatedMessage app).

Definition recvDontHave (app : Application) (type : MessageType) (reqHash : uint256) : M unit :=
  maybeProcessPingResponse app reqHash ;;
  emit (EvCall (Herder_peerDoesntHave type reqHash)).

(** [recvGetTxSet]; the herder returns the set already in its wire form,
    TX_SET or GENERALIZED_TX_SET. *)
Definition recvGetTxSet (app : Application) (txSetHash : uint256) : M unit :=
  match getTxSet app txSetHash with
  | Some newMsg => sendMessage app newMsg
  | None =>
      let messageType :=
        if getLastClosedLedgerHeader_ledgerVersion app <? SOROBAN_PROTOCOL_VERSION app
        then TX_SET
        else GENERALIZED_TX_SET in
      sendDontHave app messageType txSetHash
  end.

Definition recvTxSet (m : HcnetMessage) : M unit :=
  emit (EvCall (Herder_recvTxSet m)).

Definition recvGeneralizedTxSet (m : HcnetMessage) : M unit :=
  emit (EvCall (Herder_recvTxSet m)).

Definition recvTransaction (app : Application) (m : HcnetMessage)
    (transaction : TransactionEnvelope) : M unit :=
  if makeTransactionFromWire app transaction
  then
    emit (EvCall (OverlayManager_recvFloodedMsgID m)) ;;
    emit (EvCall (OverlayManager_recordTxPullLatency m)) ;;
    let recvRes := herder_recvTransaction app transaction in
    let* pulledRelevantTx :=
      match recvRes with
      | ADD_STATUS_PENDING => ret true
      | ADD_STATUS_DUPLICATE => ret false
      | _ => emit (EvCall (OverlayManager_forgetFloodedMsg m)) ;; ret false
      end in
    emit (EvMark (if (pulledRelevantTx : bool)
                  then OverlayMetrics.mPulledRelevantTxs
                  else OverlayMetrics.mPulledIrrelevantTxs) 1)
  else skip.

Definition recvGetSCPQuorumSet (app : Application) (qSetHash : uint256) : M unit :=
  match getQSet app qSetHash with
  | Some qset => sendSCPQuorumSet app qset
  | None => sendDontHave app SCP_QUORUMSET qSetHash
  end.

Definition recvSCPQuorumSet (app : Application) (qSet : SCPQuorumSet) : M unit :=
  let hash := xdrSha256 app qSet in
  maybeProcessPingResponse app hash ;;
  emit (EvCall (Herder_recvSCPQuorumSet hash qSet)).

Definition recvSCPMessage (app : Application) (m : HcnetMessage) (envelope : SCPEnvelope)
  : M unit :=
  emit (EvCall (OverlayManager_recvFloodedMsgID m)) ;;
  match herder_recvSCPEnvelope app envelope with
  | ENVELOPE_STATUS_DISCARDED => emit (EvCall (OverlayManager_forgetFloodedMsg m))
  | _ => skip
  end.

Definition recvGetSCPState (ledgerSeq : Z) : M unit :=
  emit (EvCall (Herder_sendSCPStateToPeer ledgerSeq)).

Definition recvGetPeers (app : Application) : M unit := sendPeers app.

Definition recvPeers (app : Application) (peers : list PeerAddress) : M unit :=
  for_each peers
    (fun peer =>
       if (pa_port peer =? 0) || (UINT16_MAX <? pa_port peer)
       then skip
       else
         match pa_type peer with
         | IPv6 => skip
         | IPv4 =>
             let address := fromXdr app peer in
             let* own := get mAddress in
             if isPrivate app address
             then skip
             else if
               match own, address with
               | IPv4Address ownIP _, IPv4Address ip port =>
                   bool_decide (ip = ownIP) && (port =? PEER_PORT (getConfig app))
               | _, _ => false
               end
             then skip
             else if isLocalhost app address
                     && negb (ALLOW_LOCALHOST_FOR_TESTING (getConfig app))
             then skip
             else emit (EvCall (PeerManager_ensureExists address))
         end).

Definition recvSurveyRequestMessage (m : HcnetMessage) : M unit :=
  emit (EvCall (SurveyManager_relayOrProcessRequest m)).

Definition recvSurveyResponseMessage (m : HcnetMessage) : M unit :=
  emit (EvCall (SurveyManager_relayOrProcessResponse m)).

Definition recvFloodAdvert (app : Application) (txHashes : list Hash) : M unit :=
  let seq := trackingConsensusLedgerIndex app in
  for_each txHashes (fun hash => rememberHash app hash seq) ;;
  emit (EvCall (TxAdvertQueue_queueAndMaybeTrim txHashes)).

Definition incr_mMessagesFulfilled (m : PeerMetrics) : PeerMetrics :=
  {| mMessageRead := mMessageRead m; mByteRead := mByteRead m;
     mMessageDrop := mMessageDrop m; mTxDemandSent := mTxDemandSent m;
     mMessagesFulfilled := wrap64 (mMessagesFulfilled m + 1);
     mBannedMessageUnfulfilled := mBannedMessageUnfulfilled m;
     mUnknownMessageUnfulfilled := mUnknownMessageUnfulfilled m |}.

Definition incr_mBannedMessageUnfulfilled (m : PeerMetrics) : PeerMetrics :=
  {| mMessageRead := mMessageRead m; mByteRead := mByteRead m;
     mMessageDrop := mMessageDrop m; mTxDemandSent := mTxDemandSent m;
     mMessagesFulfilled := mMessagesFulfilled m;
     mBannedMessageUnfulfilled := wrap64 (mBannedMessageUnfulfilled m + 1);
     mUnknownMessageUnfulfilled := mUnknownMessageUnfulfilled m |}.

Definition incr_mUnknownMessageUnfulfilled (m : PeerMetrics) : PeerMetrics :=
  {| mMessageRead := mMessageRead m; mByteRead := mByteRead m;
     mMessageDrop := mMessageDrop m; mTxDemandSent := mTxDemandSent m;
     mMessagesFulfilled := mMessagesFulfilled m;
     mBannedMessageUnfulfilled := mBannedMessageUnfulfilled m;
     mUnknownMessageUnfulfilled := wrap64 (mUnknownMessageUnfulfilled m + 1) |}.

Definition incr_mTxDemandSent (m : PeerMetrics) : PeerMetrics :=
  {| mMessageRead := mMessageRead m; mByteRead := mByteRead m;
     mMessageDrop := mMessageDrop m; mTxDemandSent := wrap64 (mTxDemandSent m + 1);
     mMessagesFulfilled := mMessagesFulfilled m;
     mBannedMessageUnfulfilled := mBannedMessageUnfulfilled m;
     mUnknownMessageUnfulfilled := mUnknownMessageUnfulfilled m |}.

(** The body of the loop of [fulfillDemand] for one demanded hash;
    [tx->toHcnetMessage()] is the TRANSACTION message with the envelope. *)
Definition fulfillOne (app : Application) (h : Hash) : M unit :=
  match getTx app h with
  | Some tx =>
      modify (fun p => set_mPeerMetrics (incr_mMessagesFulfilled (mPeerMetrics p)) p) ;;
      emit (EvMark OverlayMetrics.mMessagesFulfilledMeter 1) ;;
      sendMessage app (MsgTransaction tx)
  | None =>
      if isBannedTx app h
      then
        emit (EvMark OverlayMetrics.mBannedMessageUnfulfilledMeter 1) ;;
        modify (fun p =>
                  set_mPeerMetrics (incr_mBannedMessageUnfulfilled (mPeerMetrics p)) p)
      else
        emit (EvMark OverlayMetrics.mUnknownMessageUnfulfilledMeter 1) ;;
        modify (fun p =>
                  set_mPeerMetrics (incr_mUnknownMessageUnfulfilled (mPeerMetrics p)) p)
  end.

Definition fulfillDemand (app : Application) (txHashes : list Hash) : M unit :=
  for_each txHashes (fulfillOne app).

Definition recvFloodDemand (app : Application) (txHashes : list Hash) : M unit :=
  fulfillDemand app txHashes.

Definition recvRawMessage (app : Application) (m : HcnetMessage) : M unit :=
  let* abort := get (shouldAbort app) in
  if abort
  then skip
  else
    let* authenticated := get isAuthenticated in
    if negb authenticated
       && negb (bool_decide (type_of m = HELLO))
       && negb (bool_decide (type_of m = AUTH))
       && negb (bool_decide (type_of m = ERROR_MSG))
    then
      drop ("received " +:+ format_MessageType app (type_of m)
            +:+ " before completed handshake")
        WE_DROPPED_REMOTE IGNORE_WRITE_QUEUE
    else
      releaseAssert (authenticated
                     || bool_decide (type_of m = HELLO)
                     || bool_decide (type_of m = AUTH)
                     || bool_decide (type_of m = ERROR_MSG)) ;;
      emit (EvCall (OverlayManager_recordMessageMetric m)) ;;
      match m with
      | MsgError code msg => recvError code msg
      | MsgHello elo => recvHello app elo
      | MsgAuth flags => recvAuth app flags
      | MsgDontHave type reqHash => recvDontHave app type reqHash
      | MsgGetPeers => recvGetPeers app
      | MsgPeers peers => recvPeers app peers
      | MsgSurveyRequest _ => recvSurveyRequestMessage m
      | MsgSurveyResponse _ => recvSurveyResponseMessage m
      | MsgGetTxSet txSetHash => recvGetTxSet app txSetHash
      | MsgTxSet _ => recvTxSet m
      | MsgGeneralizedTxSet _ => recvGeneralizedTxSet m
      | MsgTransaction transaction => recvTransaction app m transaction
      | MsgGetSCPQuorumSet qSetHash => recvGetSCPQuorumSet app qSetHash
      | MsgSCPQuorumSet qSet => recvSCPQuorumSet app qSet
      | MsgSCPMessage envelope => recvSCPMessage app m envelope
      | MsgGetSCPState ledgerSeq => recvGetSCPState ledgerSeq
      | MsgSendMore _ | MsgSendMoreExtended _ _ =>
          let* fc := get mFlowControl in
          if negb (FlowControl.isSendMoreValid m fc)
          then drop FlowControl.sendMoreErrorMsg WE_DROPPED_REMOTE IGNORE_WRITE_QUEUE
          else recvSendMore app m
      | MsgFloodAdvert txHashes => recvFloodAdvert app txHashes
      | MsgFloodDemand txHashes => recvFloodDemand app txHashes
      end.

(** The category, scheduler class and out-of-sync rule [recvMessage]
    assigns to a message that is not part of the handshake. *)
Definition categorize (t : MessageType) : string * ActionType * bool :=
  match t with
  | GET_PEERS | PEERS | ERROR_MSG | SEND_MORE | SEND_MORE_EXTENDED =>
      ("CTRL", NORMAL_ACTION, false)
  | TRANSACTION | FLOOD_ADVERT | FLOOD_DEMAND =>
      ("TX", DROPPABLE_ACTION, true)
  | GET_TX_SET | GET_SCP_QUORUMSET | GET_SCP_STATE =>
      ("SCPQ", DROPPABLE_ACTION, false)
  | DONT_HAVE | TX_SET | GENERALIZED_TX_SET | SCP_QUORUMSET | SCP_MESSAGE =>
      ("SCP", NORMAL_ACTION, false)
  | _ => ("MISC", NORMAL_ACTION, false)
  end.

(** [Peer::recvMessage(HcnetMessage const&)]. The tracker is created before
    the out-of-sync test; on the early return it goes out of scope at once. *)
Definition recvMessage_HcnetMessage (app : Application) (m : HcnetMessage) : M unit :=
  let* abort := get (shouldAbort app) in
  if abort
  then skip
  else
    match type_of m with
    | HELLO | AUTH => recvRawMessage app m
    | msgType =>
        let '(cat, type, ignoreIfOutOfSync) := categorize msgType in
        MsgCapacityTracker_new app m ;;
        if negb (isSynced app) && ignoreIfOutOfSync
        then MsgCapacityTracker_delete app m
        else emit (EvPost (RecvMessageTask m cat) (cat +:+ " recvMessage") (Some type))
    end.

(** [Peer::recvMessage(AuthenticatedMessage const&)] *)
Definition recvMessage (app : Application) (amsg : AuthenticatedMessage) : M unit :=
  let* abort := get (shouldAbort app) in
  if abort
  then skip
  else
    let* state := get mState in
    if (state_value GOT_HELLO <=? state_value state)
       && negb (bool_decide (type_of (message amsg) = ERROR_MSG))
    then
      let* recvMacSeq := get mRecvMacSeq in
      let* recvMacKey := get mRecvMacKey in
      if negb (sequence amsg =? recvMacSeq)
      then
        modify (set_mRecvMacSeq (wrap64 (recvMacSeq + 1))) ;;
        sendErrorAndDrop app ERR_AUTH "unexpected auth sequence" IGNORE_WRITE_QUEUE
      else if negb (hmacSha256Verify app (mac amsg) recvMacKey
                      (xdr_to_opaque app (sequence amsg) (message amsg)))
      then
        modify (set_mRecvMacSeq (wrap64 (recvMacSeq + 1))) ;;
        sendErrorAndDrop app ERR_AUTH "unexpected MAC" IGNORE_WRITE_QUEUE
      else
        modify (set_mRecvMacSeq (wrap64 (recvMacSeq + 1))) ;;
        recvMessage_HcnetMessage app (message amsg)
    else recvMessage_HcnetMessage app (message amsg).

(** The closures of [postOnMainThread], run while the peer is alive (when
    it is not, their weak pointer does not lock and they do nothing). The
    tracker dies with the closure of [recvMessage]. The collaborators are
    total functions here, so the handler of [CryptoError] has nothing to
    catch. *)
Definition runTask (app : Application) (t : Task) : M unit :=
  match t with
  | RecvMessageTask m _ =>
      recvRawMessage app m ;;
      MsgCapacityTracker_delete app m
  | SendMessageTask m => sendMessage app m
  end.

(** ** Adverts *)

Definition flushAdvert : M unit :=
  let* hashes := get mTxHashesToAdvertise in
  match hashes with
  | [] => skip
  | _ =>
      modify (set_mTxHashesToAdvertise []) ;;
      emit (EvPost (SendMessageTask (MsgFloodAdvert hashes)) "flushAdvert" None)
  end.

(** [startAdvertTimer]: arm [mAdvertTimer] to call [advertTimerExpired]. *)
Definition startAdvertTimer (app : Application) : M unit :=
  let* abort := get (shouldAbort app) in
  if abort
  then skip
  else
    modify (set_mAdvertTimer
              (Some (now app + milliseconds (FLOOD_ADVERT_PERIOD_MS (getConfig app))))).

(** The lambda [startAdvertTimer] gives to [async_wait]; as above, a wait
    that ran to its deadline is over. *)
Definition advertTimerExpired (error : bool) : M unit :=
  if error
  then skip
  else
    modify (set_mAdvertTimer None) ;;
    flushAdvert.

Definition queueTxHashToAdvertise (app : Application) (txHash : Hash) : M unit :=
  let* hashes := get mTxHashesToAdvertise in
  (match hashes with
   | [] => startAdvertTimer app
   | _ => skip
   end) ;;
  if Z.of_nat (length hashes) =? TX_ADVERT_VECTOR_MAX_SIZE app
  then skip
  else
    modify (set_mTxHashesToAdvertise (hashes ++ [txHash])) ;;
    if getMaxAdvertSize app <=? Z.of_nat (length (hashes ++ [txHash]))
    then flushAdvert
    else skip.

Definition sendTxDemand (demands : list Hash) : M unit :=
  match demands with
  | [] => skip
  | _ =>
      emit (EvMark OverlayMetrics.mMessagesDemanded (Z.of_nat (length demands))) ;;
      emit (EvPost (SendMessageTask (MsgFloodDemand demands)) "sendTxDemand" None) ;;
      modify (fun p => set_mPeerMetrics (incr_mTxDemandSent (mPeerMetrics p)) p)
  end.

(** ** A concrete node, for running the model *)

Module Sample.

Definition cfg : Config :=
  {| LEDGER_PROTOCOL_VERSION := 20;
     OVERLAY_PROTOCOL_MIN_VERSION := 27;
     OVERLAY_PROTOCOL_VERSION := 30;
     VERSION_STR := "hcnet-core 20.0.2";
     PEER_PORT := 11625;
     NODE_SEED_getPublicKey := 1001;
     PEER_TIMEOUT := 30;
     PEER_AUTHENTICATION_TIMEOUT := 2;
     PEER_STRAGGLER_TIMEOUT := 120;
     ENABLE_FLOW_CONTROL_BYTES := true;
     PEER_FLOOD_READING_CAPACITY := 200;
     PEER_READING_CAPACITY := 201;
     FLOW_CONTROL_SEND_MORE_BATCH_SIZE := 40;
     FLOW_CONTROL_SEND_MORE_BATCH_SIZE_BYTES := 100000;
     FLOOD_ADVERT_PERIOD_MS := 100;
     ALLOW_LOCALHOST_FOR_TESTING := false |}.

(** A toy keyed checksum in the place of HMAC-SHA256. *)
Definition toy_mac (key : Z) (data : list Z) : Z :=
  foldr (fun b acc => (key + b + 31 * acc) mod 2 ^ 256) key data.

(** A toy encoding: the sequence number, then the message type's
    position, then the numeric payload of the few messages used below. *)
Definition toy_xdr (seq : Z) (m : HcnetMessage) : list Z :=
  seq ::
  match m with
  | MsgTransaction tx => [8; tx]
  | MsgGetPeers => [4]
  | MsgFloodAdvert hs => 18 :: hs
  | MsgFloodDemand hs => 19 :: hs
  | MsgAuth flags => [2; flags]
  | MsgGetSCPState n => [12; n]
  | MsgSendMore n => [16; n]
  | _ => [0]
  end.

(** The node at instant [now_], with its ledger in sync or not and its
    overlay shutting down or not. The herder knows transaction 7 under
    hash 70 and has banned hash 80. *)
Definition make_app (now_ : Z) (synced shuttingDown : bool) : Application :=
  {| getConfig := cfg;
     getNetworkID := 5;
     now := now_;
     currentSchedulerActionType := NORMAL_ACTION;
     isShuttingDown := shuttingDown;
     getMaxAdvertSize := 3;
     getFlowControlBytesConfig_mTotal := 300000;
     acceptAuthenticatedPeer := fun _ => true;
     isPreferred := fun _ _ => false;
     getAuthenticatedPeers := ∅;
     getPendingPeers := [];
     getPeersToSend := fun _ _ => [];
     verifyRemoteAuthCert := fun id c => cert_sig c =? id + cert_pubkey c;
     getAuthCert := {| cert_pubkey := 55; cert_expiration := 0; cert_sig := 1001 + 55 |};
     getSendingMacKey := fun pk sendNonce recvNonce role =>
       pk + 2 * sendNonce + 3 * recvNonce + (if decide (role = WE_CALLED_REMOTE) then 1 else 0);
     getReceivingMacKey := fun pk sendNonce recvNonce role =>
       pk + 3 * sendNonce + 2 * recvNonce + (if decide (role = WE_CALLED_REMOTE) then 0 else 1);
     isBanned := fun id => id =? 666;
     isSynced := synced;
     getLastClosedLedgerHeader_ledgerVersion := 20;
     getTx := fun h => if h =? 70 then Some 7 else None;
     isBannedTx := fun h => h =? 80;
     getTxSet := fun _ => None;
     getQSet := fun _ => None;
     herder_recvTransaction := fun _ => ADD_STATUS_PENDING;
     herder_recvSCPEnvelope := fun _ => ENVELOPE_STATUS_PROCESSED;
     trackingConsensusLedgerIndex := 12;
     getMinLedgerSeqToAskPeers := 10;
     hmacSha256 := toy_mac;
     hmacSha256Verify := fun tag key data => tag =? toy_mac key data;
     xdr_to_opaque := toy_xdr;
     xdr_size := fun m => Z.of_nat (length (toy_xdr 0 m)) * 4;
     xdrSha256 := fun q => q;
     shortHash_of_time := fun t => t;
     makeTransactionFromWire := fun _ => true;
     toShortString := fun _ => "GABCD";
     format_MessageType := fun _ => "msg";
     toXdr := fun _ => {| pa_type := IPv4; pa_ip := 0; pa_port := 0; pa_numFailures := 0 |};
     fromXdr := fun _ => EmptyAddress;
     isPrivate := fun _ => false;
     isLocalhost := fun _ => false;
     rand_uniform := fun n => Z.of_nat n;
     AUTH_MSG_FLAG_FLOW_CONTROL_BYTES_REQUESTED := 200;
     TX_ADVERT_VECTOR_MAX_SIZE := 1000;
     PEERS_MAX_SIZE := 100;
     SOROBAN_PROTOCOL_VERSION := 20;
     getIP := "10.0.0.7";
     sendQueueIsOverloaded := fun _ => false |}.

Definition app : Application := make_app (seconds 1000) true false.

(** A responder's session, as constructed when the socket is accepted. *)
Definition fresh : Peer := Peer_new app REMOTE_CALLED_US 1 42.

(** An initiator's session after [connectHandler]. *)
Definition initiator : Peer := set_mState CONNECTED (Peer_new app WE_CALLED_REMOTE 2 43).

Definition hello_from (id : Z) : Hello :=
  {| ledgerVersion := 20; overlayVersion := 30; overlayMinVersion := 27;
     networkID := 5; versionStr := "remote"; listeningPort := 11626;
     peerID := id; cert := {| cert_pubkey := 9; cert_expiration := 0; cert_sig := id + 9 |};
     nonce := 77 |}.

End Sample.

(** * Specification vocabulary *)

(** ** Observable calls and the footprint of the send path *)

(** The calls a member function makes outward: messages handed to
    [sendMessage], calls of [drop], tasks posted. *)
Definition is_call (e : Event) : bool :=
  match e with
  | EvSend _ | EvDrop _ _ _ | EvPost _ _ _ => true
  | _ => false
  end.

Definition calls (evs : list Event) : list Event := List.filter is_call evs.

Definition with_mMessageDrop (d : Z) (m : PeerMetrics) : PeerMetrics :=
  {| mMessageRead := mMessageRead m; mByteRead := mByteRead m;
     mMessageDrop := d; mTxDemandSent := mTxDemandSent m;
     mMessagesFulfilled := mMessagesFulfilled m;
     mBannedMessageUnfulfilled := mBannedMessageUnfulfilled m;
     mUnknownMessageUnfulfilled := mUnknownMessageUnfulfilled m |}.

(** The members the send path writes: the flow controller, the send
    sequence number and the counter of shed messages. *)
Definition send_effect (fc : FlowControl.t) (seq dropped : Z) (p : Peer) : Peer :=
  set_mFlowControl fc
    (set_mSendMacSeq seq
       (set_mPeerMetrics (with_mMessageDrop dropped (mPeerMetrics p)) p)).

Definition only_send_state (p p' : Peer) : Prop :=
  p' = send_effect (mFlowControl p') (mSendMacSeq p') (mMessageDrop (mPeerMetrics p')) p.

(** [sends_only w w' head]: from [w] to [w'] only the send state changed,
    and the events added are [head] followed by marks and writes. *)
Record sends_only (w w' : World) (head : list Event) : Prop := {
  so_self : only_send_state (self w) (self w');
  so_draws : draws w' = draws w;
  so_events : exists tail, events w' = events w ++ head ++ tail /\ calls tail = []
}.

Definition is_exempt (m : HcnetMessage) : bool :=
  bool_decide (type_of m = HELLO) || bool_decide (type_of m = ERROR_MSG).

(** ** Counting over a demand *)

(** [n] increments of a 64-bit counter. *)
Definition bump (n : nat) (x : Z) : Z := Nat.iter n (fun v => wrap64 (v + 1)) x.

(** How the herder answers for one hash. *)
Definition has_tx (app : Application) (h : Hash) : bool :=
  bool_decide (is_Some (getTx app h)).

Definition is_banned_missing (app : Application) (h : Hash) : bool :=
  negb (has_tx app h) && isBannedTx app h.

Definition is_unknown_missing (app : Application) (h : Hash) : bool :=
  negb (has_tx app h) && negb (isBannedTx app h).

Definition count (f : Hash -> bool) (hs : list Hash) : nat :=
  length (List.filter f hs).

(** ** Frames *)

(** [keeps f c]: whenever [c] returns, the value of [f] on the object is
    what it was. *)
Definition keeps {A B : Type} (f : Peer -> A) (c : M B) : Prop :=
  forall w b w', c w = Some (b, w') -> f (self w') = f (self w).

(** ** Authentication of received messages *)

Definition auth_reject_reason (seqOk : bool) : string :=
  if seqOk then "unexpected MAC" else "unexpected auth sequence".

(** ** Handshake checks *)

Inductive HelloFailure : Set :=
| BadCert | BannedPeer | VersionMismatch | SelfConnect | WrongNetwork.

(** The first of the handshake checks that [elo] fails, in the order in
    which [recvHello] makes them. *)
Definition failed_check (app : Application) (elo : Hello) : option HelloFailure :=
  let cfg := getConfig app in
  if negb (verifyRemoteAuthCert app (peerID elo) (cert elo)) then Some BadCert
  else if isBanned app (peerID elo) then Some BannedPeer
  else if (overlayVersion elo <? overlayMinVersion elo)
          || (overlayVersion elo <? OVERLAY_PROTOCOL_MIN_VERSION cfg)
          || (OVERLAY_PROTOCOL_VERSION cfg <? overlayMinVersion elo)
  then Some VersionMismatch
  else if peerID elo =? NODE_SEED_getPublicKey cfg then Some SelfConnect
  else if negb (networkID elo =? getNetworkID app) then Some WrongNetwork
  else None.

Definition failure_reason (f : HelloFailure) : string :=
  match f with
  | BadCert => "failed to verify auth cert"
  | BannedPeer => "node is banned"
  | VersionMismatch => "wrong protocol version"
  | SelfConnect => "connecting to self"
  | WrongNetwork => "wrong network passphrase"
  end.

(** The HELLO this node sends. *)
Definition ourHello (app : Application) (p : Peer) : HcnetMessage :=
  let cfg := getConfig app in
  MsgHello {| ledgerVersion := LEDGER_PROTOCOL_VERSION cfg;
              overlayVersion := OVERLAY_PROTOCOL_VERSION cfg;
              overlayMinVersion := OVERLAY_PROTOCOL_MIN_VERSION cfg;
              networkID := getNetworkID app;
              versionStr := VERSION_STR cfg;
              listeningPort := PEER_PORT cfg;
              peerID := NODE_SEED_getPublicKey cfg;
              cert := getAuthCert app;
              nonce := mSendNonce p |}.

(** The outward calls [recvHello] must make for a failed check. *)
Definition rejection (app : Application) (p : Peer) (f : HelloFailure) : list Event :=
  match f with
  | BadCert | BannedPeer =>
      [EvDrop (failure_reason f) WE_DROPPED_REMOTE IGNORE_WRITE_QUEUE]
  | _ =>
      if decide (mRole p = REMOTE_CALLED_US)
      then [EvSend (ourHello app p);
            EvSend (MsgError ERR_CONF (failure_reason f));
            EvDrop (failure_reason f) WE_DROPPED_REMOTE FLUSH_WRITE_QUEUE]
      else [EvSend (MsgError ERR_CONF (failure_reason f));
            EvDrop (failure_reason f) WE_DROPPED_REMOTE IGNORE_WRITE_QUEUE]
  end.

(** The outward calls [recvHello] makes for a HELLO that fails the check
    [f], whatever the state of the session and whether or not the remote
    address is known. A HELLO that comes after one was accepted is dropped
    as unexpected before any check. The certificate and the ban list are
    checked before the remote address is looked up; a session whose remote
    address cannot be determined is dropped before the responder's HELLO
    and before the remaining checks. *)
Definition refusal (app : Application) (p : Peer) (f : HelloFailure) : list Event :=
  if state_value GOT_HELLO <=? state_value (mState p)
  then [EvDrop "received unexpected HELLO" WE_DROPPED_REMOTE IGNORE_WRITE_QUEUE]
  else
    match f with
    | BadCert | BannedPeer => rejection app p f
    | _ =>
        if decide (getIP app = "")
        then [EvDrop "failed to determine remote address" WE_DROPPED_REMOTE
                IGNORE_WRITE_QUEUE]
        else rejection app p f
    end.

(** ** Charging local capacity *)

(** The conditions [lockLocalCapacity] asserts: the capacity is within its
    limits and the total budget, where there is one, covers the message. *)
Definition lock_asserts (app : Application) (m : HcnetMessage) (c : Capacity.t) : Prop :=
  Capacity.mFloodCapacity (Capacity.mCapacity c)
    <= Capacity.mFloodCapacity (Capacity.getCapacityLimits app c)
  /\ match Capacity.mTotalCapacity (Capacity.getCapacityLimits app c),
           Capacity.mTotalCapacity (Capacity.mCapacity c) with
     | Some limit, Some total =>
         total <= limit /\ Capacity.getMsgResourceCount app c m <= total
     | None, None => True
     | _, _ => False
     end.

(** What a message costs in flood capacity on an axis. *)
Definition flood_cost (app : Application) (c : Capacity.t) (m : HcnetMessage) : Z :=
  if isFloodMessage m then Capacity.getMsgResourceCount app c m else 0.

Definition charge_total (app : Application) (m : HcnetMessage) (c : Capacity.t) : Capacity.t :=
  Capacity.set_mCapacity
    {| Capacity.mFloodCapacity := Capacity.mFloodCapacity (Capacity.mCapacity c);
       Capacity.mTotalCapacity :=
         option_map (fun total => total - Capacity.getMsgResourceCount app c m)
           (Capacity.mTotalCapacity (Capacity.mCapacity c)) |} c.

Definition charge_flood (app : Application) (m : HcnetMessage) (c : Capacity.t) : Capacity.t :=
  Capacity.set_mCapacity
    {| Capacity.mFloodCapacity :=
         Capacity.mFloodCapacity (Capacity.mCapacity c) - flood_cost app c m;
       Capacity.mTotalCapacity := Capacity.mTotalCapacity (Capacity.mCapacity c) |} c.

(** Whether the flood capacity of an axis is too small for [m]. *)
Definition short_of (app : Application) (m : HcnetMessage) (c : Capacity.t) : bool :=
  isFloodMessage m
  && (Capacity.mFloodCapacity (Capacity.mCapacity c) <? Capacity.getMsgResourceCount app c m).

(** ** Flood capacity *)

(** Whether some enabled axis is short of flood capacity for [m]. *)
Definition at_capacity (app : Application) (m : HcnetMessage) (fc : FlowControl.t) : bool :=
  short_of app m (FlowControl.mFlowControlCapacity fc)
  || match FlowControl.mFlowControlBytesCapacity fc with
     | Some b => short_of app m b
     | None => false
     end.

Definition floodCapacity (c : Capacity.t) : Z :=
  Capacity.mFloodCapacity (Capacity.mCapacity c).

(** ** Returning local capacity *)

(** [releaseLocalCapacity] in closed form: what a message gives back. *)
Definition refund (app : Application) (m : HcnetMessage) (c : Capacity.t) : Capacity.t :=
  let cost := Capacity.getMsgResourceCount app c m in
  Capacity.set_mCapacity
    {| Capacity.mFloodCapacity :=
         if isFloodMessage m
         then wrap64 (Capacity.mFloodCapacity (Capacity.mCapacity c) + cost)
         else Capacity.mFloodCapacity (Capacity.mCapacity c);
       Capacity.mTotalCapacity :=
         option_map (fun total => wrap64 (total + cost))
           (Capacity.mTotalCapacity (Capacity.mCapacity c)) |} c.

(** The conditions [releaseLocalCapacity] asserts once the capacity is
    back: it is within its limits. *)
Definition release_asserts (app : Application) (m : HcnetMessage) (c : Capacity.t) : Prop :=
  let c' := refund app m c in
  Capacity.mFloodCapacity (Capacity.mCapacity c')
    <= Capacity.mFloodCapacity (Capacity.getCapacityLimits app c)
  /\ match Capacity.mTotalCapacity (Capacity.getCapacityLimits app c),
           Capacity.mTotalCapacity (Capacity.mCapacity c') with
     | Some limit, Some total => total <= limit
     | None, None => True
     | _, _ => False
     end.

(** ** Message classes *)

(** The categories [recvMessage] drops while the ledger is out of sync. *)
Definition ignoreIfOutOfSync (m : HcnetMessage) : bool :=
  snd (categorize (type_of m)).

Definition is_handshake (m : HcnetMessage) : bool :=
  bool_decide (type_of m = HELLO) || bool_decide (type_of m = AUTH).

(** ** Timer checks *)

Definition idle (app : Application) (p : Peer) : bool :=
  (getIOTimeout app p <=? now app - mLastRead p)
  && (getIOTimeout app p <=? now app - mLastWrite p).

Definition flow_idle (app : Application) (p : Peer) : bool :=
  match FlowControl.getOutboundCapacityTimestamp (mFlowControl p) with
  | Some ts => seconds 60 <=? now app - ts
  | None => false
  end.

Definition straggling (app : Application) (p : Peer) : bool :=
  seconds (PEER_STRAGGLER_TIMEOUT (getConfig app)) <=? now app - mEnqueueTimeOfLastWrite p.

(** ** Advert history *)

Definition bounded (c : Cache.t) : Prop :=
  Z.of_nat (Cache.size c) <= Cache.mMaxSize c /\ 1 <= Cache.mMaxSize c.

(** What a session does to its advert history. *)
Inductive AdvertOp : Set :=
| OpRememberHash (hash : Hash) (ledgerSeq : Z)
| OpRecvFloodAdvert (txHashes : list Hash)
| OpClearBelow (ledgerSeq : Z).

Definition run_op (app : Application) (op : AdvertOp) : M unit :=
  match op with
  | OpRememberHash hash ledgerSeq => rememberHash app hash ledgerSeq
  | OpRecvFloodAdvert txHashes => recvFloodAdvert app txHashes
  | OpClearBelow ledgerSeq => clearBelow ledgerSeq
  end.

(** ** Sample sessions *)

(** A responder that has accepted the HELLO of node 2002. *)
Definition after_hello : World :=
  match run (recvMessage_HcnetMessage Sample.app (MsgHello (Sample.hello_from 2002)))
          Sample.fresh with
  | Some (_, w) => w
  | None => {| self := Sample.fresh; events := []; draws := 0 |}
  end.

(** The AUTH of node 2002, with the right sequence number and MAC and
    asking for byte flow control. *)
Definition auth_frame : AuthenticatedMessage :=
  {| sequence := 0;
     message := MsgAuth 200;
     mac := hmacSha256 Sample.app (mRecvMacKey (self after_hello))
              (xdr_to_opaque Sample.app 0 (MsgAuth 200)) |}.

(** The responder of [after_hello] once it has accepted that AUTH. *)
Definition after_auth : World :=
  match recvMessage Sample.app auth_frame after_hello with
  | Some (_, w) => w
  | None => after_hello
  end.

(** The responder of [after_auth] with a TRANSACTION in flight. *)
Definition in_flight : World :=
  match beginMessageProcessing Sample.app (MsgTransaction 7) after_auth with
  | Some (_, w) => w
  | None => after_auth
  end.

(** The capacities of the two axes: flood and total on the message axis,
    flood on the byte axis. *)
Definition capacities (w : World) : Z * option Z * option Z :=
  let fc := mFlowControl (self w) in
  (floodCapacity (FlowControl.mFlowControlCapacity fc),
   Capacity.mTotalCapacity (Capacity.mCapacity (FlowControl.mFlowControlCapacity fc)),
   option_map floodCapacity (FlowControl.mFlowControlBytesCapacity fc)).

(** The responder of [after_auth] once the peer has used up the flood
    capacity of the message axis. *)
Definition flood_spent : World :=
  let p := self after_auth in
  let fc := mFlowControl p in
  {| self :=
       set_mFlowControl
         (FlowControl.set_capacities
            (Capacity.set_mCapacity
               {| Capacity.mFloodCapacity := 0; Capacity.mTotalCapacity := Some 201 |}
               (FlowControl.mFlowControlCapacity fc))
            (FlowControl.mFlowControlBytesCapacity fc) fc) p;
     events := [];
     draws := 0 |}.

(** ** Outbound capacity over several messages *)

(** [lockOutboundCapacity] for the messages of [ms], in order. *)
Fixpoint lockOutboundAll (app : Application) (ms : list HcnetMessage) (c : Capacity.t)
  : option Capacity.t :=
  match ms with
  | [] => Some c
  | m :: rest =>
      let? c' := Capacity.lockOutboundCapacity app m c in
      lockOutboundAll app rest c'
  end.

(** What the flood messages of [ms] cost together on the axis of [c]. *)
Fixpoint outbound_cost (app : Application) (c : Capacity.t) (ms : list HcnetMessage) : Z :=
  match ms with
  | [] => 0
  | m :: rest => flood_cost app c m + outbound_cost app c rest
  end.

(** ** Received errors *)

(** The name [recvError] prints for an error code. *)
Definition codeStr (code : ErrorCode) : string :=
  match code with
  | ERR_MISC => "ERR_MISC"
  | ERR_DATA => "ERR_DATA"
  | ERR_CONF => "ERR_CONF"
  | ERR_AUTH => "ERR_AUTH"
  | ERR_LOAD => "ERR_LOAD"
  end.

(** The characters [recvError] lets through. *)
Definition is_plain (c : ascii) : bool := isalnum c || bool_decide (c = " "%char).

(** ** The state of the session *)

(** [settled c]: when [c] returns, the session is in the state it was in,
    or CLOSING. *)
Definition settled {B : Type} (c : M B) : Prop :=
  forall w b w',
    c w = Some (b, w') ->
    mState (self w') = mState (self w) \/ mState (self w') = CLOSING.

(** The changes of state that receiving [m] may cause. *)
Definition state_step (m : HcnetMessage) (s s' : PeerState) : Prop :=
  s' = s
  \/ s' = CLOSING
  \/ (type_of m = HELLO /\ state_value s < state_value GOT_HELLO /\ s' = GOT_HELLO)
  \/ (type_of m = AUTH /\ s = GOT_HELLO /\ s' = GOT_AUTH).

(** What reaches a session from its peer: a frame read off the
    connection, handed to [recvMessage], or a posted task that runs. *)
Inductive Input : Type :=
| FrameRead (amsg : AuthenticatedMessage)
| TaskRuns (m : HcnetMessage) (cat : string).

Definition deliver (app : Application) (i : Input) : M unit :=
  match i with
  | FrameRead amsg => recvMessage app amsg
  | TaskRuns m cat => runTask app (RecvMessageTask m cat)
  end.

Definition input_message (i : Input) : HcnetMessage :=
  match i with
  | FrameRead amsg => message amsg
  | TaskRuns m _ => m
  end.

(** ** Outward calls of a member function *)

(** [does c w w' cs]: run from [w], [c] returns in [w'], and the outward
    calls it made on the way (messages handed to [sendMessage], drops,
    posted tasks) are [cs], in order. *)
Definition does (c : M unit) (w w' : World) (cs : list Event) : Prop :=
  c w = Some (tt, w')
  /\ exists added, events w' = events w ++ added /\ calls added = cs.

(** The addresses [sendPeers] offers to the peer at [address], and the
    calls it makes for them. *)
Definition peersToSend (app : Application) (address : PeerBareAddress)
  : list PeerBareAddress :=
  getPeersToSend app (Z.min 50 (PEERS_MAX_SIZE app)) address.

Definition peers_calls (app : Application) (address : PeerBareAddress) : list Event :=
  match peersToSend app address with
  | [] => []
  | peers => [EvSend (MsgPeers (map (toXdr app) peers))]
  end.

(** The AUTH this node sends. *)
Definition ourAuth (app : Application) : HcnetMessage :=
  MsgAuth (if ENABLE_FLOW_CONTROL_BYTES (getConfig app)
           then AUTH_MSG_FLAG_FLOW_CONTROL_BYTES_REQUESTED app
           else 0).

(** ** A HELLO that passes *)

(** Whether another session, authenticated or pending, already holds the
    node identity [id]; [this_] is the session asking. *)
Definition already_connected (app : Application) (this_ : Z) (id : NodeID) : bool :=
  match getAuthenticatedPeers app !! id with
  | Some other => negb (other =? this_)
  | None => false
  end
  || existsb (fun '(other, otherID) => negb (other =? this_) && (otherID =? id))
       (getPendingPeers app).

(** What a session has recorded of a HELLO it accepted. *)
Definition hello_recorded (app : Application) (elo : Hello) (p p' : Peer) : Prop :=
  mState p' = GOT_HELLO
  /\ mPeerID p' = peerID elo
  /\ mRemoteVersion p' = versionStr elo
  /\ mRemoteOverlayVersion p' = overlayVersion elo
  /\ mRemoteOverlayMinVersion p' = overlayMinVersion elo
  /\ mRecvNonce p' = nonce elo
  /\ mRecvMacSeq p' = 0
  /\ mSendMacKey p' =
       getSendingMacKey app (cert_pubkey (cert elo)) (mSendNonce p) (nonce elo) (mRole p)
  /\ mRecvMacKey p' =
       getReceivingMacKey app (cert_pubkey (cert elo)) (mSendNonce p) (nonce elo) (mRole p)
  /\ mAddress p' = IPv4Address (getIP app) (to_unsigned_short (listeningPort elo)).

(** [recvHello] in two parts. What it writes into the session once the
    certificate is verified and the identity is not banned: *)
Definition hello_record (app : Application) (elo : Hello) (p : Peer) : Peer :=
  let p := set_mRemoteOverlayMinVersion (overlayMinVersion elo) p in
  let p := set_mRemoteOverlayVersion (overlayVersion elo) p in
  let p := set_mRemoteVersion (versionStr elo) p in
  let p := set_mPeerID (peerID elo) p in
  let p := set_mRecvNonce (nonce elo) p in
  let p := set_mSendMacSeq 0 p in
  let p := set_mRecvMacSeq 0 p in
  let p := set_mSendMacKey
             (getSendingMacKey app (cert_pubkey (cert elo)) (mSendNonce p)
                (mRecvNonce p) (mRole p)) p in
  let p := set_mRecvMacKey
             (getReceivingMacKey app (cert_pubkey (cert elo)) (mSendNonce p)
                (mRecvNonce p) (mRole p)) p in
  let p := set_mState GOT_HELLO p in
  set_mAddress (IPv4Address (getIP app) (to_unsigned_short (listeningPort elo))) p.

(** what it decides from there, [p] being the session as it is then: *)
Definition recvHello_verdict (app : Application) (elo : Hello) (role : PeerRole)
    (dropMode : DropMode) (p : Peer) : M unit :=
  let ip := getIP app in
  let cfg := getConfig app in
  if (mRemoteOverlayVersion p <? mRemoteOverlayMinVersion p)
     || (mRemoteOverlayVersion p <? OVERLAY_PROTOCOL_MIN_VERSION cfg)
     || (OVERLAY_PROTOCOL_VERSION cfg <? mRemoteOverlayMinVersion p)
  then sendErrorAndDrop app ERR_CONF "wrong protocol version" dropMode
  else if peerID elo =? NODE_SEED_getPublicKey cfg
  then sendErrorAndDrop app ERR_CONF "connecting to self" dropMode
  else if negb (networkID elo =? getNetworkID app)
  then sendErrorAndDrop app ERR_CONF "wrong network passphrase" dropMode
  else if (listeningPort elo <=? 0) || (UINT16_MAX <? listeningPort elo)
          || bool_decide (ip = "")
  then sendErrorAndDrop app ERR_CONF "bad address" IGNORE_WRITE_QUEUE
  else
    updatePeerRecordAfterEcho app ;;
    let alreadyConnected :=
      sendErrorAndDrop app ERR_CONF
        ("already-connected peer: " +:+ toShortString app (mPeerID p)) dropMode in
    if match getAuthenticatedPeers app !! mPeerID p with
       | Some other => negb (other =? this p)
       | None => false
       end
    then alreadyConnected
    else if existsb (fun '(other, otherID) =>
                       negb (other =? this p) && (otherID =? mPeerID p))
              (getPendingPeers app)
    then alreadyConnected
    else if decide (role = WE_CALLED_REMOTE)
    then sendAuth app
    else skip.

(** and how it gets there, when the remote address is known: the
    responder answers the HELLO first. *)
Definition recvHello_late (app : Application) (elo : Hello) : M unit :=
  let* role := get mRole in
  let* dropMode :=
    if decide (role = REMOTE_CALLED_US)
    then sendHello app ;; ret FLUSH_WRITE_QUEUE
    else ret IGNORE_WRITE_QUEUE in
  let* p := get id in
  recvHello_verdict app elo role dropMode p.

(** ** Addresses learnt from a peer *)

(** What holds of an address that [recvPeers] passes on, [own] being the
    address of the peer that sent it. *)
Definition acceptable_peer (app : Application) (own : PeerBareAddress) (peer : PeerAddress)
  : Prop :=
  pa_type peer = IPv4
  /\ pa_port peer <> 0 /\ pa_port peer <= UINT16_MAX
  /\ isPrivate app (fromXdr app peer) = false
  /\ (forall ip port,
        own = IPv4Address ip port ->
        fromXdr app peer <> IPv4Address ip (PEER_PORT (getConfig app)))
  /\ (isLocalhost app (fromXdr app peer) = true ->
      ALLOW_LOCALHOST_FOR_TESTING (getConfig app) = true).

Definition ensureExists (app : Application) (peer : PeerAddress) : Event :=
  EvCall (PeerManager_ensureExists (fromXdr app peer)).

(** ** Frames on the wire *)

(** [well_sequenced app key s frames s']: [frames] is a run of frames as
    the sender must produce it when its send sequence stands at [s] and its
    key is [key]: a HELLO or an ERROR_MSG goes with sequence 0 and a zero
    MAC and leaves the sequence alone, any other message carries the
    current sequence number and the MAC of that number and the message, and
    moves the sequence on by one. [s'] is where the sequence stands after
    the run. *)
Inductive well_sequenced (app : Application) (key : HmacSha256Key)
  : Z -> list AuthenticatedMessage -> Z -> Prop :=
| ws_nil s : well_sequenced app key s [] s
| ws_exempt s m frames s' :
    is_exempt m = true ->
    well_sequenced app key s frames s' ->
    well_sequenced app key s ({| sequence := 0; message := m; mac := 0 |} :: frames) s'
| ws_authenticated s m frames s' :
    is_exempt m = false ->
    well_sequenced app key (wrap64 (s + 1)) frames s' ->
    well_sequenced app key s
      ({| sequence := s; message := m;
          mac := hmacSha256 app key (xdr_to_opaque app s m) |} :: frames) s'.

(** What a run of the send path leaves: the frames it wrote are well
    sequenced from where the sequence stood, and the key is the same. *)
Definition sequenced_run (app : Application) (w w' : World) : Prop :=
  exists frames,
    written (events w') = written (events w) ++ frames
    /\ well_sequenced app (mSendMacKey (self w)) (mSendMacSeq (self w)) frames
         (mSendMacSeq (self w'))
    /\ mSendMacKey (self w') = mSendMacKey (self w).

(** ** The life of an advert batch *)

(** What happens to the batch of a session: a hash is queued, or the
    flush timer runs to its deadline. *)
Inductive AdvertStep : Set :=
| HashQueued (txHash : Hash)
| TimerExpires.

Definition advert_step (app : Application) (s : AdvertStep) : M unit :=
  match s with
  | HashQueued txHash => queueTxHashToAdvertise app txHash
  | TimerExpires => advertTimerExpired false
  end.

(** The hashes queued by [steps], in order. *)
Definition queued (steps : list AdvertStep) : list Hash :=
  omap (fun s => match s with HashQueued h => Some h | TimerExpires => None end) steps.

(** The adverts posted among [evs], each the list of its hashes. *)
Definition adverts (evs : list Event) : list (list Hash) :=
  omap (fun e =>
          match e with
          | EvPost (SendMessageTask (MsgFloodAdvert hashes)) _ _ => Some hashes
          | _ => None
          end) evs.

(** ** Variants of a node *)

(** [app] with one of its collaborators answering differently. *)
Definition with_acceptAuthenticatedPeer (v : NodeID -> bool) (app : Application) : Application :=
  {| getConfig := getConfig app; getNetworkID := getNetworkID app; now := now app;
     currentSchedulerActionType := currentSchedulerActionType app;
     isShuttingDown := isShuttingDown app; getMaxAdvertSize := getMaxAdvertSize app;
     getFlowControlBytesConfig_mTotal := getFlowControlBytesConfig_mTotal app;
     acceptAuthenticatedPeer := v; isPreferred := isPreferred app;
     getAuthenticatedPeers := getAuthenticatedPeers app;
     getPendingPeers := getPendingPeers app; getPeersToSend := getPeersToSend app;
     verifyRemoteAuthCert := verifyRemoteAuthCert app; getAuthCert := getAuthCert app;
     getSendingMacKey := getSendingMacKey app; getReceivingMacKey := getReceivingMacKey app;
     isBanned := isBanned app; isSynced := isSynced app;
     getLastClosedLedgerHeader_ledgerVersion := getLastClosedLedgerHeader_ledgerVersion app;
     getTx := getTx app; isBannedTx := isBannedTx app; getTxSet := getTxSet app;
     getQSet := getQSet app; herder_recvTransaction := herder_recvTransaction app;
     herder_recvSCPEnvelope := herder_recvSCPEnvelope app;
     trackingConsensusLedgerIndex := trackingConsensusLedgerIndex app;
     getMinLedgerSeqToAskPeers := getMinLedgerSeqToAskPeers app;
     hmacSha256 := hmacSha256 app; hmacSha256Verify := hmacSha256Verify app;
     xdr_to_opaque := xdr_to_opaque app; xdr_size := xdr_size app;
     xdrSha256 := xdrSha256 app; shortHash_of_time := shortHash_of_time app;
     makeTransactionFromWire := makeTransactionFromWire app;
     toShortString := toShortString app; format_MessageType := format_MessageType app;
     toXdr := toXdr app; fromXdr := fromXdr app; isPrivate := isPrivate app;
     isLocalhost := isLocalhost app; rand_uniform := rand_uniform app;
     AUTH_MSG_FLAG_FLOW_CONTROL_BYTES_REQUESTED := AUTH_MSG_FLAG_FLOW_CONTROL_BYTES_REQUESTED app;
     TX_ADVERT_VECTOR_MAX_SIZE := TX_ADVERT_VECTOR_MAX_SIZE app;
     PEERS_MAX_SIZE := PEERS_MAX_SIZE app;
     SOROBAN_PROTOCOL_VERSION := SOROBAN_PROTOCOL_VERSION app; getIP := getIP app;
     sendQueueIsOverloaded := sendQueueIsOverloaded app |}.

Definition with_getPendingPeers (v : list (Z * NodeID)) (app : Application) : Application :=
  {| getConfig := getConfig app; getNetworkID := getNetworkID app; now := now app;
     currentSchedulerActionType := currentSchedulerActionType app;
     isShuttingDown := isShuttingDown app; getMaxAdvertSize := getMaxAdvertSize app;
     getFlowControlBytesConfig_mTotal := getFlowControlBytesConfig_mTotal app;
     acceptAuthenticatedPeer := acceptAuthenticatedPeer app; isPreferred := isPreferred app;
     getAuthenticatedPeers := getAuthenticatedPeers app; getPendingPeers := v;
     getPeersToSend := getPeersToSend app; verifyRemoteAuthCert := verifyRemoteAuthCert app;
     getAuthCert := getAuthCert app; getSendingMacKey := getSendingMacKey app;
     getReceivingMacKey := getReceivingMacKey app; isBanned := isBanned app;
     isSynced := isSynced app;
     getLastClosedLedgerHeader_ledgerVersion := getLastClosedLedgerHeader_ledgerVersion app;
     getTx := getTx app; isBannedTx := isBannedTx app; getTxSet := getTxSet app;
     getQSet := getQSet app; herder_recvTransaction := herder_recvTransaction app;
     herder_recvSCPEnvelope := herder_recvSCPEnvelope app;
     trackingConsensusLedgerIndex := trackingConsensusLedgerIndex app;
     getMinLedgerSeqToAskPeers := getMinLedgerSeqToAskPeers app;
     hmacSha256 := hmacSha256 app; hmacSha256Verify := hmacSha256Verify app;
     xdr_to_opaque := xdr_to_opaque app; xdr_size := xdr_size app;
     xdrSha256 := xdrSha256 app; shortHash_of_time := shortHash_of_time app;
     makeTransactionFromWire := makeTransactionFromWire app;
     toShortString := toShortString app; format_MessageType := format_MessageType app;
     toXdr := toXdr app; fromXdr := fromXdr app; isPrivate := isPrivate app;
     isLocalhost := isLocalhost app; rand_uniform := rand_uniform app;
     AUTH_MSG_FLAG_FLOW_CONTROL_BYTES_REQUESTED := AUTH_MSG_FLAG_FLOW_CONTROL_BYTES_REQUESTED app;
     TX_ADVERT_VECTOR_MAX_SIZE := TX_ADVERT_VECTOR_MAX_SIZE app;
     PEERS_MAX_SIZE := PEERS_MAX_SIZE app;
     SOROBAN_PROTOCOL_VERSION := SOROBAN_PROTOCOL_VERSION app; getIP := getIP app;
     sendQueueIsOverloaded := sendQueueIsOverloaded app |}.

Definition with_getIP (v : string) (app : Application) : Application :=
  {| getConfig := getConfig app; getNetworkID := getNetworkID app; now := now app;
     currentSchedulerActionType := currentSchedulerActionType app;
     isShuttingDown := isShuttingDown app; getMaxAdvertSize := getMaxAdvertSize app;
     getFlowControlBytesConfig_mTotal := getFlowControlBytesConfig_mTotal app;
     acceptAuthenticatedPeer := acceptAuthenticatedPeer app; isPreferred := isPreferred app;
     getAuthenticatedPeers := getAuthenticatedPeers app;
     getPendingPeers := getPendingPeers app; getPeersToSend := getPeersToSend app;
     verifyRemoteAuthCert := verifyRemoteAuthCert app; getAuthCert := getAuthCert app;
     getSendingMacKey := getSendingMacKey app; getReceivingMacKey := getReceivingMacKey app;
     isBanned := isBanned app; isSynced := isSynced app;
     getLastClosedLedgerHeader_ledgerVersion := getLastClosedLedgerHeader_ledgerVersion app;
     getTx := getTx app; isBannedTx := isBannedTx app; getTxSet := getTxSet app;
     getQSet := getQSet app; herder_recvTransaction := herder_recvTransaction app;
     herder_recvSCPEnvelope := herder_recvSCPEnvelope app;
     trackingConsensusLedgerIndex := trackingConsensusLedgerIndex app;
     getMinLedgerSeqToAskPeers := getMinLedgerSeqToAskPeers app;
     hmacSha256 := hmacSha256 app; hmacSha256Verify := hmacSha256Verify app;
     xdr_to_opaque := xdr_to_opaque app; xdr_size := xdr_size app;
     xdrSha256 := xdrSha256 app; shortHash_of_time := shortHash_of_time app;
     makeTransactionFromWire := makeTransactionFromWire app;
     toShortString := toShortString app; format_MessageType := format_MessageType app;
     toXdr := toXdr app; fromXdr := fromXdr app; isPrivate := isPrivate app;
     isLocalhost := isLocalhost app; rand_uniform := rand_uniform app;
     AUTH_MSG_FLAG_FLOW_CONTROL_BYTES_REQUESTED := AUTH_MSG_FLAG_FLOW_CONTROL_BYTES_REQUESTED app;
     TX_ADVERT_VECTOR_MAX_SIZE := TX_ADVERT_VECTOR_MAX_SIZE app;
     PEERS_MAX_SIZE := PEERS_MAX_SIZE app;
     SOROBAN_PROTOCOL_VERSION := SOROBAN_PROTOCOL_VERSION app; getIP := v;
     sendQueueIsOverloaded := sendQueueIsOverloaded app |}.

Definition with_currentSchedulerActionType (v : ActionType) (app : Application) : Application :=
  {| getConfig := getConfig app; getNetworkID := getNetworkID app; now := now app;
     currentSchedulerActionType := v; isShuttingDown := isShuttingDown app;
     getMaxAdvertSize := getMaxAdvertSize app;
     getFlowControlBytesConfig_mTotal := getFlowControlBytesConfig_mTotal app;
     acceptAuthenticatedPeer := acceptAuthenticatedPeer app; isPreferred := isPreferred app;
     getAuthenticatedPeers := getAuthenticatedPeers app;
     getPendingPeers := getPendingPeers app; getPeersToSend := getPeersToSend app;
     verifyRemoteAuthCert := verifyRemoteAuthCert app; getAuthCert := getAuthCert app;
     getSendingMacKey := getSendingMacKey app; getReceivingMacKey := getReceivingMacKey app;
     isBanned := isBanned app; isSynced := isSynced app;
     getLastClosedLedgerHeader_ledgerVersion := getLastClosedLedgerHeader_ledgerVersion app;
     getTx := getTx app; isBannedTx := isBannedTx app; getTxSet := getTxSet app;
     getQSet := getQSet app; herder_recvTransaction := herder_recvTransaction app;
     herder_recvSCPEnvelope := herder_recvSCPEnvelope app;
     trackingConsensusLedgerIndex := trackingConsensusLedgerIndex app;
     getMinLedgerSeqToAskPeers := getMinLedgerSeqToAskPeers app;
     hmacSha256 := hmacSha256 app; hmacSha256Verify := hmacSha256Verify app;
     xdr_to_opaque := xdr_to_opaque app; xdr_size := xdr_size app;
     xdrSha256 := xdrSha256 app; shortHash_of_time := shortHash_of_time app;
     makeTransactionFromWire := makeTransactionFromWire app;
     toShortString := toShortString app; format_MessageType := format_MessageType app;
     toXdr := toXdr app; fromXdr := fromXdr app; isPrivate := isPrivate app;
     isLocalhost := isLocalhost app; rand_uniform := rand_uniform app;
     AUTH_MSG_FLAG_FLOW_CONTROL_BYTES_REQUESTED := AUTH_MSG_FLAG_FLOW_CONTROL_BYTES_REQUESTED app;
     TX_ADVERT_VECTOR_MAX_SIZE := TX_ADVERT_VECTOR_MAX_SIZE app;
     PEERS_MAX_SIZE := PEERS_MAX_SIZE app;
     SOROBAN_PROTOCOL_VERSION := SOROBAN_PROTOCOL_VERSION app; getIP := getIP app;
     sendQueueIsOverloaded := sendQueueIsOverloaded app |}.

Definition with_getTxSet (v : Hash -> option HcnetMessage) (app : Application) : Application :=
  {| getConfig := getConfig app; getNetworkID := getNetworkID app; now := now app;
     currentSchedulerActionType := currentSchedulerActionType app;
     isShuttingDown := isShuttingDown app; getMaxAdvertSize := getMaxAdvertSize app;
     getFlowControlBytesConfig_mTotal := getFlowControlBytesConfig_mTotal app;
     acceptAuthenticatedPeer := acceptAuthenticatedPeer app; isPreferred := isPreferred app;
     getAuthenticatedPeers := getAuthenticatedPeers app;
     getPendingPeers := getPendingPeers app; getPeersToSend := getPeersToSend app;
     verifyRemoteAuthCert := verifyRemoteAuthCert app; getAuthCert := getAuthCert app;
     getSendingMacKey := getSendingMacKey app; getReceivingMacKey := getReceivingMacKey app;
     isBanned := isBanned app; isSynced := isSynced app;
     getLastClosedLedgerHeader_ledgerVersion := getLastClosedLedgerHeader_ledgerVersion app;
     getTx := getTx app; isBannedTx := isBannedTx app; getTxSet := v;
     getQSet := getQSet app; herder_recvTransaction := herder_recvTransaction app;
     herder_recvSCPEnvelope := herder_recvSCPEnvelope app;
     trackingConsensusLedgerIndex := trackingConsensusLedgerIndex app;
     getMinLedgerSeqToAskPeers := getMinLedgerSeqToAskPeers app;
     hmacSha256 := hmacSha256 app; hmacSha256Verify := hmacSha256Verify app;
     xdr_to_opaque := xdr_to_opaque app; xdr_size := xdr_size app;
     xdrSha256 := xdrSha256 app; shortHash_of_time := shortHash_of_time app;
     makeTransactionFromWire := makeTransactionFromWire app;
     toShortString := toShortString app; format_MessageType := format_MessageType app;
     toXdr := toXdr app; fromXdr := fromXdr app; isPrivate := isPrivate app;
     isLocalhost := isLocalhost app; rand_uniform := rand_uniform app;
     AUTH_MSG_FLAG_FLOW_CONTROL_BYTES_REQUESTED := AUTH_MSG_FLAG_FLOW_CONTROL_BYTES_REQUESTED app;
     TX_ADVERT_VECTOR_MAX_SIZE := TX_ADVERT_VECTOR_MAX_SIZE app;
     PEERS_MAX_SIZE := PEERS_MAX_SIZE app;
     SOROBAN_PROTOCOL_VERSION := SOROBAN_PROTOCOL_VERSION app; getIP := getIP app;
     sendQueueIsOverloaded := sendQueueIsOverloaded app |}.

Definition with_sendQueueIsOverloaded (v : list AuthenticatedMessage -> bool) (app : Application) : Application :=
  {| getConfig := getConfig app; getNetworkID := getNetworkID app; now := now app;
     currentSchedulerActionType := currentSchedulerActionType app;
     isShuttingDown := isShuttingDown app; getMaxAdvertSize := getMaxAdvertSize app;
     getFlowControlBytesConfig_mTotal := getFlowControlBytesConfig_mTotal app;
     acceptAuthenticatedPeer := acceptAuthenticatedPeer app; isPreferred := isPreferred app;
     getAuthenticatedPeers := getAuthenticatedPeers app;
     getPendingPeers := getPendingPeers app; getPeersToSend := getPeersToSend app;
     verifyRemoteAuthCert := verifyRemoteAuthCert app; getAuthCert := getAuthCert app;
     getSendingMacKey := getSendingMacKey app; getReceivingMacKey := getReceivingMacKey app;
     isBanned := isBanned app; isSynced := isSynced app;
     getLastClosedLedgerHeader_ledgerVersion := getLastClosedLedgerHeader_ledgerVersion app;
     getTx := getTx app; isBannedTx := isBannedTx app; getTxSet := getTxSet app;
     getQSet := getQSet app; herder_recvTransaction := herder_recvTransaction app;
     herder_recvSCPEnvelope := herder_recvSCPEnvelope app;
     trackingConsensusLedgerIndex := trackingConsensusLedgerIndex app;
     getMinLedgerSeqToAskPeers := getMinLedgerSeqToAskPeers app;
     hmacSha256 := hmacSha256 app; hmacSha256Verify := hmacSha256Verify app;
     xdr_to_opaque := xdr_to_opaque app; xdr_size := xdr_size app;
     xdrSha256 := xdrSha256 app; shortHash_of_time := shortHash_of_time app;
     makeTransactionFromWire := makeTransactionFromWire app;
     toShortString := toShortString app; format_MessageType := format_MessageType app;
     toXdr := toXdr app; fromXdr := fromXdr app; isPrivate := isPrivate app;
     isLocalhost := isLocalhost app; rand_uniform := rand_uniform app;
     AUTH_MSG_FLAG_FLOW_CONTROL_BYTES_REQUESTED := AUTH_MSG_FLAG_FLOW_CONTROL_BYTES_REQUESTED app;
     TX_ADVERT_VECTOR_MAX_SIZE := TX_ADVERT_VECTOR_MAX_SIZE app;
     PEERS_MAX_SIZE := PEERS_MAX_SIZE app;
     SOROBAN_PROTOCOL_VERSION := SOROBAN_PROTOCOL_VERSION app; getIP := getIP app;
     sendQueueIsOverloaded := v |}.

(** ** Load shedding *)

(** The test that opens [sendMessage]: the caller runs as a droppable
    action and the write queue is overloaded. *)
Definition sheds (app : Application) (w : World) : bool :=
  bool_decide (currentSchedulerActionType app = DROPPABLE_ACTION)
  && sendQueueIsOverloaded app (written (events w)).

(** [discarded w w']: the message handed to [sendMessage] in [w] was shed.
    No frame was written, the flow controller holds what it held, the send
    sequence stands where it stood, and the session counts one more
    dropped message. *)
Definition discarded (w w' : World) : Prop :=
  written (events w') = written (events w)
  /\ mFlowControl (self w') = mFlowControl (self w)
  /\ mSendMacSeq (self w') = mSendMacSeq (self w)
  /\ mMessageDrop (mPeerMetrics (self w'))
     = wrap64 (mMessageDrop (mPeerMetrics (self w)) + 1).

(** The frame [sendAuthenticatedMessage] writes for [m] on the session
    [p]. *)
Definition frame_of (app : Application) (p : Peer) (m : HcnetMessage)
  : AuthenticatedMessage :=
  if is_exempt m
  then {| sequence := 0; message := m; mac := 0 |}
  else {| sequence := mSendMacSeq p;
          message := m;
          mac := hmacSha256 app (mSendMacKey p) (xdr_to_opaque app (mSendMacSeq p) m) |}.

(** [written_at_once app m w w']: [m] went past the flow controller and
    was written as one frame, with the send sequence number of [w] when it
    is authenticated; the write moved the sequence on by one. *)
Definition written_at_once (app : Application) (m : HcnetMessage) (w w' : World) : Prop :=
  written (events w') = written (events w) ++ [frame_of app (self w) m]
  /\ mFlowControl (self w') = mFlowControl (self w)
  /\ mSendMacSeq (self w')
     = (if is_exempt m then mSendMacSeq (self w) else wrap64 (mSendMacSeq (self w) + 1))
  /\ mMessageDrop (mPeerMetrics (self w')) = mMessageDrop (mPeerMetrics (self w)).

(** [enqueued app m w w']: the flow controller took [m]:
    [maybeSendMessage] returned true, the controller of [w'] is the one it
    left, and the frames written are the messages it released, in order
    and well sequenced. [m] joined the outbound queue behind the messages
    that waited there; what was released came from the head of that queue,
    so that [m] was written or still waits. No message was shed. *)
Definition enqueued (app : Application) (m : HcnetMessage) (w w' : World) : Prop :=
  exists released frames,
    FlowControl.maybeSendMessage app m (mFlowControl (self w))
    = Some (true, mFlowControl (self w'), released)
    /\ released ++ FlowControl.mOutboundQueue (mFlowControl (self w'))
       = FlowControl.mOutboundQueue (mFlowControl (self w)) ++ [m]
    /\ written (events w') = written (events w) ++ frames
    /\ map message frames = released
    /\ well_sequenced app (mSendMacKey (self w)) (mSendMacSeq (self w)) frames
         (mSendMacSeq (self w'))
    /\ mMessageDrop (mPeerMetrics (self w')) = mMessageDrop (mPeerMetrics (self w)).

(** What becomes of a message [m] handed to [sendMessage] in [w]. *)
Definition handed_over (app : Application) (m : HcnetMessage) (w w' : World) : Prop :=
  if sheds app w then discarded w w'
  else if isFloodMessage m then enqueued app m w w'
  else written_at_once app m w w'.

(** ** Answering a demand *)

(** What [fulfillDemand] does for the hash [h], from the world [w] in
    which it takes up the hash to the world [w'] in which it is done with
    it. A transaction the herder has is counted as fulfilled and handed to
    [sendMessage], which sheds it under load and otherwise leaves it to
    the flow controller; for any other hash one of the two unfulfilled
    counters moves and nothing is written or queued. *)
Definition demand_answer (app : Application) (h : Hash) (w w' : World) : Prop :=
  let pm := mPeerMetrics (self w) in
  let pm' := mPeerMetrics (self w') in
  (exists added,
     events w' = events w ++ added
     /\ calls added = match getTx app h with
                      | Some tx => [EvSend (MsgTransaction tx)]
                      | None => []
                      end)
  /\ match getTx app h with
     | Some tx =>
         mMessagesFulfilled pm' = wrap64 (mMessagesFulfilled pm + 1)
         /\ mBannedMessageUnfulfilled pm' = mBannedMessageUnfulfilled pm
         /\ mUnknownMessageUnfulfilled pm' = mUnknownMessageUnfulfilled pm
         /\ if sheds app w
            then discarded w w'
            else enqueued app (MsgTransaction tx) w w'
     | None =>
         mMessagesFulfilled pm' = mMessagesFulfilled pm
         /\ (if isBannedTx app h
             then mBannedMessageUnfulfilled pm' = wrap64 (mBannedMessageUnfulfilled pm + 1)
                  /\ mUnknownMessageUnfulfilled pm' = mUnknownMessageUnfulfilled pm
             else mBannedMessageUnfulfilled pm' = mBannedMessageUnfulfilled pm
                  /\ mUnknownMessageUnfulfilled pm'
                     = wrap64 (mUnknownMessageUnfulfilled pm + 1))
         /\ written (events w') = written (events w)
         /\ mFlowControl (self w') = mFlowControl (self w)
         /\ mSendMacSeq (self w') = mSendMacSeq (self w)
         /\ mMessageDrop pm' = mMessageDrop pm
     end.

(** The hashes of a demand, answered one after the other. *)
Fixpoint demand_answers (app : Application) (hashes : list Hash) (w w' : World) : Prop :=
  match hashes with
  | [] => w' = w
  | h :: rest => exists w1, demand_answer app h w w1 /\ demand_answers app rest w1 w'
  end.

(** The sample node when the caller runs as a droppable action and the
    write queue is overloaded. *)
Definition overloaded_app : Application :=
  with_currentSchedulerActionType DROPPABLE_ACTION
    (with_sendQueueIsOverloaded (fun _ => true) Sample.app).

(** ** Requests for sets *)

(** The answer to a GET_SCP_QUORUMSET for [hash]. *)
Definition quorum_set_reply (app : Application) (hash : uint256) : HcnetMessage :=
  match getQSet app hash with
  | Some qset => MsgSCPQuorumSet qset
  | None => MsgDontHave SCP_QUORUMSET hash
  end.

(** The answer to a GET_TX_SET for [hash]. *)
Definition tx_set_reply (app : Application) (hash : uint256) : HcnetMessage :=
  match getTxSet app hash with
  | Some txSet => txSet
  | None =>
      MsgDontHave
        (if getLastClosedLedgerHeader_ledgerVersion app <? SOROBAN_PROTOCOL_VERSION app
         then TX_SET else GENERALIZED_TX_SET) hash
  end.

(** [recvGetTxSet] builds a TX_SET or a GENERALIZED_TX_SET from the set of
    the herder. *)
Definition tx_set_in_wire_form (app : Application) (hash : uint256) : Prop :=
  forall txSet,
    getTxSet app hash = Some txSet ->
    type_of txSet = TX_SET \/ type_of txSet = GENERALIZED_TX_SET.

(** The sample node with transaction set 5 known under hash 90. *)
Definition app_with_tx_set : Application :=
  with_getTxSet (fun h => if h =? 90 then Some (MsgTxSet 5) else None) Sample.app.

(** * Theorems *)

(** * Properties *)

(** ** Reasoning about member functions *)

(** Member functions are unfolded by name only. *)
#[local] Arguments FlowControl.maybeSendMessage : simpl never.
#[local] Arguments FlowControl.beginMessageProcessing : simpl never.
#[local] Arguments FlowControl.endMessageProcessing : simpl never.
#[local] Arguments FlowControl.canRead : simpl never.
#[local] Arguments FlowControl.start : simpl never.
#[local] Arguments Capacity.lockLocalCapacity : simpl never.
#[local] Arguments Capacity.releaseLocalCapacity : simpl never.
#[local] Arguments sendMessage : simpl never.
#[local] Arguments recvRawMessage : simpl never.
#[local] Arguments recvHello : simpl never.
#[local] Arguments recvAuth : simpl never.
#[local] Arguments recvError : simpl never.
#[local] Arguments drop : simpl never.
#[local] Arguments shutdown : simpl never.
#[local] Arguments sendErrorAndDrop : simpl never.
#[local] Arguments beginMessageProcessing : simpl never.
#[local] Arguments endMessageProcessing : simpl never.
#[local] Arguments MsgCapacityTracker_new : simpl never.
#[local] Arguments MsgCapacityTracker_delete : simpl never.
#[local] Arguments recvMessage_HcnetMessage : simpl never.
#[local] Arguments startRecurrentTimer : simpl never.
#[local] Arguments flushAdvert : simpl never.
#[local] Arguments startAdvertTimer : simpl never.
#[local] Arguments sendAuthenticatedMessage : simpl never.
#[local] Arguments for_each : simpl nomatch.
#[local] Arguments wrap64 : simpl never.
#[local] Arguments seconds : simpl never.

Ltac unfold_monad :=
  unfold bind, ret, get, modify, emit, skip, lift, releaseAssert, draw in *.

Lemma calls_app a b : calls (a ++ b) = calls a ++ calls b.
Proof. apply List.filter_app. Qed.

(** *** The flow controller never aborts a send *)

Lemma lockOutboundCapacity_enough app m c :
  Capacity.hasOutboundCapacity app c m = true ->
  is_Some (Capacity.lockOutboundCapacity app m c).
Proof.
  intros H. unfold Capacity.lockOutboundCapacity.
  destruct (isFloodMessage m); [rewrite H|]; simpl; eauto.
Qed.

Lemma maybeSendNextBatch_total app queue :
  forall msgs bytes, is_Some (FlowControl.maybeSendNextBatch app queue msgs bytes).
Proof.
  induction queue as [|m rest IH]; intros msgs bytes; simpl; [eauto|].
  destruct (Capacity.hasOutboundCapacity app msgs m) eqn:Hm; simpl; [|eauto].
  destruct bytes as [b|]; simpl.
  - destruct (Capacity.hasOutboundCapacity app b m) eqn:Hb; [|eauto].
    destruct (lockOutboundCapacity_enough _ _ _ Hm) as [msgs' ->].
    destruct (lockOutboundCapacity_enough _ _ _ Hb) as [b' ->]. simpl.
    destruct (IH msgs' (Some b')) as [[[[q a] c] d] ->]. simpl. eauto.
  - destruct (lockOutboundCapacity_enough _ _ _ Hm) as [msgs' ->]. simpl.
    destruct (IH msgs' None) as [[[[q a] c] d] ->]. simpl. eauto.
Qed.

Lemma maybeSendMessage_total app m fc :
  exists fc' released,
    FlowControl.maybeSendMessage app m fc = Some (isFloodMessage m, fc', released)
    /\ (isFloodMessage m = false -> fc' = fc /\ released = []).
Proof.
  unfold FlowControl.maybeSendMessage, FlowControl.sendQueued.
  destruct (isFloodMessage m); [|eauto 6].
  destruct (maybeSendNextBatch_total app (FlowControl.mOutboundQueue fc ++ [m])
              (FlowControl.mFlowControlCapacity fc)
              (FlowControl.mFlowControlBytesCapacity fc)) as [[[[q a] c] d] ->].
  simpl. eexists _, _. split; [reflexivity|]. discriminate.
Qed.

(** *** What sending may change *)

Lemma only_send_state_refl p : only_send_state p p.
Proof.
  destruct p as [? ? ? ? ? ? ? ? ? ? ? ? ? ? ? ? ? ? ? ? ? ? ? ? [] ? ? ? ?].
  reflexivity.
Qed.

Lemma only_send_state_trans p q r :
  only_send_state p q -> only_send_state q r -> only_send_state p r.
Proof. unfold only_send_state. intros Hq Hr. rewrite Hr. rewrite Hq. reflexivity. Qed.

Lemma sends_only_refl w : sends_only w w [].
Proof.
  split; [apply only_send_state_refl|reflexivity|].
  exists []. rewrite !app_nil_r. done.
Qed.

Lemma sends_only_trans w1 w2 w3 h2 h3 :
  sends_only w1 w2 h2 -> calls h3 = h3 -> sends_only w2 w3 h3 ->
  exists t, sends_only w1 w3 (h2 ++ t) /\ calls t = h3.
Proof.
  intros [S1 D1 [t1 [E1 C1]]] Hh [S2 D2 [t2 [E2 C2]]].
  exists (t1 ++ h3). split.
  - split; [eapply only_send_state_trans; eauto|congruence|].
    exists t2. split; [|done]. rewrite E2, E1. by rewrite <- !app_assoc.
  - by rewrite calls_app, C1, Hh.
Qed.

Lemma sends_only_step w1 w2 w3 h :
  sends_only w1 w2 h -> sends_only w2 w3 [] -> sends_only w1 w3 h.
Proof.
  intros [S1 D1 [t1 [E1 C1]]] [S2 D2 [t2 [E2 C2]]].
  split; [eapply only_send_state_trans; eauto|congruence|].
  exists (t1 ++ t2). split.
  - rewrite E2, E1. simpl. by rewrite <- !app_assoc.
  - by rewrite calls_app, C1, C2.
Qed.

(** [sendAuthenticatedMessage], in closed form. *)
Lemma sendAuthenticatedMessage_eq app m w :
  sendAuthenticatedMessage app m w =
  Some (tt,
        if is_exempt m
        then {| self := self w;
                events := events w ++ [EvWrite {| sequence := 0; message := m; mac := 0 |}];
                draws := draws w |}
        else {| self := set_mSendMacSeq (wrap64 (mSendMacSeq (self w) + 1)) (self w);
                events := events w ++
                  [EvWrite {| sequence := mSendMacSeq (self w);
                              message := m;
                              mac := hmacSha256 app (mSendMacKey (self w))
                                       (xdr_to_opaque app (mSendMacSeq (self w)) m) |}];
                draws := draws w |}).
Proof.
  unfold sendAuthenticatedMessage, is_exempt.
  destruct (bool_decide (type_of m = HELLO)), (bool_decide (type_of m = ERROR_MSG));
    reflexivity.
Qed.

Lemma sendAuthenticatedMessage_sends_only app m w :
  exists w', sendAuthenticatedMessage app m w = Some (tt, w') /\ sends_only w w' [].
Proof.
  rewrite sendAuthenticatedMessage_eq. eexists; split; [reflexivity|].
  destruct (is_exempt m); (split; simpl; [|reflexivity|eexists [_]; done]).
  - apply only_send_state_refl.
  - destruct (self w) as [? ? ? ? ? ? ? ? ? ? ? ? ? ? ? ? ? ? ? ? ? ? ? ? [] ? ? ? ?].
    reflexivity.
Qed.

Lemma for_each_sendAuthenticatedMessage app ms :
  forall w, exists w',
    for_each ms (sendAuthenticatedMessage app) w = Some (tt, w') /\ sends_only w w' [].
Proof.
  induction ms as [|m rest IH]; intros w; simpl.
  - exists w. split; [reflexivity|apply sends_only_refl].
  - unfold bind at 1.
    destruct (sendAuthenticatedMessage_sends_only app m w) as [w1 [-> S1]].
    destruct (IH w1) as [w2 [-> S2]].
    exists w2. split; [reflexivity|]. eapply sends_only_step; eauto.
Qed.

(** [sendMessage] always returns; it records the message and changes only
    the send state. *)
Lemma sendMessage_sends_only app m w :
  exists w', sendMessage app m w = Some (tt, w') /\ sends_only w w' [EvSend m].
Proof.
  unfold sendMessage. unfold_monad. simpl.
  destruct (bool_decide (currentSchedulerActionType app = DROPPABLE_ACTION)
            && sendQueueIsOverloaded app (written (events w ++ [EvSend m]))); simpl.
  - eexists; split; [reflexivity|]. split; simpl; [|reflexivity|].
    + destruct (self w) as [? ? ? ? ? ? ? ? ? ? ? ? ? ? ? ? ? ? ? ? ? ? ? ? [] ? ? ? ?].
      reflexivity.
    + eexists [_]. rewrite <- !app_assoc. done.
  - destruct (maybeSendMessage_total app m (mFlowControl (self w)))
      as (fc' & released & -> & _).
    simpl.
    match goal with
    | |- context [for_each released ?f ?w0] =>
        destruct (for_each_sendAuthenticatedMessage app released w0) as [w1 [-> S1]]
    end.
    assert (S0 : sends_only w
              {| self := set_mFlowControl fc' (self w);
                 events := (events w ++ [EvSend m]) ++
                           [EvMark (sendMeter (type_of m)) 1];
                 draws := draws w |} [EvSend m]).
    { split; simpl; [|reflexivity|].
      - destruct (self w) as [? ? ? ? ? ? ? ? ? ? ? ? ? ? ? ? ? ? ? ? ? ? ? ? [] ? ? ? ?].
        reflexivity.
      - eexists [_]. rewrite <- !app_assoc. done. }
    destruct (isFloodMessage m).
    + exists w1. split; [reflexivity|]. eapply sends_only_step; eauto.
    + destruct (sendAuthenticatedMessage_sends_only app m w1) as [w2 [-> S2]].
      exists w2. split; [reflexivity|].
      eapply sends_only_step; [|exact S2]. eapply sends_only_step; eauto.
Qed.

(** *** Load shedding *)

Lemma written_app a b : written (a ++ b) = written a ++ written b.
Proof. unfold written. apply omap_app. Qed.

(** The flow controller releases from the head of its queue and keeps the
    rest in order. *)
Lemma maybeSendNextBatch_conserves app queue :
  forall msgs bytes queue' msgs' bytes' sent,
    FlowControl.maybeSendNextBatch app queue msgs bytes = Some (queue', msgs', bytes', sent) ->
    sent ++ queue' = queue.
Proof.
  induction queue as [|m rest IH]; intros msgs bytes queue' msgs' bytes' sent H;
    cbn [FlowControl.maybeSendNextBatch] in H.
  - injection H as <- _ _ <-. reflexivity.
  - match type of H with
    | (if ?c then _ else _) = _ => destruct c
    end.
    2:{ injection H as <- _ _ <-. reflexivity. }
    destruct (Capacity.lockOutboundCapacity app m msgs) as [m1|]; [|discriminate].
    cbn [bindO] in H.
    match type of H with
    | bindO ?c _ = _ => destruct c as [b1|]; [|discriminate]
    end.
    cbn [bindO] in H.
    destruct (FlowControl.maybeSendNextBatch app rest m1 b1) as [[[[q a] c] d]|] eqn:E;
      [|discriminate].
    cbn [bindO] in H. injection H as <- _ _ <-.
    cbn [Datatypes.app]. f_equal. exact (IH _ _ _ _ _ _ E).
Qed.

(** The frames of the messages the flow controller hands to its send
    callback. *)
Lemma for_each_sendAuthenticatedMessage_frames app ms :
  forall w, exists w' frames,
    for_each ms (sendAuthenticatedMessage app) w = Some (tt, w')
    /\ written (events w') = written (events w) ++ frames
    /\ map message frames = ms
    /\ well_sequenced app (mSendMacKey (self w)) (mSendMacSeq (self w)) frames
         (mSendMacSeq (self w'))
    /\ mSendMacKey (self w') = mSendMacKey (self w)
    /\ mFlowControl (self w') = mFlowControl (self w)
    /\ mPeerMetrics (self w') = mPeerMetrics (self w).
Proof.
  induction ms as [|m rest IH]; intros w; cbn [for_each].
  - exists w, []. rewrite app_nil_r. repeat split. constructor.
  - unfold bind at 1. rewrite sendAuthenticatedMessage_eq.
    match goal with
    | |- context [for_each rest _ ?w0] =>
        destruct (IH w0) as (w2 & frames & -> & V & Ms & S & K & F & P)
    end.
    destruct (is_exempt m) eqn:Hx; cbn [self events] in V, S, K, F, P.
    + exists w2, ({| sequence := 0; message := m; mac := 0 |} :: frames).
      split; [reflexivity|].
      split; [rewrite V, written_app, <- app_assoc; reflexivity|].
      split; [cbn [map message]; rewrite Ms; reflexivity|].
      split; [apply ws_exempt; assumption|].
      repeat split; assumption.
    + exists w2, ({| sequence := mSendMacSeq (self w); message := m;
                     mac := hmacSha256 app (mSendMacKey (self w))
                              (xdr_to_opaque app (mSendMacSeq (self w)) m) |} :: frames).
      split; [reflexivity|].
      split; [rewrite V, written_app, <- app_assoc; reflexivity|].
      split; [cbn [map message]; rewrite Ms; reflexivity|].
      split; [apply ws_authenticated; assumption|].
      repeat split; assumption.
Qed.

(** A flood-class message joins the queue of the flow controller, which
    releases from the head of the queue. *)
Lemma maybeSendMessage_conserves app m fc taken fc' released :
  isFloodMessage m = true ->
  FlowControl.maybeSendMessage app m fc = Some (taken, fc', released) ->
  taken = true
  /\ released ++ FlowControl.mOutboundQueue fc' = FlowControl.mOutboundQueue fc ++ [m].
Proof.
  intros Hf H. unfold FlowControl.maybeSendMessage, FlowControl.sendQueued in H.
  rewrite Hf in H.
  destruct (FlowControl.maybeSendNextBatch app (FlowControl.mOutboundQueue fc ++ [m])
              (FlowControl.mFlowControlCapacity fc)
              (FlowControl.mFlowControlBytesCapacity fc))
    as [[[[q a] c] d]|] eqn:E; [|discriminate].
  cbn [bindO] in H. injection H as <- <- <-.
  split; [reflexivity|]. exact (maybeSendNextBatch_conserves _ _ _ _ _ _ _ _ E).
Qed.

(** [sendMessage], by cases: the message is shed, or the flow controller
    takes it, or it is written at once. *)
Lemma sendMessage_handed_over app m w :
  exists w', sendMessage app m w = Some (tt, w') /\ handed_over app m w w'.
Proof.
  unfold handed_over, sheds, sendMessage.
  unfold bind at 1. unfold emit at 1.
  unfold bind at 1. cbn [self events draws].
  rewrite written_app. change (written [EvSend m]) with (@nil AuthenticatedMessage).
  rewrite app_nil_r.
  destruct (bool_decide (currentSchedulerActionType app = DROPPABLE_ACTION)
            && sendQueueIsOverloaded app (written (events w))).
  - unfold bind at 1. unfold emit at 1. unfold modify. cbn [self events draws].
    eexists. split; [reflexivity|].
    unfold discarded. cbn [self events].
    rewrite <- app_assoc, written_app. cbn [Datatypes.app].
    change (written [EvSend m; EvMark OverlayMetrics.mMessageDrop 1])
      with (@nil AuthenticatedMessage).
    rewrite app_nil_r. repeat split.
  - unfold bind at 1. unfold emit at 1. cbn [self events draws].
    unfold bind at 1. unfold get at 1. cbn [self events draws].
    unfold bind at 1. unfold lift at 1.
    destruct (maybeSendMessage_total app m (mFlowControl (self w)))
      as (fc' & released & Em & Hnf).
    rewrite Em. cbv beta iota.
    unfold bind at 1. unfold modify at 1. cbn [self events draws].
    unfold bind at 1.
    destruct (isFloodMessage m) eqn:Hf.
    + match goal with
      | |- context [for_each released _ ?w0] =>
          destruct (for_each_sendAuthenticatedMessage_frames app released w0)
            as (w1 & frames & -> & V & Ms & S & K & F & P)
      end.
      cbn [self events] in V, S, K, F, P.
      rewrite <- app_assoc, written_app in V. cbn [Datatypes.app] in V.
      change (written [EvSend m; EvMark (sendMeter (type_of m)) 1])
        with (@nil AuthenticatedMessage) in V.
      rewrite app_nil_r in V.
      exists w1. split; [reflexivity|].
      destruct (maybeSendMessage_conserves _ _ _ _ _ _ Hf Em) as [_ Q].
      exists released, frames.
      split; [rewrite F; exact Em|].
      split; [rewrite F; exact Q|].
      split; [exact V|]. split; [exact Ms|]. split; [exact S|].
      rewrite P. reflexivity.
    + destruct (Hnf eq_refl) as [-> ->].
      cbn [for_each]. unfold skip at 1, ret at 1.
      rewrite sendAuthenticatedMessage_eq. cbn [self events draws].
      eexists. split; [reflexivity|].
      unfold written_at_once, frame_of.
      destruct (is_exempt m); cbn [self events];
        rewrite <- !app_assoc, written_app; cbn [Datatypes.app];
        (split; [reflexivity|]);
        destruct (self w) as [? ? ? ? ? ? ? ? ? ? ? ? ? ? ? ? ? ? ? ? ? ? ? ? [] ? ? ? ?];
        repeat split.
Qed.

(** *** Members the send path leaves alone *)

Lemma only_send_state_fields p p' :
  only_send_state p p' ->
  mState p' = mState p
  /\ mRecvMacSeq p' = mRecvMacSeq p
  /\ mRole p' = mRole p
  /\ mTxHashesToAdvertise p' = mTxHashesToAdvertise p
  /\ mAdvertHistory p' = mAdvertHistory p
  /\ mAdvertTimer p' = mAdvertTimer p
  /\ mRecurringTimer p' = mRecurringTimer p
  /\ mMessagesFulfilled (mPeerMetrics p') = mMessagesFulfilled (mPeerMetrics p)
  /\ mBannedMessageUnfulfilled (mPeerMetrics p') = mBannedMessageUnfulfilled (mPeerMetrics p)
  /\ mUnknownMessageUnfulfilled (mPeerMetrics p') = mUnknownMessageUnfulfilled (mPeerMetrics p).
Proof. intros ->. repeat split. Qed.

(** ** Incoming demands *)

Lemma bump_S_inner n x : bump (S n) x = bump n (wrap64 (x + 1)).
Proof.
  unfold bump. induction n as [|n IH]; [reflexivity|].
  change (Nat.iter (S (S n)) ?f ?x) with (f (Nat.iter (S n) f x)).
  rewrite IH. reflexivity.
Qed.

Lemma fulfillOne_spec app h w :
  exists w' added,
    fulfillOne app h w = Some (tt, w')
    /\ events w' = events w ++ added
    /\ calls added =
         match getTx app h with
         | Some tx => [EvSend (MsgTransaction tx)]
         | None => []
         end
    /\ mMessagesFulfilled (mPeerMetrics (self w')) =
         bump (count (has_tx app) [h]) (mMessagesFulfilled (mPeerMetrics (self w)))
    /\ mBannedMessageUnfulfilled (mPeerMetrics (self w')) =
         bump (count (is_banned_missing app) [h])
           (mBannedMessageUnfulfilled (mPeerMetrics (self w)))
    /\ mUnknownMessageUnfulfilled (mPeerMetrics (self w')) =
         bump (count (is_unknown_missing app) [h])
           (mUnknownMessageUnfulfilled (mPeerMetrics (self w))).
Proof.
  unfold fulfillOne, count, is_banned_missing, is_unknown_missing, has_tx. simpl.
  destruct (getTx app h) as [tx|] eqn:Htx; simpl.
  - unfold_monad. simpl.
    match goal with
    | |- context [sendMessage app ?m ?w0] =>
        destruct (sendMessage_sends_only app m w0) as [w' [-> [S D [tail [E C]]]]]
    end.
    simpl in *.
    apply only_send_state_fields in S. simpl in S.
    destruct S as (_ & _ & _ & _ & _ & _ & _ & F1 & F2 & F3).
    exists w', ([EvMark OverlayMetrics.mMessagesFulfilledMeter 1]
                ++ [EvSend (MsgTransaction tx)] ++ tail).
    split; [reflexivity|]. split; [by rewrite E, <- !app_assoc|].
    split; [by rewrite !calls_app, C|].
    rewrite F1, F2, F3. done.
  - destruct (isBannedTx app h); unfold_monad; simpl;
      eexists _, [_]; (split; [reflexivity|]); simpl; done.
Qed.

(** The counters and the calls of a whole demand. For the hashes of a
    FLOOD_DEMAND, in order: a hash whose transaction the herder has makes
    the peer pass one TRANSACTION message with it to [sendMessage] and
    count one fulfilled demand; a hash the herder reports banned counts
    one banned-unfulfilled demand; any other hash counts one
    unknown-unfulfilled demand. *)
Lemma fulfillDemand_totals (app : Application) (hashes : list Hash) (w : World) :
  exists w' added,
    fulfillDemand app hashes w = Some (tt, w')
    /\ events w' = events w ++ added
    /\ calls added = map (fun tx => EvSend (MsgTransaction tx)) (omap (getTx app) hashes)
    /\ mMessagesFulfilled (mPeerMetrics (self w')) =
         bump (count (has_tx app) hashes) (mMessagesFulfilled (mPeerMetrics (self w)))
    /\ mBannedMessageUnfulfilled (mPeerMetrics (self w')) =
         bump (count (is_banned_missing app) hashes)
           (mBannedMessageUnfulfilled (mPeerMetrics (self w)))
    /\ mUnknownMessageUnfulfilled (mPeerMetrics (self w')) =
         bump (count (is_unknown_missing app) hashes)
           (mUnknownMessageUnfulfilled (mPeerMetrics (self w))).
Proof.
  unfold fulfillDemand. revert w.
  induction hashes as [|h rest IH]; intros w.
  - exists w, []. simpl. rewrite app_nil_r. done.
  - simpl for_each. unfold bind at 1.
    destruct (fulfillOne_spec app h w) as (w1 & a1 & -> & E1 & C1 & F1 & B1 & U1).
    destruct (IH w1) as (w2 & a2 & -> & E2 & C2 & F2 & B2 & U2).
    exists w2, (a1 ++ a2). split; [reflexivity|].
    split; [by rewrite E2, E1, <- app_assoc|].
    split.
    { rewrite calls_app, C1, C2. simpl. destruct (getTx app h); reflexivity. }
    rewrite F2, B2, U2, F1, B1, U1. unfold count. simpl.
    repeat split.
    + destruct (has_tx app h); simpl; [by rewrite <- bump_S_inner|done].
    + destruct (is_banned_missing app h); simpl; [by rewrite <- bump_S_inner|done].
    + destruct (is_unknown_missing app h); simpl; [by rewrite <- bump_S_inner|done].
Qed.

Lemma fulfillOne_answer app h w :
  exists w', fulfillOne app h w = Some (tt, w') /\ demand_answer app h w w'.
Proof.
  destruct (fulfillOne_spec app h w) as (w' & added & E & Ev & C & Cf & Cb & Cu).
  exists w'. split; [exact E|].
  unfold demand_answer. cbv zeta. split; [exists added; split; assumption|].
  clear added Ev C.
  unfold count, has_tx, is_banned_missing, is_unknown_missing, has_tx in Cf, Cb, Cu.
  cbn [List.filter] in Cf, Cb, Cu.
  unfold fulfillOne in E.
  destruct (getTx app h) as [tx|].
  - rewrite bool_decide_true in Cf, Cb, Cu by eauto.
    cbn in Cf, Cb, Cu.
    split; [exact Cf|]. split; [exact Cb|]. split; [exact Cu|].
    unfold bind at 1 in E. unfold modify at 1 in E.
    unfold bind at 1 in E. unfold emit at 1 in E. cbn [self events draws] in E.
    match type of E with
    | sendMessage app ?m ?w0 = _ =>
        destruct (sendMessage_handed_over app m w0) as (w2 & E2 & H)
    end.
    rewrite E2 in E. injection E as <-.
    unfold handed_over, sheds in H. cbn [self events draws] in H.
    rewrite written_app, app_nil_r in H.
    change (isFloodMessage (MsgTransaction tx)) with true in H. cbv iota in H.
    unfold sheds.
    destruct (bool_decide (currentSchedulerActionType app = DROPPABLE_ACTION)
              && sendQueueIsOverloaded app (written (events w))).
    + destruct H as (V & F & S & D). cbn [self events] in V.
      rewrite written_app, app_nil_r in V.
      repeat split; assumption.
    + destruct H as (released & frames & Em & Q & V & Ms & S & D).
      cbn [self events] in V.
      rewrite written_app, app_nil_r in V.
      exists released, frames. repeat split; assumption.
  - rewrite bool_decide_false in Cf, Cb, Cu by (intros [? ?]; discriminate).
    cbn [negb andb] in Cf, Cb, Cu.
    split; [exact Cf|].
    destruct (isBannedTx app h); cbn in Cb, Cu;
      (split; [split; assumption|]);
      unfold bind at 1 in E; unfold emit at 1 in E; unfold modify in E;
      injection E as <-; cbn [self events];
      rewrite written_app, app_nil_r; repeat split.
Qed.

(** C10 (as amended). [fulfillDemand] always returns, and it answers the
    hashes of a FLOOD_DEMAND one after the other. For a hash whose
    transaction the herder has, it counts one fulfilled demand and hands a
    TRANSACTION message with the transaction to [sendMessage]; what
    becomes of that message is decided there. When the caller runs as a
    droppable action and the write queue is overloaded the message is
    shed: no frame is written, the flow controller queues nothing, and the
    session counts one dropped message, the fulfilled counter having moved
    all the same. Otherwise the message joins the outbound queue of the
    flow controller, and the frames written are the messages released from
    the head of that queue. For a hash the herder has no transaction for,
    the banned-unfulfilled counter moves when the herder reports the hash
    banned and the unknown-unfulfilled counter otherwise, and nothing is
    handed to [sendMessage], written or queued. The counters end at their
    totals over the demand. *)
Theorem fulfillDemand_answers_each_hash (app : Application) (hashes : list Hash) (w : World) :
  exists w',
    fulfillDemand app hashes w = Some (tt, w')
    /\ demand_answers app hashes w w'
    /\ mMessagesFulfilled (mPeerMetrics (self w')) =
         bump (count (has_tx app) hashes) (mMessagesFulfilled (mPeerMetrics (self w)))
    /\ mBannedMessageUnfulfilled (mPeerMetrics (self w')) =
         bump (count (is_banned_missing app) hashes)
           (mBannedMessageUnfulfilled (mPeerMetrics (self w)))
    /\ mUnknownMessageUnfulfilled (mPeerMetrics (self w')) =
         bump (count (is_unknown_missing app) hashes)
           (mUnknownMessageUnfulfilled (mPeerMetrics (self w))).
Proof.
  assert (G : forall w0, exists w',
            fulfillDemand app hashes w0 = Some (tt, w') /\ demand_answers app hashes w0 w').
  { unfold fulfillDemand.
    induction hashes as [|h rest IH]; intros w0; cbn [for_each demand_answers].
    - exists w0. split; reflexivity.
    - unfold bind at 1.
      destruct (fulfillOne_answer app h w0) as (w1 & -> & A1).
      destruct (IH w1) as (w2 & -> & A2).
      exists w2. split; [reflexivity|]. exists w1. split; assumption. }
  destruct (G w) as (w' & E & A).
  destruct (fulfillDemand_totals app hashes w) as (w2 & added & E2 & _ & _ & F & B & U).
  rewrite E in E2. injection E2 as <-.
  exists w'. repeat split; assumption.
Qed.

(** C10 as stated fails under load. A FLOOD_DEMAND is processed as a
    droppable action; when the write queue is overloaded, a demand for
    hash 70, whose transaction the herder has, is counted as fulfilled,
    but [sendMessage] sheds the TRANSACTION: no frame is written, the
    flow controller queues nothing, and the drop counter moves. *)
Lemma fulfillDemand_counterexample :
  getTx overloaded_app 70 = Some 7
  /\ option_map (fun r => calls (events (snd r)))
       (run (recvMessage_HcnetMessage Sample.app (MsgFloodDemand [70])) (self after_auth))
     = Some [EvPost (RecvMessageTask (MsgFloodDemand [70]) "TX") "TX recvMessage"
               (Some DROPPABLE_ACTION)]
  /\ option_map (fun r => (written (events (snd r)),
                           FlowControl.mOutboundQueue (mFlowControl (self (snd r))),
                           mMessagesFulfilled (mPeerMetrics (self (snd r))),
                           mMessageDrop (mPeerMetrics (self (snd r)))))
       (run (fulfillDemand overloaded_app [70]) (self after_auth))
     = Some ([], [], 1, 1).
Proof. vm_compute. repeat split. Qed.

(** ** Members a function leaves alone *)

Section Keeps.
Context {A : Type} (f : Peer -> A).

Lemma keeps_ret {B} (b : B) : keeps f (ret b).
Proof. intros w b' w' [= _ <-]. reflexivity. Qed.

Lemma keeps_get {B} (g : Peer -> B) : keeps f (get g).
Proof. intros w b' w' [= _ <-]. reflexivity. Qed.

Lemma keeps_emit e : keeps f (emit e).
Proof. intros w b' w' [= _ <-]. reflexivity. Qed.

Lemma keeps_draw app : keeps f (draw app).
Proof. intros w b' w' [= _ <-]. reflexivity. Qed.

Lemma keeps_lift {B} (c : option B) : keeps f (lift c).
Proof. intros w b' w' H. unfold lift in H. destruct c; inversion H. reflexivity. Qed.

Lemma keeps_releaseAssert c : keeps f (releaseAssert c).
Proof. intros w b' w' H. unfold releaseAssert in H. destruct c; inversion H. reflexivity. Qed.

Lemma keeps_modify (g : Peer -> Peer) :
  (forall p, f (g p) = f p) -> keeps f (modify g).
Proof. intros Hg w b' w' [= _ <-]. apply Hg. Qed.

Lemma keeps_bind {B C} (c : M B) (k : B -> M C) :
  keeps f c -> (forall b, keeps f (k b)) -> keeps f (bind c k).
Proof.
  intros Hc Hk w b' w' H. unfold bind in H.
  destruct (c w) as [[b w1]|] eqn:E; [|discriminate].
  rewrite (Hk _ _ _ _ H). eapply Hc; eauto.
Qed.

Lemma keeps_for_each {B} (xs : list B) (body : B -> M unit) :
  (forall x, keeps f (body x)) -> keeps f (for_each xs body).
Proof.
  intros Hb. induction xs as [|x rest IH]; simpl.
  - apply keeps_ret.
  - apply keeps_bind; [apply Hb|intros _; apply IH].
Qed.

(** The send path preserves every member but its own three. *)
Definition send_invariant : Prop := forall fc s d p, f (send_effect fc s d p) = f p.

Lemma keeps_sendMessage app m : send_invariant -> keeps f (sendMessage app m).
Proof.
  intros Hf w [] w' H.
  destruct (sendMessage_sends_only app m w) as [w2 [E [S _ _]]].
  rewrite E in H. injection H as <-. rewrite S. apply Hf.
Qed.

Lemma keeps_sendAuthenticatedMessage app m :
  send_invariant -> keeps f (sendAuthenticatedMessage app m).
Proof.
  intros Hf w [] w' H.
  destruct (sendAuthenticatedMessage_sends_only app m w) as [w2 [E [S _ _]]].
  rewrite E in H. injection H as <-. rewrite S. apply Hf.
Qed.
End Keeps.

(** Decompose a member function into the steps above. *)
Ltac keeps_step :=
  first
    [ apply keeps_ret | apply keeps_get | apply keeps_emit | apply keeps_draw
    | apply keeps_lift | apply keeps_releaseAssert
    | apply keeps_sendMessage; intros ? ? ? ?; reflexivity
    | apply keeps_sendAuthenticatedMessage; intros ? ? ? ?; reflexivity
    | apply keeps_modify; intros ?; reflexivity
    | apply keeps_for_each; intros ?
    | apply keeps_bind; [|intros ?]
    | match goal with
      | |- keeps _ (match ?x with _ => _ end) => destruct x
      | |- keeps _ (let (_, _) := ?x in _) => destruct x
      end
    | assumption ].

Ltac keeps_auto := unfold skip; repeat keeps_step.

Lemma keeps_shutdown {A} (f : Peer -> A) :
  (forall v p, f (set_mShuttingDown v p) = f p) ->
  (forall v p, f (set_mRecurringTimer v p) = f p) ->
  (forall v p, f (set_mAdvertTimer v p) = f p) ->
  (forall v p, f (set_mDelayedExecutionTimer v p) = f p) ->
  keeps f shutdown.
Proof.
  intros H1 H2 H3 H4. unfold shutdown. unfold skip.
  apply keeps_bind; [apply keeps_get|intros []]; [apply keeps_ret|].
  repeat (apply keeps_bind; [|intros ?]);
    apply keeps_modify; intros ?; auto.
Qed.

Lemma keeps_drop {A} (f : Peer -> A) reason dir mode :
  (forall v p, f (set_mState v p) = f p) ->
  (forall v p, f (set_mShuttingDown v p) = f p) ->
  (forall v p, f (set_mRecurringTimer v p) = f p) ->
  (forall v p, f (set_mAdvertTimer v p) = f p) ->
  (forall v p, f (set_mDelayedExecutionTimer v p) = f p) ->
  keeps f (drop reason dir mode).
Proof.
  intros H0 H1 H2 H3 H4. unfold drop, skip.
  apply keeps_bind; [apply keeps_emit|intros _].
  apply keeps_bind; [apply keeps_get|intros st].
  destruct (decide (st = CLOSING)); [apply keeps_ret|].
  apply keeps_bind; [apply keeps_modify; auto|intros _].
  apply keeps_shutdown; auto.
Qed.

Lemma keeps_mRecvMacSeq_drop reason dir mode : keeps mRecvMacSeq (drop reason dir mode).
Proof. apply keeps_drop; reflexivity. Qed.

Lemma keeps_mRecvMacSeq_sendErrorAndDrop app code text mode :
  keeps mRecvMacSeq (sendErrorAndDrop app code text mode).
Proof.
  unfold sendErrorAndDrop, sendError.
  apply keeps_bind; [keeps_auto|intros _; apply keeps_mRecvMacSeq_drop].
Qed.

Lemma keeps_mRecvMacSeq_beginMessageProcessing app m :
  keeps mRecvMacSeq (beginMessageProcessing app m).
Proof.
  unfold beginMessageProcessing. keeps_auto.
Qed.

Lemma keeps_mRecvMacSeq_endMessageProcessing app m :
  keeps mRecvMacSeq (endMessageProcessing app m).
Proof. unfold endMessageProcessing, canRead. keeps_auto. Qed.

(** ** The receive sequence number *)

Lemma keeps_mRecvMacSeq_recvAuth app flags : keeps mRecvMacSeq (recvAuth app flags).
Proof.
  unfold recvAuth, sendErrorAndDrop, sendError, sendAuth, sendPeers,
    updatePeerRecordAfterAuthentication, sendGetScpState.
  keeps_auto.
Qed.

(** After HELLO was accepted a further HELLO only drops the connection. *)
Lemma recvHello_unexpected app elo w :
  state_value GOT_HELLO <= state_value (mState (self w)) ->
  recvHello app elo w =
  drop "received unexpected HELLO" WE_DROPPED_REMOTE IGNORE_WRITE_QUEUE w.
Proof.
  intros H. unfold recvHello. unfold bind at 1. unfold get at 1.
  apply Z.leb_le in H. rewrite H. reflexivity.
Qed.

Lemma recvMessage_HcnetMessage_keeps_mRecvMacSeq app m w w' :
  state_value GOT_HELLO <= state_value (mState (self w)) ->
  recvMessage_HcnetMessage app m w = Some (tt, w') ->
  mRecvMacSeq (self w') = mRecvMacSeq (self w).
Proof.
  intros Hst H.
  unfold recvMessage_HcnetMessage in H. unfold bind at 1 in H. unfold get at 1 in H.
  destruct (shouldAbort app (self w)) eqn:Hab; [by injection H as <-|].
  destruct m; simpl in H;
    try (revert H; apply keeps_bind;
         [unfold MsgCapacityTracker_new; apply keeps_mRecvMacSeq_beginMessageProcessing|];
         intros _; match goal with
                   | |- keeps _ (if ?c then _ else _) => destruct c
                   | _ => idtac
                   end;
         first [unfold MsgCapacityTracker_delete;
                apply keeps_mRecvMacSeq_endMessageProcessing | apply keeps_emit]).
  - unfold recvRawMessage in H. unfold bind at 1 in H. unfold get at 1 in H.
    rewrite Hab in H.
    unfold bind at 1 in H. unfold get at 1 in H. simpl in H.
    rewrite andb_false_r in H. simpl in H. rewrite orb_true_r in H.
    unfold bind at 1 in H. unfold releaseAssert at 1 in H.
    unfold bind at 1 in H. unfold emit at 1 in H. simpl in H.
    rewrite recvHello_unexpected in H by exact Hst.
    apply keeps_mRecvMacSeq_drop in H. exact H.
  - revert H. unfold recvRawMessage.
    apply keeps_bind; [apply keeps_get|intros []]; [apply keeps_ret|].
    apply keeps_bind; [apply keeps_get|intros a]. simpl.
    rewrite !andb_false_r. simpl.
    apply keeps_bind; [apply keeps_releaseAssert|intros _].
    apply keeps_bind; [apply keeps_emit|intros _].
    apply keeps_mRecvMacSeq_recvAuth.
Qed.

(** ** Dropping the connection *)

Lemma shutdown_spec w :
  exists p', shutdown w = Some (tt, {| self := p'; events := events w; draws := draws w |})
    /\ mState p' = mState (self w)
    /\ mRecvMacSeq p' = mRecvMacSeq (self w)
    /\ mSendMacSeq p' = mSendMacSeq (self w)
    /\ mFlowControl p' = mFlowControl (self w)
    /\ mTxHashesToAdvertise p' = mTxHashesToAdvertise (self w)
    /\ (mShuttingDown (self w) = false ->
        mRecurringTimer p' = None /\ mAdvertTimer p' = None
        /\ mDelayedExecutionTimer p' = None).
Proof.
  unfold shutdown. unfold_monad. simpl.
  destruct (mShuttingDown (self w)) eqn:E; simpl.
  - exists (self w). destruct w; simpl. repeat split; discriminate.
  - eexists. split; [reflexivity|]. simpl. repeat split.
Qed.

(** [drop] records the call and leaves the session CLOSING. *)
Lemma drop_spec reason dir mode w :
  exists p',
    drop reason dir mode w =
      Some (tt, {| self := p'; events := events w ++ [EvDrop reason dir mode];
                   draws := draws w |})
    /\ mState p' = CLOSING
    /\ mRecvMacSeq p' = mRecvMacSeq (self w)
    /\ mSendMacSeq p' = mSendMacSeq (self w)
    /\ mFlowControl p' = mFlowControl (self w)
    /\ mTxHashesToAdvertise p' = mTxHashesToAdvertise (self w).
Proof.
  unfold drop. unfold bind at 1. unfold emit at 1.
  unfold bind at 1. unfold get at 1. simpl.
  destruct (decide (mState (self w) = CLOSING)) as [E|E].
  - exists (self w). unfold skip, ret. repeat split; assumption.
  - unfold bind at 1. unfold modify at 1. simpl.
    match goal with
    | |- context [shutdown ?w0] => destruct (shutdown_spec w0) as (p' & -> & S & Hrest)
    end.
    simpl in *. exists p'. split; [reflexivity|]. tauto.
Qed.

Lemma sendErrorAndDrop_spec app code text mode w :
  exists w' added,
    sendErrorAndDrop app code text mode w = Some (tt, w')
    /\ events w' = events w ++ added
    /\ calls added = [EvSend (MsgError code text); EvDrop text WE_DROPPED_REMOTE mode]
    /\ mState (self w') = CLOSING
    /\ mRecvMacSeq (self w') = mRecvMacSeq (self w)
    /\ mTxHashesToAdvertise (self w') = mTxHashesToAdvertise (self w).
Proof.
  unfold sendErrorAndDrop, sendError. unfold bind at 1.
  destruct (sendMessage_sends_only app (MsgError code text) w)
    as [w1 [Hs [S D [tail [E C]]]]].
  rewrite Hs. cbv beta iota.
  destruct (drop_spec text WE_DROPPED_REMOTE mode w1) as (p' & Hd & St & R & _ & _ & T).
  rewrite Hd.
  apply only_send_state_fields in S.
  destruct S as (_ & S2 & _ & S4 & _).
  exists {| self := p'; events := events w1 ++ [EvDrop text WE_DROPPED_REMOTE mode];
            draws := draws w1 |},
    (([EvSend (MsgError code text)] ++ tail) ++ [EvDrop text WE_DROPPED_REMOTE mode]).
  split; [reflexivity|].
  cbn [self events draws].
  split; [rewrite E; rewrite <- !app_assoc; reflexivity|].
  split; [rewrite !calls_app, C; reflexivity|].
  split; [exact St|].
  split; [rewrite R; exact S2|rewrite T; exact S4].
Qed.

(** ** C1: the sequence number and the MAC of a received frame *)

(** C1 (as amended). While the session is in GOT_HELLO or GOT_AUTH and the
    overlay is not shutting down, a frame whose message is not ERROR_MSG is
    passed on to [recvMessage(HcnetMessage)] only if its sequence field
    equals [mRecvMacSeq] and its MAC verifies under [mRecvMacKey] over the
    sequence and the message; otherwise the peer passes an ERR_AUTH error to
    [sendMessage], drops the connection ignoring the write queue and
    dispatches nothing. In the three cases the receive counter ends one
    higher, as a 64-bit counter. *)
Theorem recvMessage_checks_sequence_and_mac
    (app : Application) (w : World) (amsg : AuthenticatedMessage) :
  shouldAbort app (self w) = false ->
  state_value GOT_HELLO <= state_value (mState (self w)) ->
  type_of (message amsg) <> ERROR_MSG ->
  let seqOk := sequence amsg =? mRecvMacSeq (self w) in
  let macOk := hmacSha256Verify app (mac amsg) (mRecvMacKey (self w))
                 (xdr_to_opaque app (sequence amsg) (message amsg)) in
  let next := wrap64 (mRecvMacSeq (self w) + 1) in
  if seqOk && macOk
  then
    recvMessage app amsg w =
      recvMessage_HcnetMessage app (message amsg)
        {| self := set_mRecvMacSeq next (self w); events := events w; draws := draws w |}
    /\ (forall w', recvMessage app amsg w = Some (tt, w') -> mRecvMacSeq (self w') = next)
  else
    exists w' added,
      recvMessage app amsg w = Some (tt, w')
      /\ events w' = events w ++ added
      /\ calls added =
           [EvSend (MsgError ERR_AUTH (auth_reject_reason seqOk));
            EvDrop (auth_reject_reason seqOk) WE_DROPPED_REMOTE IGNORE_WRITE_QUEUE]
      /\ mState (self w') = CLOSING
      /\ mRecvMacSeq (self w') = next.
Proof.
  intros Hab Hst Hty seqOk macOk next.
  assert (E : recvMessage app amsg w =
              (if negb seqOk
               then sendErrorAndDrop app ERR_AUTH "unexpected auth sequence" IGNORE_WRITE_QUEUE
               else if negb macOk
               then sendErrorAndDrop app ERR_AUTH "unexpected MAC" IGNORE_WRITE_QUEUE
               else recvMessage_HcnetMessage app (message amsg))
                {| self := set_mRecvMacSeq next (self w); events := events w;
                   draws := draws w |}).
  { unfold recvMessage. unfold bind at 1. unfold get at 1. rewrite Hab.
    unfold bind at 1. unfold get at 1.
    apply Z.leb_le in Hst. rewrite Hst.
    rewrite bool_decide_false by exact Hty. simpl.
    unfold bind at 1. unfold get at 1. unfold bind at 1. unfold get at 1.
    fold seqOk macOk next.
    destruct seqOk; simpl; [destruct macOk; simpl|]; reflexivity. }
  destruct seqOk eqn:Hs; simpl in *; [destruct macOk eqn:Hm; simpl in *|].
  - split; [exact E|]. intros w' Hw'. rewrite E in Hw'.
    apply recvMessage_HcnetMessage_keeps_mRecvMacSeq in Hw'; [exact Hw'|exact Hst].
  - rewrite E.
    match goal with
    | |- context [sendErrorAndDrop app ?c ?t ?m ?w0] =>
        destruct (sendErrorAndDrop_spec app c t m w0) as (w' & added & -> & Hev & Hc & S & R & _)
    end.
    exists w', added. repeat split; assumption.
  - rewrite E.
    match goal with
    | |- context [sendErrorAndDrop app ?c ?t ?m ?w0] =>
        destruct (sendErrorAndDrop_spec app c t m w0) as (w' & added & -> & Hev & Hc & S & R & _)
    end.
    exists w', added. repeat split; assumption.
Qed.

Lemma recvMessage_checks_sequence_and_mac_witness :
  exists w' added,
    recvMessage Sample.app {| sequence := 5; message := MsgAuth 200; mac := 0 |} after_hello
      = Some (tt, w')
    /\ events w' = events after_hello ++ added
    /\ calls added =
         [EvSend (MsgError ERR_AUTH "unexpected auth sequence");
          EvDrop "unexpected auth sequence" WE_DROPPED_REMOTE IGNORE_WRITE_QUEUE]
    /\ mState (self w') = CLOSING
    /\ mRecvMacSeq (self w') = 1.
Proof.
  apply (recvMessage_checks_sequence_and_mac Sample.app after_hello
           {| sequence := 5; message := MsgAuth 200; mac := 0 |}).
  - reflexivity.
  - vm_compute. discriminate.
  - discriminate.
Defined.

(** C1 as stated fails where [recvMessage] returns at once. An
    authenticated session (GOT_AUTH) of a node whose overlay is shutting
    down ignores a frame with a wrong sequence number: nothing is sent,
    the connection is not dropped and the counter stays. So does a session
    that is CLOSING, the state after GOT_AUTH. *)
Lemma recvMessage_closing_counterexample :
  let shutting_down := Sample.make_app (seconds 1000) true true in
  let amsg := {| sequence := 5; message := MsgAuth 200; mac := 0 |} in
  let p := self after_auth in
  let q := set_mState CLOSING (self after_hello) in
  type_of (message amsg) <> ERROR_MSG
  /\ (mState p = GOT_AUTH
      /\ sequence amsg <> mRecvMacSeq p
      /\ run (recvMessage shutting_down amsg) p
         = Some (tt, {| self := p; events := []; draws := 0 |})
      /\ mRecvMacSeq p <> wrap64 (mRecvMacSeq p + 1))
  /\ (state_value GOT_HELLO <= state_value (mState q)
      /\ sequence amsg <> mRecvMacSeq q
      /\ run (recvMessage Sample.app amsg) q
         = Some (tt, {| self := q; events := []; draws := 0 |})
      /\ mRecvMacSeq q <> wrap64 (mRecvMacSeq q + 1)).
Proof. vm_compute. repeat split; discriminate. Qed.

(** ** C3: frames that carry no MAC *)

(** C3. [sendAuthenticatedMessage] gives a HELLO or an ERROR_MSG sequence 0
    and a zero MAC and leaves [mSendMacSeq] alone; every other message
    gets the current [mSendMacSeq] and the HMAC of that number and the
    message under [mSendMacKey], and [mSendMacSeq] moves on by one. A
    received ERROR_MSG goes to [recvMessage(HcnetMessage)] whatever its
    sequence and MAC fields hold, and does not advance [mRecvMacSeq]. *)
Theorem hello_and_error_bypass_mac
    (app : Application) (w : World) (m : HcnetMessage)
    (seq tag : Z) (code : ErrorCode) (text : string) :
  sendAuthenticatedMessage app m w =
    Some (tt,
          if bool_decide (type_of m = HELLO) || bool_decide (type_of m = ERROR_MSG)
          then {| self := self w;
                  events := events w ++ [EvWrite {| sequence := 0; message := m; mac := 0 |}];
                  draws := draws w |}
          else {| self := set_mSendMacSeq (wrap64 (mSendMacSeq (self w) + 1)) (self w);
                  events := events w ++
                    [EvWrite {| sequence := mSendMacSeq (self w);
                                message := m;
                                mac := hmacSha256 app (mSendMacKey (self w))
                                         (xdr_to_opaque app (mSendMacSeq (self w)) m) |}];
                  draws := draws w |})
  /\ recvMessage app {| sequence := seq; message := MsgError code text; mac := tag |} w =
       recvMessage_HcnetMessage app (MsgError code text) w
  /\ match recvMessage app {| sequence := seq; message := MsgError code text; mac := tag |} w with
     | Some (_, w') => mRecvMacSeq (self w') = mRecvMacSeq (self w)
     | None => True
     end.
Proof.
  split; [apply sendAuthenticatedMessage_eq|].
  assert (E : recvMessage app {| sequence := seq; message := MsgError code text; mac := tag |} w =
              recvMessage_HcnetMessage app (MsgError code text) w).
  { unfold recvMessage. unfold bind at 1. unfold get at 1.
    destruct (shouldAbort app (self w)) eqn:Hab.
    - unfold recvMessage_HcnetMessage. unfold bind at 1. unfold get at 1.
      rewrite Hab. reflexivity.
    - unfold bind at 1. unfold get at 1. simpl. rewrite andb_false_r. reflexivity. }
  split; [exact E|]. rewrite E.
  destruct (recvMessage_HcnetMessage app (MsgError code text) w) as [[[] w']|] eqn:H;
    [|exact I].
  revert H. unfold recvMessage_HcnetMessage.
  apply keeps_bind; [apply keeps_get|intros []]; [apply keeps_ret|].
  simpl. rewrite andb_false_r.
  apply keeps_bind; [apply keeps_mRecvMacSeq_beginMessageProcessing|intros _].
  apply keeps_emit.
Qed.

(** ** C2: a HELLO that fails a check *)

Lemma only_send_state_inv {A} (f : Peer -> A) p p' :
  send_invariant f -> only_send_state p p' -> f p' = f p.
Proof. intros Hf ->. apply Hf. Qed.

Lemma sendHello_spec app w :
  exists w', sendHello app w = Some (tt, w')
    /\ sends_only w w' [EvSend (ourHello app (self w))].
Proof.
  unfold sendHello. unfold bind at 1. unfold get at 1.
  apply sendMessage_sends_only.
Qed.

(** C2 (as amended). For a HELLO that fails a handshake check, in any
    state of the session. A HELLO received in GOT_HELLO or later is
    dropped as unexpected before any check. Before that: a certificate
    that does not verify, or a banned identity, makes the node drop the
    connection ignoring the write queue without sending any error; an
    overlay version mismatch, our own identity, or another network makes
    it pass ERR_CONF to [sendMessage] and then drop, on the responder side
    after its own HELLO and flushing the write queue, on the initiator
    side ignoring the write queue; unless the remote address cannot be
    determined, in which case the node only drops, ignoring the write
    queue, and sends neither its HELLO nor an error. [recvHello] always
    returns and leaves the session CLOSING. *)
Theorem recvHello_rejects (app : Application) (w : World) (elo : Hello) (f : HelloFailure) :
  failed_check app elo = Some f ->
  exists w' added,
    recvHello app elo w = Some (tt, w')
    /\ events w' = events w ++ added
    /\ calls added = refusal app (self w) f
    /\ mState (self w') = CLOSING.
Proof.
  intros Hf. unfold refusal.
  destruct (state_value GOT_HELLO <=? state_value (mState (self w))) eqn:Hst.
  { rewrite recvHello_unexpected by (apply Z.leb_le; exact Hst).
    destruct (drop_spec "received unexpected HELLO" WE_DROPPED_REMOTE IGNORE_WRITE_QUEUE w)
      as (p' & -> & St & _).
    eexists _, [_]. split; [reflexivity|]. simpl. repeat split. exact St. }
  unfold recvHello. unfold bind at 1. unfold get at 1. rewrite Hst.
  unfold failed_check in Hf.
  destruct (verifyRemoteAuthCert app (peerID elo) (cert elo)) eqn:Hv; simpl in Hf |- *.
  2:{ injection Hf as <-.
      destruct (drop_spec "failed to verify auth cert" WE_DROPPED_REMOTE IGNORE_WRITE_QUEUE w)
        as (p' & -> & St & _).
      eexists _, [_]. split; [reflexivity|]. simpl. repeat split. exact St. }
  destruct (isBanned app (peerID elo)) eqn:Hb; simpl in Hf |- *.
  { injection Hf as <-.
    destruct (drop_spec "node is banned" WE_DROPPED_REMOTE IGNORE_WRITE_QUEUE w)
        as (p' & -> & St & _).
      eexists _, [_]. split; [reflexivity|]. simpl. repeat split. exact St. }
  assert (Hlate : match f with BadCert | BannedPeer => False | _ => True end).
  { repeat match type of Hf with
           | (if ?c then _ else _) = _ => destruct c
           end; try discriminate; injection Hf as <-; exact I. }
  unfold_monad. simpl.
  destruct (decide (getIP app = "")) as [Hip|Hip]; simpl.
  { match goal with
    | |- context [drop ?r ?d ?md ?w0] =>
        destruct (drop_spec r d md w0) as (p' & -> & St & _)
    end.
    eexists _, [_]. split; [reflexivity|]. simpl.
    split; [reflexivity|]. split; [|exact St].
    destruct f; first [contradiction | reflexivity]. }
  assert (Hinv1 : send_invariant mRemoteOverlayVersion) by (intros ? ? ? ?; reflexivity).
  assert (Hinv2 : send_invariant mRemoteOverlayMinVersion) by (intros ? ? ? ?; reflexivity).
  destruct (decide (mRole (self w) = REMOTE_CALLED_US)) as [R|R]; simpl.
  - match goal with
    | |- context [sendHello app ?w0] =>
        destruct (sendHello_spec app w0) as (w2 & Hs & [S D (tail & E & C)]); rewrite Hs
    end.
    simpl in S, D, E |- *.
    rewrite (only_send_state_inv _ _ _ Hinv1 S), (only_send_state_inv _ _ _ Hinv2 S).
    simpl.
    repeat match type of Hf with
           | (if ?c then _ else _) = _ => destruct c; simpl in Hf |- *
           end;
      try discriminate; injection Hf as <-;
      match goal with
      | |- context [sendErrorAndDrop app ?c ?t ?m ?w0] =>
          destruct (sendErrorAndDrop_spec app c t m w0)
            as (w' & added & Hd & Ev & Cl & St & _); rewrite Hd;
          exists w', (([EvSend (ourHello app (self w))] ++ tail) ++ added);
          (split; [reflexivity|]);
          (split; [rewrite Ev, E, <- !app_assoc; reflexivity|]);
          (split; [|exact St]);
          rewrite !calls_app, C, Cl; unfold rejection, failure_reason;
          destruct (decide (mRole (self w) = REMOTE_CALLED_US)); [|contradiction];
          reflexivity
      end.
  - repeat match type of Hf with
           | (if ?c then _ else _) = _ => destruct c; simpl in Hf |- *
           end;
      try discriminate; injection Hf as <-;
      match goal with
      | |- context [sendErrorAndDrop app ?c ?t ?m ?w0] =>
          destruct (sendErrorAndDrop_spec app c t m w0)
            as (w' & added & Hd & Ev & Cl & St & _); rewrite Hd;
          exists w', added;
          (split; [reflexivity|]);
          (split; [exact Ev|]);
          (split; [|exact St]);
          rewrite Cl; unfold rejection, failure_reason;
          destruct (decide (mRole (self w) = REMOTE_CALLED_US)); [contradiction|];
          reflexivity
      end.
Qed.

Lemma recvHello_rejects_witness :
  exists w' added,
    recvHello Sample.app (Sample.hello_from 1001)
      {| self := Sample.fresh; events := []; draws := 0 |} = Some (tt, w')
    /\ events w' = [] ++ added
    /\ calls added =
         [EvSend (ourHello Sample.app Sample.fresh);
          EvSend (MsgError ERR_CONF "connecting to self");
          EvDrop "connecting to self" WE_DROPPED_REMOTE FLUSH_WRITE_QUEUE]
    /\ mState (self w') = CLOSING.
Proof.
  apply (recvHello_rejects Sample.app
           {| self := Sample.fresh; events := []; draws := 0 |}
           (Sample.hello_from 1001) SelfConnect).
  vm_compute. reflexivity.
Defined.


(** C2 as stated fails twice. A HELLO whose certificate does not verify
    is answered by a drop alone, ignoring the write queue: no ERR_CONF is
    sent. An initiator that receives a HELLO with its own identity sends
    ERR_CONF but drops ignoring the write queue, not flushing it. *)
Lemma recvHello_counterexample :
  let forged :=
    {| ledgerVersion := 20; overlayVersion := 30; overlayMinVersion := 27;
       networkID := 5; versionStr := "remote"; listeningPort := 11626;
       peerID := 2002; cert := {| cert_pubkey := 9; cert_expiration := 0; cert_sig := 0 |};
       nonce := 77 |} in
  failed_check Sample.app forged = Some BadCert
  /\ option_map (fun r => events (snd r)) (run (recvHello Sample.app forged) Sample.fresh)
     = Some [EvDrop "failed to verify auth cert" WE_DROPPED_REMOTE IGNORE_WRITE_QUEUE]
  /\ failed_check Sample.app (Sample.hello_from 1001) = Some SelfConnect
  /\ option_map (fun r => calls (events (snd r)))
       (run (recvHello Sample.app (Sample.hello_from 1001)) Sample.initiator)
     = Some [EvSend (MsgError ERR_CONF "connecting to self");
             EvDrop "connecting to self" WE_DROPPED_REMOTE IGNORE_WRITE_QUEUE].
Proof. vm_compute. repeat split. Qed.

(** A responder that cannot determine the address of its peer: a HELLO
    with a version range it does not support is answered by a drop alone. *)
Example unknown_address_no_error :
  let old := {| ledgerVersion := 20; overlayVersion := 26; overlayMinVersion := 20;
                networkID := 5; versionStr := "remote"; listeningPort := 11626;
                peerID := 2002;
                cert := {| cert_pubkey := 9; cert_expiration := 0; cert_sig := 2011 |};
                nonce := 77 |} in
  failed_check (with_getIP "" Sample.app) old = Some VersionMismatch
  /\ option_map (fun r => events (snd r))
       (run (recvHello (with_getIP "" Sample.app) old) Sample.fresh)
     = Some [EvDrop "failed to determine remote address" WE_DROPPED_REMOTE
               IGNORE_WRITE_QUEUE].
Proof. vm_compute. split; reflexivity. Qed.

(** ** C4 and C5: local capacity *)

Lemma getMsgResourceCount_set_mCapacity app cap c m :
  Capacity.getMsgResourceCount app (Capacity.set_mCapacity cap c) m =
  Capacity.getMsgResourceCount app c m.
Proof. destruct c; reflexivity. Qed.

Lemma mCapacity_set_mCapacity cap c :
  Capacity.mCapacity (Capacity.set_mCapacity cap c) = cap.
Proof. destruct c; reflexivity. Qed.

Lemma set_mCapacity_twice cap cap' c :
  Capacity.set_mCapacity cap (Capacity.set_mCapacity cap' c) = Capacity.set_mCapacity cap c.
Proof. destruct c; reflexivity. Qed.

Lemma set_mCapacity_same c : Capacity.set_mCapacity (Capacity.mCapacity c) c = c.
Proof. destruct c; reflexivity. Qed.

Lemma charge_total_untracked app m c :
  Capacity.mTotalCapacity (Capacity.mCapacity c) = None -> charge_total app m c = c.
Proof.
  unfold charge_total. destruct c as [[f t] o|[f t] o l]; simpl; intros ->; reflexivity.
Qed.

Lemma charge_flood_not_flood app m c :
  isFloodMessage m = false -> charge_flood app m c = c.
Proof.
  unfold charge_flood, flood_cost. intros ->. rewrite Z.sub_0_r.
  destruct c as [[f t] o|[f t] o l]; reflexivity.
Qed.

Lemma getMsgResourceCount_charge_total app m c m' :
  Capacity.getMsgResourceCount app (charge_total app m c) m' =
  Capacity.getMsgResourceCount app c m'.
Proof. apply getMsgResourceCount_set_mCapacity. Qed.

Lemma lockLocalCapacity_spec app m c :
  lock_asserts app m c ->
  Capacity.lockLocalCapacity app m c =
  Some (negb (short_of app m c),
        if short_of app m c
        then charge_total app m c
        else charge_flood app m (charge_total app m c)).
Proof.
  intros [Hflood Htotal].
  assert (E : Capacity.lockLocalCapacity app m c =
              let c1 := charge_total app m c in
              if isFloodMessage m
              then if Capacity.mFloodCapacity (Capacity.mCapacity c1)
                      <? Capacity.getMsgResourceCount app c m
                   then Some (false, c1)
                   else Some (true,
                              Capacity.set_mCapacity
                                {| Capacity.mFloodCapacity :=
                                     Capacity.mFloodCapacity (Capacity.mCapacity c1)
                                     - Capacity.getMsgResourceCount app c m;
                                   Capacity.mTotalCapacity :=
                                     Capacity.mTotalCapacity (Capacity.mCapacity c1) |} c1)
              else Some (true, c1)).
  { unfold Capacity.lockLocalCapacity, Capacity.checkCapacityInvariants.
    apply Z.leb_le in Hflood. rewrite Hflood. cbn [Capacity.releaseAssert bindO].
    destruct (Capacity.mTotalCapacity (Capacity.getCapacityLimits app c)) as [limit|],
      (Capacity.mTotalCapacity (Capacity.mCapacity c)) as [total|] eqn:Ht;
      try contradiction.
    - destruct Htotal as [H1 H2]. apply Z.leb_le in H1, H2. rewrite H1, H2.
      cbn [Capacity.releaseAssert bindO].
      unfold charge_total. rewrite Ht. cbn [option_map].
      reflexivity.
    - rewrite bool_decide_true by reflexivity. cbn [Capacity.releaseAssert bindO].
      rewrite (charge_total_untracked app m c Ht). reflexivity. }
  rewrite E. cbv zeta. unfold short_of.
  assert (F : Capacity.mFloodCapacity (Capacity.mCapacity (charge_total app m c))
              = Capacity.mFloodCapacity (Capacity.mCapacity c)).
  { unfold charge_total. rewrite mCapacity_set_mCapacity. reflexivity. }
  destruct (isFloodMessage m) eqn:Hfl; cbn [andb negb].
  - unfold charge_flood, flood_cost. rewrite Hfl.
    rewrite !getMsgResourceCount_charge_total, !F.
    destruct (_ <? _); reflexivity.
  - rewrite charge_flood_not_flood by exact Hfl. reflexivity.
Qed.

Lemma beginMessageProcessing_fc_spec app m fc :
  lock_asserts app m (FlowControl.mFlowControlCapacity fc) ->
  (forall b, FlowControl.mFlowControlBytesCapacity fc = Some b -> lock_asserts app m b) ->
  FlowControl.beginMessageProcessing app m fc =
  let msgs := FlowControl.mFlowControlCapacity fc in
  if short_of app m msgs
  then Some (false,
             FlowControl.set_capacities (charge_total app m msgs)
               (FlowControl.mFlowControlBytesCapacity fc) fc)
  else
    match FlowControl.mFlowControlBytesCapacity fc with
    | Some b =>
        Some (negb (short_of app m b),
              FlowControl.set_capacities (charge_flood app m (charge_total app m msgs))
                (Some (if short_of app m b
                       then charge_total app m b
                       else charge_flood app m (charge_total app m b))) fc)
    | None =>
        Some (true,
              FlowControl.set_capacities (charge_flood app m (charge_total app m msgs))
                None fc)
    end.
Proof.
  intros Hm Hb. unfold FlowControl.beginMessageProcessing.
  rewrite (lockLocalCapacity_spec app m _ Hm). cbn [bindO]. cbv zeta.
  destruct (short_of app m (FlowControl.mFlowControlCapacity fc)); cbn [negb];
    [reflexivity|].
  destruct (FlowControl.mFlowControlBytesCapacity fc) as [b|] eqn:E; [|reflexivity].
  rewrite (lockLocalCapacity_spec app m b (Hb b eq_refl)). reflexivity.
Qed.

(** C4. When processing of a received message begins and the assertions
    of [lockLocalCapacity] hold: if the message is flood-class and the flood
    capacity of the message axis, or of the byte axis when it is enabled, is
    smaller than the message's cost there (1, or the encoded size), the
    connection is dropped with "unexpected flood message, peer at capacity",
    ignoring the write queue; otherwise nothing is dropped and the flood
    capacity of each enabled axis goes down by the cost of a flood message,
    and by nothing for a message that is not flood-class. *)
Theorem beginMessageProcessing_flood_capacity
    (app : Application) (m : HcnetMessage) (w : World) :
  let fc := mFlowControl (self w) in
  lock_asserts app m (FlowControl.mFlowControlCapacity fc) ->
  (forall b, FlowControl.mFlowControlBytesCapacity fc = Some b -> lock_asserts app m b) ->
  exists w',
    beginMessageProcessing app m w = Some (tt, w')
    /\ if at_capacity app m fc
       then
         events w' = events w ++
           [EvDrop "unexpected flood message, peer at capacity"
              WE_DROPPED_REMOTE IGNORE_WRITE_QUEUE]
         /\ mState (self w') = CLOSING
       else
         events w' = events w
         /\ mState (self w') = mState (self w)
         /\ floodCapacity (FlowControl.mFlowControlCapacity (mFlowControl (self w')))
            = floodCapacity (FlowControl.mFlowControlCapacity fc)
              - flood_cost app (FlowControl.mFlowControlCapacity fc) m
         /\ option_map floodCapacity
              (FlowControl.mFlowControlBytesCapacity (mFlowControl (self w')))
            = option_map (fun b => floodCapacity b - flood_cost app b m)
                (FlowControl.mFlowControlBytesCapacity fc).
Proof.
  intros fc Hm Hb. unfold beginMessageProcessing.
  unfold bind at 1. unfold get at 1.
  unfold bind at 1. unfold lift at 1. fold fc.
  rewrite (beginMessageProcessing_fc_spec app m fc Hm Hb). cbv zeta.
  unfold at_capacity.
  assert (Fl : forall c, floodCapacity (charge_flood app m (charge_total app m c))
                         = floodCapacity c - flood_cost app c m).
  { intros c. unfold floodCapacity, charge_flood, flood_cost.
    rewrite mCapacity_set_mCapacity. cbn [Capacity.mFloodCapacity].
    rewrite getMsgResourceCount_charge_total.
    unfold charge_total. rewrite mCapacity_set_mCapacity. reflexivity. }
  destruct (short_of app m (FlowControl.mFlowControlCapacity fc)) eqn:Sm; cbn [orb].
  - unfold bind at 1. unfold modify at 1. cbn [self events draws].
    match goal with
    | |- context [drop ?r ?d ?md ?w0] =>
        destruct (drop_spec r d md w0) as (p' & -> & St & _)
    end.
    eexists. split; [reflexivity|]. cbn [self events]. split; [reflexivity|exact St].
  - destruct (FlowControl.mFlowControlBytesCapacity fc) as [b|] eqn:Eb.
    + destruct (short_of app m b) eqn:Sb; cbn [negb].
      * unfold bind at 1. unfold modify at 1. cbn [self events draws].
        match goal with
        | |- context [drop ?r ?d ?md ?w0] =>
            destruct (drop_spec r d md w0) as (p' & -> & St & _)
        end.
        eexists. split; [reflexivity|]. cbn [self events]. split; [reflexivity|exact St].
      * unfold bind at 1. unfold modify at 1. cbn [self events draws].
        unfold skip, ret. eexists. split; [reflexivity|]. cbn [self events].
        split; [reflexivity|]. split; [reflexivity|].
        simpl. rewrite !Fl. split; reflexivity.
    + unfold bind at 1. unfold modify at 1. cbn [self events draws].
      unfold skip, ret. eexists. split; [reflexivity|]. cbn [self events].
      split; [reflexivity|]. split; [reflexivity|].
      simpl. rewrite !Fl. split; reflexivity.
Qed.

Example after_auth_state :
  mState (self after_auth) = GOT_AUTH
  /\ mRecvMacSeq (self after_auth) = 1
  /\ calls (events after_auth) =
       [EvSend (ourHello Sample.app Sample.fresh);
        EvSend (MsgAuth 200);
        EvSend (MsgSendMoreExtended 200 300000);
        EvSend (MsgGetSCPState 10)].
Proof. vm_compute. repeat split. Qed.

Lemma beginMessageProcessing_flood_capacity_witness :
  let fc := mFlowControl (self after_auth) in
  exists w',
    beginMessageProcessing Sample.app (MsgTransaction 7) after_auth = Some (tt, w')
    /\ if at_capacity Sample.app (MsgTransaction 7) fc
       then
         events w' = events after_auth ++
           [EvDrop "unexpected flood message, peer at capacity"
              WE_DROPPED_REMOTE IGNORE_WRITE_QUEUE]
         /\ mState (self w') = CLOSING
       else
         events w' = events after_auth
         /\ mState (self w') = mState (self after_auth)
         /\ floodCapacity (FlowControl.mFlowControlCapacity (mFlowControl (self w')))
            = floodCapacity (FlowControl.mFlowControlCapacity fc)
              - flood_cost Sample.app (FlowControl.mFlowControlCapacity fc) (MsgTransaction 7)
         /\ option_map floodCapacity
              (FlowControl.mFlowControlBytesCapacity (mFlowControl (self w')))
            = option_map (fun b => floodCapacity b - flood_cost Sample.app b (MsgTransaction 7))
                (FlowControl.mFlowControlBytesCapacity fc).
Proof.
  apply (beginMessageProcessing_flood_capacity Sample.app (MsgTransaction 7) after_auth).
  - vm_compute. repeat split; discriminate.
  - intros b Hb. vm_compute in Hb. injection Hb as <-.
    vm_compute. repeat split; discriminate.
Defined.

(** *** Returning capacity *)

Lemma getCapacityLimits_set_mCapacity app cap c :
  Capacity.getCapacityLimits app (Capacity.set_mCapacity cap c) =
  Capacity.getCapacityLimits app c.
Proof. destruct c; reflexivity. Qed.

Lemma checkCapacityInvariants_ok app c :
  Capacity.mFloodCapacity (Capacity.mCapacity c)
    <= Capacity.mFloodCapacity (Capacity.getCapacityLimits app c) ->
  match Capacity.mTotalCapacity (Capacity.getCapacityLimits app c),
        Capacity.mTotalCapacity (Capacity.mCapacity c) with
  | Some limit, Some total => total <= limit
  | None, None => True
  | _, _ => False
  end ->
  Capacity.checkCapacityInvariants app c = Some tt.
Proof.
  intros Hflood Htotal. unfold Capacity.checkCapacityInvariants.
  apply Z.leb_le in Hflood. rewrite Hflood. cbn [Capacity.releaseAssert bindO].
  destruct (Capacity.mTotalCapacity (Capacity.getCapacityLimits app c)) as [limit|],
    (Capacity.mTotalCapacity (Capacity.mCapacity c)) as [total|];
    try contradiction.
  - apply Z.leb_le in Htotal. rewrite Htotal. reflexivity.
  - rewrite bool_decide_true by reflexivity. reflexivity.
Qed.

Lemma releaseLocalCapacity_spec app m c :
  release_asserts app m c ->
  Capacity.releaseLocalCapacity app m c = Some (flood_cost app c m, refund app m c).
Proof.
  intros [Hflood Htotal].
  assert (E : forall c2, c2 = refund app m c ->
            Capacity.releaseLocalCapacity app m c =
            (let? _ := Capacity.checkCapacityInvariants app c2 in
             Some (flood_cost app c m, c2))).
  { intros c2 ->. unfold Capacity.releaseLocalCapacity, refund, flood_cost.
    destruct (Capacity.mTotalCapacity (Capacity.mCapacity c)) as [total|] eqn:Ht;
      cbn [option_map].
    - rewrite !mCapacity_set_mCapacity, !set_mCapacity_twice.
      cbn [Capacity.mFloodCapacity Capacity.mTotalCapacity].
      destruct (isFloodMessage m); [reflexivity|].
      reflexivity.
    - destruct (isFloodMessage m).
      + rewrite Ht. reflexivity.
      + assert (Hc : Capacity.set_mCapacity
                 {| Capacity.mFloodCapacity := Capacity.mFloodCapacity (Capacity.mCapacity c);
                    Capacity.mTotalCapacity := None |} c = c).
        { destruct c as [[f t] o|[f t] o l]; simpl in *; subst; reflexivity. }
        rewrite Hc. reflexivity. }
  rewrite (E _ eq_refl).
  rewrite checkCapacityInvariants_ok; [reflexivity| |].
  - unfold refund at 2. rewrite getCapacityLimits_set_mCapacity. exact Hflood.
  - unfold refund at 1. rewrite getCapacityLimits_set_mCapacity. exact Htotal.
Qed.

(** Within the 64-bit range the refund undoes the charges of
    [lockLocalCapacity]. *)
Lemma refund_charge app m c :
  0 <= Capacity.mFloodCapacity (Capacity.mCapacity c) < 2 ^ 64 ->
  (forall total, Capacity.mTotalCapacity (Capacity.mCapacity c) = Some total ->
                 0 <= total < 2 ^ 64) ->
  refund app m (charge_flood app m (charge_total app m c)) = c.
Proof.
  intros Hf Ht.
  assert (W : forall x y, 0 <= x < 2 ^ 64 -> wrap64 (x - y + y) = x).
  { intros x y Hx. unfold wrap64. replace (x - y + y) with x by lia.
    apply Z.mod_small. exact Hx. }
  destruct c as [[flood total] out|[flood total] out lim];
    unfold refund, charge_flood, charge_total, flood_cost; simpl in *;
    (destruct total as [total|];
     [specialize (Ht total eq_refl)|]);
    destruct (isFloodMessage m); simpl;
    rewrite ?W, ?Z.sub_0_r by assumption; reflexivity.
Qed.

Lemma keeps_for_each_Forall {A B} (f : Peer -> A) (xs : list B) (body : B -> M unit) :
  Forall (fun x => keeps f (body x)) xs -> keeps f (for_each xs body).
Proof.
  induction 1 as [|x rest Hx _ IH]; simpl.
  - apply keeps_ret.
  - apply keeps_bind; [exact Hx|intros _; exact IH].
Qed.

(** A message that is not flood-class passes the flow controller by. *)
Lemma sendMessage_not_flood_keeps_mFlowControl app m :
  isFloodMessage m = false -> keeps mFlowControl (sendMessage app m).
Proof.
  intros Hnf w [] w' H. unfold sendMessage in H. unfold_monad. simpl in H.
  destruct (bool_decide (currentSchedulerActionType app = DROPPABLE_ACTION)
            && sendQueueIsOverloaded app (written (events w ++ [EvSend m]))); simpl in H.
  - injection H as <-. reflexivity.
  - unfold FlowControl.maybeSendMessage in H. rewrite Hnf in H. simpl in H.
    rewrite sendAuthenticatedMessage_eq in H. injection H as <-.
    destruct (is_exempt m); reflexivity.
Qed.

Lemma endMessageProcessing_fc_spec app m fc :
  release_asserts app m (FlowControl.mFlowControlCapacity fc) ->
  (forall b, FlowControl.mFlowControlBytesCapacity fc = Some b -> release_asserts app m b) ->
  exists fc' grants,
    FlowControl.endMessageProcessing app m fc = Some (fc', grants)
    /\ FlowControl.mFlowControlCapacity fc' = refund app m (FlowControl.mFlowControlCapacity fc)
    /\ FlowControl.mFlowControlBytesCapacity fc'
       = option_map (refund app m) (FlowControl.mFlowControlBytesCapacity fc)
    /\ Forall (fun g => isFloodMessage g = false) grants.
Proof.
  intros Hm Hb. unfold FlowControl.endMessageProcessing.
  rewrite (releaseLocalCapacity_spec app m _ Hm). cbn [bindO].
  destruct (FlowControl.mFlowControlBytesCapacity fc) as [b|] eqn:Eb.
  - rewrite (releaseLocalCapacity_spec app m b (Hb b eq_refl)). cbn [bindO].
    eexists _, _. split; [reflexivity|]. cbn [FlowControl.mFlowControlCapacity
      FlowControl.mFlowControlBytesCapacity option_map].
    split; [reflexivity|]. split; [reflexivity|].
    destruct (_ || _); repeat constructor.
  - cbn [bindO]. eexists _, _. split; [reflexivity|].
    cbn [FlowControl.mFlowControlCapacity FlowControl.mFlowControlBytesCapacity option_map].
    split; [reflexivity|]. split; [reflexivity|].
    destruct (_ || _); [|constructor].
    rewrite bool_decide_false by (intros [? ?]; discriminate). repeat constructor.
Qed.

(** Destroying a tracker in a session that is CLOSING, or whose overlay
    is shutting down, changes nothing. *)
Lemma MsgCapacityTracker_delete_aborting app m w :
  shouldAbort app (self w) = true ->
  MsgCapacityTracker_delete app m w = Some (tt, w).
Proof.
  intros Hab. unfold MsgCapacityTracker_delete, endMessageProcessing.
  unfold bind at 1. unfold get at 1. rewrite Hab. reflexivity.
Qed.

(** C5 (as amended). A received message that is not part of the handshake
    gets its capacity tracker, which locks the capacity, before it is
    posted, or before it is discarded at once because the ledger is out of
    sync and the message is droppable flood traffic; in the latter case the
    tracker is destroyed on the spot. When a tracker is destroyed while
    the session is neither CLOSING nor in a shutting-down overlay, and the
    assertions of the release hold, each enabled axis gets back the cost of
    the message: the total budget, and for a flood-class message the flood
    capacity. Within the 64-bit range this is what the lock had taken. *)
Theorem capacity_tracker_returns_capacity
    (app : Application) (m : HcnetMessage) (w : World) :
  let fc := mFlowControl (self w) in
  let msgs := FlowControl.mFlowControlCapacity fc in
  let bytes := FlowControl.mFlowControlBytesCapacity fc in
  is_handshake m = false ->
  shouldAbort app (self w) = false ->
  release_asserts app m msgs ->
  (forall b, bytes = Some b -> release_asserts app m b) ->
  Capacity.canRead (refund app m msgs) = Some true ->
  (forall b, bytes = Some b -> Capacity.canRead (refund app m b) = Some true) ->
  recvMessage_HcnetMessage app m w =
    (MsgCapacityTracker_new app m ;;
     if negb (isSynced app) && ignoreIfOutOfSync m
     then MsgCapacityTracker_delete app m
     else emit (EvPost (RecvMessageTask m (fst (fst (categorize (type_of m)))))
                  (fst (fst (categorize (type_of m))) +:+ " recvMessage")
                  (Some (snd (fst (categorize (type_of m))))))) w
  /\ (exists w',
        MsgCapacityTracker_delete app m w = Some (tt, w')
        /\ FlowControl.mFlowControlCapacity (mFlowControl (self w')) = refund app m msgs
        /\ FlowControl.mFlowControlBytesCapacity (mFlowControl (self w'))
           = option_map (refund app m) bytes
        /\ mState (self w') = mState (self w))
  /\ (forall c : Capacity.t,
        0 <= Capacity.mFloodCapacity (Capacity.mCapacity c) < 2 ^ 64 ->
        (forall total, Capacity.mTotalCapacity (Capacity.mCapacity c) = Some total ->
                       0 <= total < 2 ^ 64) ->
        refund app m (charge_flood app m (charge_total app m c)) = c).
Proof.
  intros fc msgs bytes Hh Hab Hm Hb Hrm Hrb. split; [|split].
  - unfold recvMessage_HcnetMessage.
    unfold bind at 1. unfold get at 1. rewrite Hab.
    unfold is_handshake, ignoreIfOutOfSync in *.
    destruct m; try discriminate; reflexivity.
  - unfold msgs, bytes in *. clear msgs bytes.
    unfold MsgCapacityTracker_delete, endMessageProcessing.
    unfold bind at 1. unfold get at 1. rewrite Hab.
    unfold bind at 1. unfold get at 1.
    unfold bind at 1. unfold lift at 1.
    destruct (endMessageProcessing_fc_spec app m fc Hm Hb)
      as (fc' & grants & E & Cm & Cb & Hg).
    fold fc. rewrite E. cbv beta iota.
    unfold bind at 1. unfold modify at 1. cbn [self events draws].
    unfold bind at 1.
    match goal with
    | |- context [for_each grants (sendMessage app) ?w0] =>
        destruct (for_each grants (sendMessage app) w0) as [[[] w1]|] eqn:Hsend
    end.
    2:{ exfalso. revert Hsend. clear. generalize dependent grants.
        intros grants. match goal with |- for_each _ _ ?w0 = None -> _ => generalize w0 end.
        induction grants as [|g rest IH]; intros w0; simpl; [discriminate|].
        unfold bind at 1.
        destruct (sendMessage_sends_only app g w0) as [w1 [-> _]]. apply IH. }
    assert (Hfc : mFlowControl (self w1) = fc').
    { assert (K : keeps mFlowControl (for_each grants (sendMessage app))).
      { apply keeps_for_each_Forall. eapply Forall_impl; [exact Hg|].
        intros g Hgf. apply sendMessage_not_flood_keeps_mFlowControl. exact Hgf. }
      rewrite (K _ _ _ Hsend). reflexivity. }
    assert (Hst : mState (self w1) = mState (self w)).
    { assert (K : keeps mState (for_each grants (sendMessage app))).
      { apply keeps_for_each. intros g. apply keeps_sendMessage.
        intros ? ? ? ?. reflexivity. }
      rewrite (K _ _ _ Hsend). reflexivity. }
    unfold canRead. unfold bind at 1. unfold bind at 1. unfold get at 1.
    rewrite Hfc. unfold lift at 1. unfold FlowControl.canRead.
    rewrite Cm, Hrm. cbn [bindO].
    assert (Hcr : match FlowControl.mFlowControlBytesCapacity fc' with
                  | Some b => let? rb := Capacity.canRead b in Some (true && rb)
                  | None => Some true
                  end = Some true).
    { rewrite Cb. destruct (FlowControl.mFlowControlBytesCapacity fc) as [b|];
        [|reflexivity].
      cbn [option_map]. rewrite (Hrb b eq_refl). reflexivity. }
    rewrite Hcr. cbv beta iota.
    unfold bind at 1. unfold releaseAssert at 1.
    unfold bind at 1. unfold get at 1.
    destruct (mIsPeerThrottled (self w1)).
    + unfold bind at 1. unfold modify at 1. unfold emit.
      eexists. split; [reflexivity|]. cbn [self].
      change (mFlowControl (set_mIsPeerThrottled false (self w1)))
        with (mFlowControl (self w1)).
      change (mState (set_mIsPeerThrottled false (self w1))) with (mState (self w1)).
      rewrite Hfc, Cm, Cb, Hst. repeat split.
    + unfold skip, ret. exists w1. split; [reflexivity|].
      rewrite Hfc, Cm, Cb, Hst. repeat split.
  - intros c. apply refund_charge.
Qed.

Lemma capacity_tracker_returns_capacity_witness :
  let m := MsgTransaction 7 in
  let fc := mFlowControl (self in_flight) in
  let msgs := FlowControl.mFlowControlCapacity fc in
  let bytes := FlowControl.mFlowControlBytesCapacity fc in
  recvMessage_HcnetMessage Sample.app m in_flight =
    (MsgCapacityTracker_new Sample.app m ;;
     if negb (isSynced Sample.app) && ignoreIfOutOfSync m
     then MsgCapacityTracker_delete Sample.app m
     else emit (EvPost (RecvMessageTask m (fst (fst (categorize (type_of m)))))
                  (fst (fst (categorize (type_of m))) +:+ " recvMessage")
                  (Some (snd (fst (categorize (type_of m))))))) in_flight
  /\ (exists w',
        MsgCapacityTracker_delete Sample.app m in_flight = Some (tt, w')
        /\ FlowControl.mFlowControlCapacity (mFlowControl (self w')) = refund Sample.app m msgs
        /\ FlowControl.mFlowControlBytesCapacity (mFlowControl (self w'))
           = option_map (refund Sample.app m) bytes
        /\ mState (self w') = mState (self in_flight))
  /\ (forall c : Capacity.t,
        0 <= Capacity.mFloodCapacity (Capacity.mCapacity c) < 2 ^ 64 ->
        (forall total, Capacity.mTotalCapacity (Capacity.mCapacity c) = Some total ->
                       0 <= total < 2 ^ 64) ->
        refund Sample.app m (charge_flood Sample.app m (charge_total Sample.app m c)) = c).
Proof.
  apply (capacity_tracker_returns_capacity Sample.app (MsgTransaction 7) in_flight).
  - reflexivity.
  - reflexivity.
  - vm_compute. repeat split; discriminate.
  - intros b Hb. vm_compute in Hb. injection Hb as <-.
    vm_compute. repeat split; discriminate.
  - reflexivity.
  - intros b Hb. vm_compute in Hb. injection Hb as <-. reflexivity.
Defined.

Example tracker_round_trip :
  capacities after_auth = (200, Some 201, Some 300000)
  /\ capacities in_flight = (199, Some 200, Some 299988)
  /\ option_map (fun r => capacities (snd r))
       (MsgCapacityTracker_delete Sample.app (MsgTransaction 7) in_flight)
     = Some (200, Some 201, Some 300000).
Proof. vm_compute. repeat split. Qed.

(** C5 as stated fails when the tracker dies in a closing session. Here
    the ledger is out of sync and a TRANSACTION arrives that the flood
    capacity does not cover: the tracker charges the total budget, the
    connection is dropped, the message is discarded at once, and the
    destructor returns nothing: the total budget stays one lower. *)
Lemma capacity_tracker_counterexample :
  let out_of_sync := Sample.make_app (seconds 1000) false false in
  is_handshake (MsgTransaction 7) = false
  /\ shouldAbort out_of_sync (self flood_spent) = false
  /\ capacities flood_spent = (0, Some 201, Some 300000)
  /\ option_map (fun r => (capacities (snd r), events (snd r), mState (self (snd r))))
       (recvMessage_HcnetMessage out_of_sync (MsgTransaction 7) flood_spent)
     = Some ((0, Some 200, Some 300000),
             [EvDrop "unexpected flood message, peer at capacity"
                WE_DROPPED_REMOTE IGNORE_WRITE_QUEUE],
             CLOSING).
Proof. vm_compute. repeat split. Qed.

(** ** C6: the byte axis *)

Lemma sendPeers_spec app w :
  Z.of_nat (length (getPeersToSend app (Z.min 50 (PEERS_MAX_SIZE app)) (mAddress (self w))))
    <= Z.min 50 (PEERS_MAX_SIZE app) ->
  exists w', sendPeers app w = Some (tt, w')
    /\ only_send_state (self w) (self w').
Proof.
  intros H. unfold sendPeers. cbv zeta.
  unfold bind at 1. unfold get at 1.
  unfold bind at 1. unfold releaseAssert at 1.
  apply Z.leb_le in H. rewrite H.
  destruct (getPeersToSend app _ _) as [|a rest].
  - exists w. split; [reflexivity|apply only_send_state_refl].
  - match goal with
    | |- context [sendMessage app ?m ?w0] =>
        destruct (sendMessage_sends_only app m w0) as [w' [-> [S _ _]]]
    end.
    exists w'. split; [reflexivity|exact S].
Qed.

Lemma bothWantBytes_iff app p flags :
  bothWantBytes app p flags = true <->
  FIRST_VERSION_SUPPORTING_FLOW_CONTROL_IN_BYTES <= OVERLAY_PROTOCOL_VERSION (getConfig app)
  /\ FIRST_VERSION_SUPPORTING_FLOW_CONTROL_IN_BYTES <= mRemoteOverlayVersion p
  /\ flags = AUTH_MSG_FLAG_FLOW_CONTROL_BYTES_REQUESTED app
  /\ ENABLE_FLOW_CONTROL_BYTES (getConfig app) = true.
Proof.
  unfold bothWantBytes. rewrite !andb_true_iff, !Z.leb_le, Z.eqb_eq. tauto.
Qed.

(** An AUTH received in GOT_HELLO from a peer the overlay manager
    accepts: the session enters GOT_AUTH, and the byte axis is enabled
    exactly when [bothWantBytes] holds. *)
Lemma recvAuth_accepted (app : Application) (w : World) (flags : Z) :
  mState (self w) = GOT_HELLO ->
  isEmpty (mAddress (self w)) = false ->
  Z.of_nat (length (getPeersToSend app (Z.min 50 (PEERS_MAX_SIZE app)) (mAddress (self w))))
    <= Z.min 50 (PEERS_MAX_SIZE app) ->
  acceptAuthenticatedPeer app (mPeerID (self w)) = true ->
  exists w',
    recvAuth app flags w = Some (tt, w')
    /\ mState (self w') = GOT_AUTH
    /\ (is_Some (FlowControl.mFlowControlBytesCapacity (mFlowControl (self w'))) <->
        28 <= OVERLAY_PROTOCOL_VERSION (getConfig app)
        /\ 28 <= mRemoteOverlayVersion (self w)
        /\ flags = AUTH_MSG_FLAG_FLOW_CONTROL_BYTES_REQUESTED app
        /\ ENABLE_FLOW_CONTROL_BYTES (getConfig app) = true).
Proof.
  intros Hst Haddr Hpeers Hacc.
  assert (Ia : send_invariant mAddress) by (intros ? ? ? ?; reflexivity).
  assert (Ii : send_invariant mPeerID) by (intros ? ? ? ?; reflexivity).
  assert (Is : send_invariant mState) by (intros ? ? ? ?; reflexivity).
  assert (Iv : send_invariant mRemoteOverlayVersion) by (intros ? ? ? ?; reflexivity).
  assert (Ir : send_invariant mRole) by (intros ? ? ? ?; reflexivity).
  unfold recvAuth.
  unfold bind at 1. unfold get at 1. rewrite Hst.
  rewrite bool_decide_true by reflexivity. cbn [negb].
  unfold bind at 1. unfold get at 1. unfold isAuthenticated at 1. rewrite Hst.
  rewrite bool_decide_false by discriminate.
  unfold bind at 1. unfold modify at 1. cbn [self events draws].
  unfold bind at 1. unfold get at 1. cbn [self events draws].
  change (mRole (set_mState GOT_AUTH (self w))) with (mRole (self w)).
  (* the answer of the responder *)
  assert (Hpre : exists wA,
            (if decide (mRole (self w) = REMOTE_CALLED_US)
             then sendAuth app ;; sendPeers app
             else skip)
              {| self := set_mState GOT_AUTH (self w); events := events w; draws := draws w |}
            = Some (tt, wA)
            /\ only_send_state (set_mState GOT_AUTH (self w)) (self wA)).
  { destruct (decide (mRole (self w) = REMOTE_CALLED_US)).
    - unfold bind at 1. unfold sendAuth.
      match goal with
      | |- context [sendMessage app ?m ?w0] =>
          destruct (sendMessage_sends_only app m w0) as [w1 [-> [S1 _ _]]]
      end.
      cbv beta iota.
      destruct (sendPeers_spec app w1) as (w2 & -> & S2).
      { rewrite (only_send_state_inv _ _ _ Ia S1). exact Hpeers. }
      exists w2. split; [reflexivity|]. eapply only_send_state_trans; eauto.
    - eexists. split; [reflexivity|]. apply only_send_state_refl. }
  destruct Hpre as (wA & HA & SA).
  unfold bind at 1. rewrite HA. cbv beta iota.
  pose proof (only_send_state_inv _ _ _ Ia SA) as EAaddr.
  pose proof (only_send_state_inv _ _ _ Ii SA) as EAid.
  pose proof (only_send_state_inv _ _ _ Is SA) as EAst.
  pose proof (only_send_state_inv _ _ _ Iv SA) as EAver.
  cbn in EAaddr, EAid, EAst, EAver.
  (* the peer record *)
  assert (Hrec : exists evs,
            updatePeerRecordAfterAuthentication wA
            = Some (tt, {| self := self wA; events := evs; draws := draws wA |})).
  { unfold updatePeerRecordAfterAuthentication.
    unfold bind at 1. unfold get at 1.
    unfold bind at 1. unfold releaseAssert at 1.
    change (mAddress (id (self wA))) with (mAddress (self wA)).
    rewrite EAaddr, Haddr. cbn [negb].
    destruct (decide (mRole (id (self wA)) = WE_CALLED_REMOTE)).
    - eexists. reflexivity.
    - exists (events wA). destruct wA. reflexivity. }
  destruct Hrec as (evs & HB).
  unfold bind at 1. rewrite HB. cbv beta iota.
  unfold bind at 1. unfold get at 1. cbn [self events draws].
  change (mPeerID (id (self wA))) with (mPeerID (self wA)).
  rewrite EAid, Hacc. cbn [negb].
  change (mFlowControl (id (self wA))) with (mFlowControl (self wA)).
  unfold FlowControl.start.
  unfold bind at 1. unfold modify at 1. cbn [self events draws].
  unfold bind at 1.
  match goal with
  | |- context [for_each [?g] (sendMessage app) ?w0] =>
      assert (Hg : isFloodMessage g = false) by (destruct (bothWantBytes _ _ _); reflexivity);
      destruct (sendMessage_sends_only app g w0) as [w1 [E1 [S1 _ _]]];
      pose proof (sendMessage_not_flood_keeps_mFlowControl app g Hg _ _ _ E1) as F1;
      cbn [for_each]; unfold bind at 1; rewrite E1
  end.
  unfold skip, ret. cbv beta iota.
  unfold sendGetScpState.
  match goal with
  | |- context [sendMessage app ?g ?w0] =>
      destruct (sendMessage_sends_only app g w0) as [w2 [E2 [S2 _ _]]];
      pose proof (sendMessage_not_flood_keeps_mFlowControl app g eq_refl _ _ _ E2) as F2;
      rewrite E2
  end.
  exists w2. split; [reflexivity|].
  pose proof (only_send_state_inv _ _ _ Is S1) as Est1.
  pose proof (only_send_state_inv _ _ _ Is S2) as Est2.
  cbn in Est1, F1.
  split; [rewrite Est2, Est1; exact EAst|].
  rewrite F2, F1. cbn [FlowControl.mFlowControlBytesCapacity].
  change (id (self wA)) with (self wA).
  rewrite <- bothWantBytes_iff with (p := self w).
  assert (Hb : bothWantBytes app (self wA) flags = bothWantBytes app (self w) flags).
  { unfold bothWantBytes. rewrite EAver. reflexivity. }
  rewrite Hb. destruct (bothWantBytes app (self w) flags); split;
    intros H; try discriminate; try reflexivity; eauto.
  destruct H as [? ?]. discriminate.
Qed.

(** A peer that reports overlay version 27 gets the message axis only,
    though its AUTH asks for byte flow control. *)
Example old_peer_message_axis_only :
  let old := {| ledgerVersion := 20; overlayVersion := 27; overlayMinVersion := 27;
                networkID := 5; versionStr := "remote"; listeningPort := 11626;
                peerID := 2002;
                cert := {| cert_pubkey := 9; cert_expiration := 0; cert_sig := 2011 |};
                nonce := 77 |} in
  option_map (fun r => (mState (self (snd r)),
                        FlowControl.mFlowControlBytesCapacity (mFlowControl (self (snd r)))))
    (run (recvHello Sample.app old ;; recvAuth Sample.app 200) Sample.fresh)
  = Some (GOT_AUTH, None).
Proof. vm_compute. reflexivity. Qed.

(** ** C7: the recurrent timer *)

Lemma pingPeer_spec app w :
  exists w', pingPeer app w = Some (tt, w')
    /\ mState (self w') = mState (self w)
    /\ (forall v, mState (set_mRecurringTimer v (self w')) = mState (self w)).
Proof.
  unfold pingPeer. unfold bind at 1. unfold get at 1.
  unfold bind at 1. unfold get at 1.
  destruct (mPingSentTime (self w)); [exists w; repeat split|].
  destruct (isAuthenticated (self w)); [|exists w; repeat split].
  unfold bind at 1. unfold modify at 1. unfold sendGetQuorumSet.
  match goal with
  | |- context [sendMessage app ?g ?w0] =>
      destruct (sendMessage_sends_only app g w0) as [w1 [-> [S _ _]]]
  end.
  exists w1. split; [reflexivity|].
  assert (Is : send_invariant mState) by (intros ? ? ? ?; reflexivity).
  pose proof (only_send_state_inv _ _ _ Is S) as E. cbn in E.
  split; [exact E|intros v; exact E].
Qed.

Lemma drop_after reason dir mode w (pre : list Event) :
  exists w',
    drop reason dir mode
      {| self := set_mRecurringTimer None (self w); events := events w ++ pre;
         draws := draws w |} = Some (tt, w')
    /\ events w' = events w ++ (pre ++ [EvDrop reason dir mode])
    /\ mState (self w') = CLOSING.
Proof.
  match goal with
  | |- context [drop ?r ?d ?md ?w0] => destruct (drop_spec r d md w0) as (p' & -> & St & _)
  end.
  eexists. split; [reflexivity|]. cbn [self events]. rewrite <- app_assoc.
  split; [reflexivity|exact St].
Qed.

(** C7 (as amended). When the recurrent timer runs to its deadline, the
    session checks in this order: both [now - mLastRead] and
    [now - mLastWrite] at least the IO timeout: it marks the idle meter and
    drops with "idle timeout"; else the timestamp of the flow controller
    at least 60 seconds old: it drops with "idle timeout (no new flood
    requests)"; else [now - mEnqueueTimeOfLastWrite] at least the straggler
    timeout: it marks the straggler meter and drops with "straggling
    (cannot keep up)"; each drop ignores the write queue. Otherwise, unless
    the session is CLOSING or the overlay is shutting down, the timer is
    armed again for 5 seconds from now and the session keeps its state; if
    it is, the timer stays unarmed. The IO timeout is PEER_TIMEOUT (in
    seconds) in GOT_AUTH and PEER_AUTHENTICATION_TIMEOUT in any other
    state. *)
Theorem recurrentTimerExpired_checks (app : Application) (w : World) :
  getIOTimeout app (self w) =
    (if decide (mState (self w) = GOT_AUTH)
     then seconds (PEER_TIMEOUT (getConfig app))
     else seconds (PEER_AUTHENTICATION_TIMEOUT (getConfig app)))
  /\ exists w' added,
       recurrentTimerExpired app false w = Some (tt, w')
       /\ events w' = events w ++ added
       /\ if idle app (self w)
          then added = [EvMark OverlayMetrics.mTimeoutIdle 1;
                        EvDrop "idle timeout" WE_DROPPED_REMOTE IGNORE_WRITE_QUEUE]
               /\ mState (self w') = CLOSING
          else if flow_idle app (self w)
          then added = [EvDrop "idle timeout (no new flood requests)"
                          WE_DROPPED_REMOTE IGNORE_WRITE_QUEUE]
               /\ mState (self w') = CLOSING
          else if straggling app (self w)
          then added = [EvMark OverlayMetrics.mTimeoutStraggler 1;
                        EvDrop "straggling (cannot keep up)"
                          WE_DROPPED_REMOTE IGNORE_WRITE_QUEUE]
               /\ mState (self w') = CLOSING
          else if shouldAbort app (self w)
          then added = [] /\ mRecurringTimer (self w') = None
          else mRecurringTimer (self w') = Some (now app + seconds 5)
               /\ mState (self w') = mState (self w).
Proof.
  split.
  { unfold getIOTimeout, isAuthenticated.
    destruct (decide (mState (self w) = GOT_AUTH)) as [E|E].
    - rewrite bool_decide_true by exact E. reflexivity.
    - rewrite bool_decide_false by exact E. reflexivity. }
  unfold recurrentTimerExpired.
  unfold bind at 1. unfold modify at 1.
  unfold bind at 1. unfold get at 1. cbn [self events draws].
  change (id (set_mRecurringTimer None (self w))) with (set_mRecurringTimer None (self w)).
  change (getIOTimeout app (set_mRecurringTimer None (self w)))
    with (getIOTimeout app (self w)).
  change (mLastRead (set_mRecurringTimer None (self w))) with (mLastRead (self w)).
  change (mLastWrite (set_mRecurringTimer None (self w))) with (mLastWrite (self w)).
  change (mFlowControl (set_mRecurringTimer None (self w))) with (mFlowControl (self w)).
  change (mEnqueueTimeOfLastWrite (set_mRecurringTimer None (self w)))
    with (mEnqueueTimeOfLastWrite (self w)).
  fold (idle app (self w)).
  change PEER_SEND_MODE_IDLE_TIMEOUT with (seconds 60).
  fold (flow_idle app (self w)). fold (straggling app (self w)).
  destruct (idle app (self w)).
  { unfold bind at 1. unfold emit at 1. cbn [self events draws].
    destruct (drop_after "idle timeout" WE_DROPPED_REMOTE IGNORE_WRITE_QUEUE w
                [EvMark OverlayMetrics.mTimeoutIdle 1]) as (w' & -> & E & St).
    exists w'. eexists. split; [reflexivity|]. split; [exact E|]. split; [reflexivity|exact St]. }
  destruct (flow_idle app (self w)).
  { destruct (drop_after "idle timeout (no new flood requests)"
                WE_DROPPED_REMOTE IGNORE_WRITE_QUEUE w []) as (w' & Hd & E & St).
    rewrite app_nil_r in Hd. rewrite Hd.
    exists w'. eexists. split; [reflexivity|]. split; [exact E|]. split; [reflexivity|exact St]. }
  destruct (straggling app (self w)).
  { unfold bind at 1. unfold emit at 1. cbn [self events draws].
    destruct (drop_after "straggling (cannot keep up)"
                WE_DROPPED_REMOTE IGNORE_WRITE_QUEUE w
                [EvMark OverlayMetrics.mTimeoutStraggler 1]) as (w' & -> & E & St).
    exists w'. eexists. split; [reflexivity|]. split; [exact E|]. split; [reflexivity|exact St]. }
  unfold startRecurrentTimer.
  unfold bind at 1. unfold get at 1. cbn [self events draws].
  change (shouldAbort app (set_mRecurringTimer None (self w)))
    with (shouldAbort app (self w)).
  destruct (shouldAbort app (self w)).
  { eexists _, []. split; [reflexivity|]. cbn [self events]. rewrite app_nil_r.
    repeat split. }
  unfold bind at 1.
  match goal with
  | |- context [pingPeer app ?w0] =>
      destruct (pingPeer_spec app w0) as (w1 & Hp & St & St')
  end.
  rewrite Hp. cbv beta iota. unfold modify.
  assert (Hev : exists added, events w1 = events w ++ added).
  { revert Hp. unfold pingPeer. unfold bind at 1. unfold get at 1.
    unfold bind at 1. unfold get at 1. cbn [self events draws].
    destruct (mPingSentTime _); [intros [= <-]; exists []; cbn; by rewrite app_nil_r|].
    destruct (isAuthenticated _); [|intros [= <-]; exists []; cbn; by rewrite app_nil_r].
    unfold bind at 1. unfold modify at 1. unfold sendGetQuorumSet.
    match goal with
    | |- context [sendMessage app ?g ?w0] =>
        destruct (sendMessage_sends_only app g w0) as [w2 [-> [_ _ (tail & E & _)]]]
    end.
    intros [= <-]. cbn [events] in E. eexists. exact E. }
  destruct Hev as (added & Hev).
  eexists _, added. split; [reflexivity|]. cbn [self events].
  split; [exact Hev|]. split; [reflexivity|].
  rewrite St'. reflexivity.
Qed.

(** C7 as stated fails while the overlay shuts down: with no timeout due,
    the timer is not armed again. *)
Lemma recurrentTimerExpired_counterexample :
  let shutting_down := Sample.make_app (seconds 1000) true true in
  idle shutting_down (self after_auth) = false
  /\ flow_idle shutting_down (self after_auth) = false
  /\ straggling shutting_down (self after_auth) = false
  /\ option_map (fun r => (mRecurringTimer (self (snd r)), events (snd r)))
       (run (recurrentTimerExpired shutting_down false) (self after_auth))
     = Some (None, []).
Proof. vm_compute. repeat split. Qed.

(** Six seconds of silence during the handshake, and the same silence once
    authenticated. *)
Example handshake_timeout :
  let later := Sample.make_app (seconds 1006) true false in
  option_map (fun r => events (snd r))
    (run (recurrentTimerExpired later false) (self after_hello))
  = Some [EvMark OverlayMetrics.mTimeoutIdle 1;
          EvDrop "idle timeout" WE_DROPPED_REMOTE IGNORE_WRITE_QUEUE]
  /\ option_map (fun r => (mRecurringTimer (self (snd r)), mState (self (snd r))))
       (run (recurrentTimerExpired later false) (self after_auth))
     = Some (Some (seconds 1011), GOT_AUTH).
Proof. vm_compute. repeat split. Qed.

(** ** C9: the advert batch *)

Lemma flushAdvert_spec w :
  flushAdvert w =
  Some (tt,
        match mTxHashesToAdvertise (self w) with
        | [] => w
        | hashes =>
            {| self := set_mTxHashesToAdvertise [] (self w);
               events := events w ++
                 [EvPost (SendMessageTask (MsgFloodAdvert hashes)) "flushAdvert" None];
               draws := draws w |}
        end).
Proof.
  unfold flushAdvert. unfold bind at 1. unfold get at 1.
  destruct (mTxHashesToAdvertise (self w)); reflexivity.
Qed.

(** C9 (as amended). Queueing a hash arms the flush timer exactly when
    the batch was empty and the session is neither CLOSING nor in a
    shutting-down overlay. A hash offered to a batch that already holds
    TX_ADVERT_VECTOR_MAX_SIZE hashes is discarded without a trace.
    Otherwise the hash is appended, and the batch is flushed at once when
    its size has reached the maximum advert size. The timer running to its
    deadline flushes too. A flush of a batch that is not empty posts one
    task that passes one FLOOD_ADVERT with exactly the queued hashes, in
    order, to [sendMessage], and leaves the batch empty; a flush of an
    empty batch does nothing. *)
Theorem queueTxHashToAdvertise_batches (app : Application) (w : World) (txHash : Hash) :
  let hashes := mTxHashesToAdvertise (self w) in
  (exists w',
     queueTxHashToAdvertise app txHash w = Some (tt, w')
     /\ mAdvertTimer (self w') =
          (if bool_decide (hashes = []) && negb (shouldAbort app (self w))
           then Some (now app + milliseconds (FLOOD_ADVERT_PERIOD_MS (getConfig app)))
           else mAdvertTimer (self w))
     /\ if Z.of_nat (length hashes) =? TX_ADVERT_VECTOR_MAX_SIZE app
        then mTxHashesToAdvertise (self w') = hashes /\ events w' = events w
        else if getMaxAdvertSize app <=? Z.of_nat (length hashes) + 1
        then mTxHashesToAdvertise (self w') = []
             /\ events w' = events w ++
                  [EvPost (SendMessageTask (MsgFloodAdvert (hashes ++ [txHash])))
                     "flushAdvert" None]
        else mTxHashesToAdvertise (self w') = hashes ++ [txHash]
             /\ events w' = events w)
  /\ (exists w',
        advertTimerExpired false w = Some (tt, w')
        /\ mTxHashesToAdvertise (self w') = []
        /\ events w' = events w ++
             match hashes with
             | [] => []
             | _ => [EvPost (SendMessageTask (MsgFloodAdvert hashes)) "flushAdvert" None]
             end)
  /\ (forall m, runTask app (SendMessageTask m) = sendMessage app m).
Proof.
  intros hashes. split; [|split].
  - unfold queueTxHashToAdvertise.
    unfold bind at 1. unfold get at 1. fold hashes.
    assert (Htimer : exists p1,
              (match hashes with [] => startAdvertTimer app | _ => skip end) w
              = Some (tt, {| self := p1; events := events w; draws := draws w |})
              /\ mTxHashesToAdvertise p1 = hashes
              /\ mAdvertTimer p1 =
                   (if bool_decide (hashes = []) && negb (shouldAbort app (self w))
                    then Some (now app + milliseconds (FLOOD_ADVERT_PERIOD_MS (getConfig app)))
                    else mAdvertTimer (self w))).
    { destruct hashes as [|h rest] eqn:Eh.
      - unfold startAdvertTimer. unfold bind at 1. unfold get at 1.
        destruct (shouldAbort app (self w)).
        + exists (self w). destruct w. repeat split. exact Eh.
        + eexists. split; [reflexivity|]. repeat split. exact Eh.
      - exists (self w). destruct w. repeat split. exact Eh. }
    destruct Htimer as (p1 & Ht & Hh & Hti).
    unfold bind at 1. rewrite Ht. cbv beta iota.
    destruct (Z.of_nat (length hashes) =? TX_ADVERT_VECTOR_MAX_SIZE app).
    { eexists. split; [reflexivity|]. cbn [self events]. repeat split; assumption. }
    unfold bind at 1. unfold modify at 1. cbn [self events draws].
    replace (Z.of_nat (length (hashes ++ [txHash]))) with (Z.of_nat (length hashes) + 1)
      by (rewrite length_app; cbn [length]; lia).
    destruct (getMaxAdvertSize app <=? Z.of_nat (length hashes) + 1).
    + rewrite flushAdvert_spec. cbn [self events draws].
      change (mTxHashesToAdvertise (set_mTxHashesToAdvertise (hashes ++ [txHash]) p1))
        with (hashes ++ [txHash]).
      destruct (hashes ++ [txHash]) as [|x xs] eqn:Ex.
      { destruct hashes; discriminate. }
      eexists. split; [reflexivity|]. cbn [self events].
      cbn [mAdvertTimer mTxHashesToAdvertise set_mTxHashesToAdvertise].
      split; [exact Hti|]. split; reflexivity.
    + eexists. split; [reflexivity|]. cbn [self events].
      cbn [mAdvertTimer mTxHashesToAdvertise set_mTxHashesToAdvertise].
      split; [exact Hti|]. split; reflexivity.
  - unfold advertTimerExpired. unfold bind at 1. unfold modify at 1.
    rewrite flushAdvert_spec. cbn [self events draws].
    change (mTxHashesToAdvertise (set_mAdvertTimer None (self w))) with hashes.
    destruct hashes as [|h rest] eqn:Eh.
    + eexists. split; [reflexivity|]. cbn [self events].
      split; [exact Eh|]. rewrite app_nil_r. reflexivity.
    + eexists. split; [reflexivity|]. cbn [self events]. split; reflexivity.
  - reflexivity.
Qed.

(** C9 as stated fails for a session that is CLOSING: the first hash
    enters the empty batch but no flush timer is started. *)
Lemma queueTxHashToAdvertise_counterexample :
  let p := set_mState CLOSING (self after_auth) in
  mTxHashesToAdvertise p = []
  /\ mAdvertTimer p = None
  /\ option_map (fun r => (mTxHashesToAdvertise (self (snd r)), mAdvertTimer (self (snd r))))
       (run (queueTxHashToAdvertise Sample.app 70) p)
     = Some ([70], None).
Proof. vm_compute. repeat split. Qed.

(** With a maximum advert size of 3: the first hash arms the timer, the
    third flushes the batch as one FLOOD_ADVERT. *)
Example three_hashes_flush :
  option_map (fun r => (mTxHashesToAdvertise (self (snd r)), mAdvertTimer (self (snd r)),
                        events (snd r)))
    (run (queueTxHashToAdvertise Sample.app 70 ;;
          queueTxHashToAdvertise Sample.app 71 ;;
          queueTxHashToAdvertise Sample.app 72) (self after_auth))
  = Some ([], Some (seconds 1000 + milliseconds 100),
          [EvPost (SendMessageTask (MsgFloodAdvert [70; 71; 72])) "flushAdvert" None]).
Proof. vm_compute. reflexivity. Qed.

(** ** C8: the advert history *)

Lemma empty_bounded maxSize : 1 <= maxSize -> bounded (Cache.empty maxSize).
Proof.
  intros H. split; [|exact H]. unfold Cache.size, Cache.empty. simpl.
  rewrite map_size_empty. lia.
Qed.

Lemma evictOne_size r (c : Cache.t) :
  Cache.size c <> 0%nat ->
  Cache.size (Cache.evictOne r c) = pred (Cache.size c)
  /\ Cache.mMaxSize (Cache.evictOne r c) = Cache.mMaxSize c
  /\ forall k, Cache.mValueMap c !! k = None ->
               Cache.mValueMap (Cache.evictOne r c) !! k = None.
Proof.
  intros Hne. unfold Cache.evictOne.
  destruct (map_to_list (Cache.mValueMap c) !! Z.to_nat (r `mod` Z.of_nat (Cache.size c)))
    as [[k v]|] eqn:E.
  - apply list_elem_of_lookup_2 in E. apply elem_of_map_to_list in E.
    unfold Cache.size. simpl. split; [|split; [reflexivity|]].
    + apply map_size_delete_Some. eauto.
    + intros k' Hk'. destruct (decide (k = k')) as [->|Hd].
      * apply lookup_delete_eq.
      * rewrite lookup_delete_ne by exact Hd. exact Hk'.
  - exfalso. apply lookup_ge_None in E. rewrite length_map_to_list in E.
    fold (Cache.size c) in E.
    assert (0 <= r `mod` Z.of_nat (Cache.size c) < Z.of_nat (Cache.size c))
      by (apply Z.mod_pos_bound; lia).
    lia.
Qed.

Lemma put_bounded r k v (c : Cache.t) :
  bounded c ->
  bounded (Cache.put r k v c)
  /\ Cache.mMaxSize (Cache.put r k v c) = Cache.mMaxSize c
  /\ Cache.mValueMap (Cache.put r k v c) !! k = Some v.
Proof.
  intros [Hs Hm]. unfold Cache.put, Cache.exists_.
  destruct (bool_decide (is_Some (Cache.mValueMap c !! k))) eqn:Ek.
  - apply bool_decide_eq_true in Ek.
    split; [|split; [reflexivity|apply lookup_insert_eq]].
    split; [|exact Hm]. unfold Cache.size in *. simpl.
    rewrite map_size_insert_Some by exact Ek. exact Hs.
  - apply bool_decide_eq_false in Ek.
    assert (Hk : Cache.mValueMap c !! k = None).
    { destruct (Cache.mValueMap c !! k) eqn:E; [exfalso; eauto|reflexivity]. }
    destruct (Cache.mMaxSize c <=? Z.of_nat (Cache.size c)) eqn:Efull.
    + apply Z.leb_le in Efull.
      destruct (evictOne_size r c) as (Es & Em & En); [lia|].
      split; [|split; [exact Em|apply lookup_insert_eq]].
      split; [|simpl; rewrite Em; exact Hm]. unfold Cache.size in *. simpl.
      rewrite map_size_insert_None by (apply En; exact Hk).
      rewrite Es, Em. lia.
    + apply Z.leb_gt in Efull.
      split; [|split; [reflexivity|apply lookup_insert_eq]].
      split; [|exact Hm]. unfold Cache.size in *. simpl.
      rewrite map_size_insert_None by exact Hk. lia.
Qed.

Lemma erase_if_bounded f (c : Cache.t) : bounded c -> bounded (Cache.erase_if f c).
Proof.
  intros [Hs Hm]. split; [|exact Hm]. unfold Cache.size, Cache.erase_if in *. simpl.
  pose proof (map_size_filter (fun kv : Z * Z => f kv.2 = false) (Cache.mValueMap c)).
  lia.
Qed.

Lemma erase_if_lookup f (c : Cache.t) k v :
  Cache.mValueMap (Cache.erase_if f c) !! k = Some v -> f v = false.
Proof.
  unfold Cache.erase_if. simpl. intros H.
  apply map_lookup_filter_Some in H. exact (proj2 H).
Qed.

Lemma rememberHash_bounded app hash seq w :
  bounded (mAdvertHistory (self w)) ->
  exists w', rememberHash app hash seq w = Some (tt, w')
    /\ bounded (mAdvertHistory (self w'))
    /\ Cache.mMaxSize (mAdvertHistory (self w')) = Cache.mMaxSize (mAdvertHistory (self w))
    /\ peerKnowsHash hash (self w') = true.
Proof.
  intros Hb. unfold rememberHash. unfold bind at 1. unfold draw at 1. unfold modify.
  eexists. split; [reflexivity|]. cbn [self].
  change (mAdvertHistory (set_mAdvertHistory ?c ?p)) with c.
  destruct (put_bounded (rand_uniform app (draws w)) hash seq _ Hb) as (B & Mx & L).
  split; [exact B|]. split; [exact Mx|].
  unfold peerKnowsHash, Cache.exists_.
  change (mAdvertHistory (set_mAdvertHistory ?c ?p)) with c.
  rewrite L. apply bool_decide_eq_true. eauto.
Qed.

Lemma run_op_bounded app op w :
  bounded (mAdvertHistory (self w)) ->
  exists w', run_op app op w = Some (tt, w')
    /\ bounded (mAdvertHistory (self w'))
    /\ Cache.mMaxSize (mAdvertHistory (self w')) = Cache.mMaxSize (mAdvertHistory (self w)).
Proof.
  intros Hb. destruct op as [hash seq|hashes|L]; cbn [run_op].
  - destruct (rememberHash_bounded app hash seq w Hb) as (w' & E & B & Mx & _). eauto.
  - unfold recvFloodAdvert. cbv zeta. unfold bind at 1.
    assert (H : exists w1,
              for_each hashes
                (fun hash => rememberHash app hash (trackingConsensusLedgerIndex app)) w
              = Some (tt, w1)
              /\ bounded (mAdvertHistory (self w1))
              /\ Cache.mMaxSize (mAdvertHistory (self w1))
                 = Cache.mMaxSize (mAdvertHistory (self w))).
    { clear -Hb. revert w Hb. induction hashes as [|h rest IH]; intros w Hb.
      - exists w. repeat split; apply Hb.
      - cbn [for_each]. unfold bind at 1.
        destruct (rememberHash_bounded app h (trackingConsensusLedgerIndex app) w Hb)
          as (w1 & -> & B1 & M1 & _).
        destruct (IH w1 B1) as (w2 & E2 & B2 & M2).
        exists w2. split; [exact E2|]. split; [exact B2|]. congruence. }
    destruct H as (w1 & -> & B & Mx). unfold emit.
    eexists. split; [reflexivity|]. cbn [self]. split; assumption.
  - unfold clearBelow, modify. eexists. split; [reflexivity|]. cbn [self].
    change (mAdvertHistory (set_mAdvertHistory ?c ?p)) with c.
    split; [apply erase_if_bounded; exact Hb|reflexivity].
Qed.

(** C8. Whatever a session remembers, receives in adverts or prunes,
    starting from its construction, its advert history holds at most
    50,000 entries; and when [clearBelow L] has run, every entry left
    records a ledger sequence of at least [L]. *)
Theorem advertHistory_bounded_and_pruned
    (app : Application) (role : PeerRole) (this_ : Z) (sendNonce : uint256)
    (ops : list AdvertOp) (L : Z) :
  exists w' w'',
    run (for_each ops (run_op app)) (Peer_new app role this_ sendNonce) = Some (tt, w')
    /\ Z.of_nat (Cache.size (mAdvertHistory (self w'))) <= 50000
    /\ clearBelow L w' = Some (tt, w'')
    /\ Z.of_nat (Cache.size (mAdvertHistory (self w''))) <= 50000
    /\ forall hash seq,
         Cache.mValueMap (mAdvertHistory (self w'')) !! hash = Some seq -> L <= seq.
Proof.
  assert (H : forall w, bounded (mAdvertHistory (self w)) ->
            exists w', for_each ops (run_op app) w = Some (tt, w')
              /\ bounded (mAdvertHistory (self w'))
              /\ Cache.mMaxSize (mAdvertHistory (self w'))
                 = Cache.mMaxSize (mAdvertHistory (self w))).
  { induction ops as [|op rest IH]; intros w Hb.
    - exists w. repeat split; apply Hb.
    - cbn [for_each]. unfold bind at 1.
      destruct (run_op_bounded app op w Hb) as (w1 & -> & B1 & M1).
      destruct (IH w1 B1) as (w2 & E2 & B2 & M2).
      exists w2. split; [exact E2|]. split; [exact B2|]. congruence. }
  unfold run.
  destruct (H {| self := Peer_new app role this_ sendNonce; events := []; draws := 0 |})
    as (w' & E & [Bs Bm] & Mx).
  { apply empty_bounded. unfold ADVERT_CACHE_SIZE. lia. }
  cbn in Mx.
  exists w'. eexists. split; [exact E|]. split; [unfold ADVERT_CACHE_SIZE in Mx; lia|].
  split; [reflexivity|]. cbn [self].
  change (mAdvertHistory (set_mAdvertHistory ?c ?p)) with c.
  split.
  - destruct (erase_if_bounded (fun seq => seq <? L) (mAdvertHistory (self w')))
      as [Bs' _]; [split; assumption|].
    change (Cache.mMaxSize (Cache.erase_if (fun seq => seq <? L) (mAdvertHistory (self w'))))
      with (Cache.mMaxSize (mAdvertHistory (self w'))) in Bs'.
    unfold ADVERT_CACHE_SIZE in Mx. lia.
  - intros hash seq Hl. apply erase_if_lookup in Hl. apply Z.ltb_ge in Hl. exact Hl.
Qed.

(** A history of capacity 2: the third hash evicts one of the first two;
    pruning below 12 leaves the entry recorded at 12. *)
Example small_history :
  let c0 := Cache.empty 2 in
  let c3 := Cache.put 5 30 12 (Cache.put 4 20 11 (Cache.put 3 10 10 c0)) in
  Cache.size c3 = 2%nat
  /\ Cache.exists_ 30 c3 = true
  /\ map_to_list (Cache.mValueMap (Cache.erase_if (fun seq => seq <? 12) c3)) = [(30, 12)].
Proof. vm_compute. repeat split. Qed.

(** * Further properties of the code *)

(** ** overlay/FlowControlCapacity.cpp *)

(** A call of [lockLocalCapacity] that returns has passed its assertions. *)
Lemma lockLocalCapacity_asserted app m c r :
  Capacity.lockLocalCapacity app m c = Some r -> lock_asserts app m c.
Proof.
  unfold Capacity.lockLocalCapacity, Capacity.checkCapacityInvariants, lock_asserts.
  destruct (Capacity.mFloodCapacity (Capacity.mCapacity c)
              <=? Capacity.mFloodCapacity (Capacity.getCapacityLimits app c)) eqn:Hf;
    cbn [Capacity.releaseAssert bindO]; [|discriminate].
  apply Z.leb_le in Hf.
  destruct (Capacity.mTotalCapacity (Capacity.getCapacityLimits app c)) as [limit|],
    (Capacity.mTotalCapacity (Capacity.mCapacity c)) as [total|];
    cbn [Capacity.releaseAssert bindO]; try discriminate.
  - destruct (total <=? limit) eqn:Ht; cbn [Capacity.releaseAssert bindO]; [|discriminate].
    destruct (Capacity.getMsgResourceCount app c m <=? total) eqn:Hm;
      cbn [Capacity.releaseAssert bindO]; [|discriminate].
    apply Z.leb_le in Ht, Hm. intros _. auto.
  - intros _. auto.
Qed.

(** X1. A message that [lockLocalCapacity] accepted gives back exactly
    what it took: [releaseLocalCapacity] on the capacity the lock left
    passes its assertions, restores the capacity as it was before the
    lock, and reports the flood capacity it released (the cost of a flood
    message, nothing otherwise). *)
Theorem lockLocalCapacity_releaseLocalCapacity
    (app : Application) (m : HcnetMessage) (c c' : Capacity.t) :
  0 <= Capacity.mFloodCapacity (Capacity.mCapacity c) < 2 ^ 64 ->
  (forall total, Capacity.mTotalCapacity (Capacity.mCapacity c) = Some total ->
                 0 <= total < 2 ^ 64) ->
  Capacity.lockLocalCapacity app m c = Some (true, c') ->
  Capacity.releaseLocalCapacity app m c' =
    Some (if isFloodMessage m then Capacity.getMsgResourceCount app c m else 0, c).
Proof.
  intros Hf Ht Hlock.
  pose proof (lockLocalCapacity_asserted _ _ _ _ Hlock) as Ha.
  rewrite (lockLocalCapacity_spec app m c Ha) in Hlock.
  destruct (short_of app m c) eqn:Hs; [discriminate|].
  injection Hlock as <-.
  pose proof (refund_charge app m c Hf Ht) as Hr.
  rewrite releaseLocalCapacity_spec.
  - rewrite Hr. unfold flood_cost, charge_flood, charge_total.
    rewrite !getMsgResourceCount_set_mCapacity. reflexivity.
  - unfold release_asserts. cbv zeta. rewrite Hr.
    unfold charge_flood, charge_total. rewrite !getCapacityLimits_set_mCapacity.
    destruct Ha as [Ha1 Ha2]. split; [exact Ha1|].
    destruct (Capacity.mTotalCapacity (Capacity.getCapacityLimits app c)),
      (Capacity.mTotalCapacity (Capacity.mCapacity c)); tauto.
Qed.

Lemma lockLocalCapacity_releaseLocalCapacity_witness :
  let c := Capacity.newMessageCapacity Sample.app in
  let c' := Capacity.FlowControlMessageCapacity
              {| Capacity.mFloodCapacity := 199; Capacity.mTotalCapacity := Some 200 |} 0 in
  Capacity.lockLocalCapacity Sample.app (MsgTransaction 7) c = Some (true, c')
  /\ Capacity.releaseLocalCapacity Sample.app (MsgTransaction 7) c' = Some (1, c).
Proof.
  split; [reflexivity|].
  refine (lockLocalCapacity_releaseLocalCapacity Sample.app (MsgTransaction 7)
            (Capacity.newMessageCapacity Sample.app) _ _ _ _).
  - vm_compute. split; [discriminate|reflexivity].
  - intros total [= <-]. vm_compute. split; [discriminate|reflexivity].
  - reflexivity.
Defined.

(** X2. When [lockLocalCapacity] refuses a message (returns false), the
    message is a flood message that costs more than the flood capacity
    left; the flood capacity and the outbound capacity stay as they were,
    but the total capacity, on an axis that tracks one, has already been
    charged the cost. *)
Theorem lockLocalCapacity_refusal
    (app : Application) (m : HcnetMessage) (c c' : Capacity.t) :
  Capacity.lockLocalCapacity app m c = Some (false, c') ->
  isFloodMessage m = true
  /\ Capacity.mFloodCapacity (Capacity.mCapacity c) < Capacity.getMsgResourceCount app c m
  /\ Capacity.mFloodCapacity (Capacity.mCapacity c')
     = Capacity.mFloodCapacity (Capacity.mCapacity c)
  /\ Capacity.mTotalCapacity (Capacity.mCapacity c')
     = option_map (fun total => total - Capacity.getMsgResourceCount app c m)
         (Capacity.mTotalCapacity (Capacity.mCapacity c))
  /\ Capacity.mOutboundCapacity c' = Capacity.mOutboundCapacity c.
Proof.
  intros Hlock.
  pose proof (lockLocalCapacity_asserted _ _ _ _ Hlock) as Ha.
  rewrite (lockLocalCapacity_spec app m c Ha) in Hlock.
  destruct (short_of app m c) eqn:Hs; [|discriminate].
  injection Hlock as <-.
  unfold short_of in Hs. apply andb_true_iff in Hs. destruct Hs as [Hfl Hlt].
  apply Z.ltb_lt in Hlt.
  split; [exact Hfl|]. split; [exact Hlt|].
  unfold charge_total. rewrite mCapacity_set_mCapacity.
  cbn [Capacity.mFloodCapacity Capacity.mTotalCapacity].
  repeat split. destruct c; reflexivity.
Qed.

Lemma lockLocalCapacity_refusal_witness :
  let c := Capacity.FlowControlMessageCapacity
             {| Capacity.mFloodCapacity := 0; Capacity.mTotalCapacity := Some 201 |} 5 in
  let c' := Capacity.FlowControlMessageCapacity
              {| Capacity.mFloodCapacity := 0; Capacity.mTotalCapacity := Some 200 |} 5 in
  isFloodMessage (MsgTransaction 7) = true
  /\ Capacity.mFloodCapacity (Capacity.mCapacity c)
     < Capacity.getMsgResourceCount Sample.app c (MsgTransaction 7)
  /\ Capacity.mFloodCapacity (Capacity.mCapacity c')
     = Capacity.mFloodCapacity (Capacity.mCapacity c)
  /\ Capacity.mTotalCapacity (Capacity.mCapacity c')
     = option_map (fun total => total - Capacity.getMsgResourceCount Sample.app c
                                          (MsgTransaction 7))
         (Capacity.mTotalCapacity (Capacity.mCapacity c))
  /\ Capacity.mOutboundCapacity c' = Capacity.mOutboundCapacity c.
Proof.
  intros c c'.
  apply (lockLocalCapacity_refusal Sample.app (MsgTransaction 7) c c').
  reflexivity.
Defined.

(** X3. [lockLocalCapacity] never takes a capacity below zero or above
    its limits: when it returns, whatever its answer, the capacity it
    leaves passes [checkCapacityInvariants], the flood capacity is between
    zero and what it was, and so is the total capacity on an axis that
    tracks one. *)
Theorem lockLocalCapacity_within_limits
    (app : Application) (m : HcnetMessage) (c c' : Capacity.t) (ok : bool) :
  0 <= xdr_size app m ->
  0 <= Capacity.mFloodCapacity (Capacity.mCapacity c) ->
  Capacity.lockLocalCapacity app m c = Some (ok, c') ->
  Capacity.checkCapacityInvariants app c' = Some tt
  /\ 0 <= Capacity.mFloodCapacity (Capacity.mCapacity c')
       <= Capacity.mFloodCapacity (Capacity.mCapacity c)
  /\ match Capacity.mTotalCapacity (Capacity.mCapacity c),
           Capacity.mTotalCapacity (Capacity.mCapacity c') with
     | Some total, Some total' => 0 <= total' <= total
     | None, None => True
     | _, _ => False
     end.
Proof.
  intros Hsize Hflood Hlock.
  pose proof (lockLocalCapacity_asserted _ _ _ _ Hlock) as Ha.
  rewrite (lockLocalCapacity_spec app m c Ha) in Hlock.
  assert (Hcost : 0 <= Capacity.getMsgResourceCount app c m).
  { destruct c; simpl; [lia|exact Hsize]. }
  destruct Ha as [Ha1 Ha2].
  assert (Hs : short_of app m c = false ->
               flood_cost app c m <= Capacity.mFloodCapacity (Capacity.mCapacity c)).
  { unfold short_of, flood_cost. destruct (isFloodMessage m); simpl; [|lia].
    intros H. apply Z.ltb_ge in H. exact H. }
  assert (Hfc : 0 <= flood_cost app c m).
  { unfold flood_cost. destruct (isFloodMessage m); lia. }
  destruct (short_of app m c); injection Hlock as <- <-;
    unfold charge_flood, charge_total;
    rewrite ?mCapacity_set_mCapacity, ?getMsgResourceCount_set_mCapacity;
    cbn [Capacity.mFloodCapacity Capacity.mTotalCapacity];
    (split; [apply checkCapacityInvariants_ok;
             rewrite ?getCapacityLimits_set_mCapacity, ?mCapacity_set_mCapacity;
             cbn [Capacity.mFloodCapacity Capacity.mTotalCapacity]|]).
  all: try specialize (Hs eq_refl).
  all: destruct (Capacity.mTotalCapacity (Capacity.getCapacityLimits app c)) as [limit|];
    destruct (Capacity.mTotalCapacity (Capacity.mCapacity c)) as [total|];
    cbn [option_map] in *; try contradiction; try lia.
  all: unfold flood_cost in *; try (split; [lia|]); try lia; try exact I.
  all: rewrite ?getMsgResourceCount_set_mCapacity in *; try lia.
Qed.

Lemma lockLocalCapacity_within_limits_witness :
  let c := Capacity.newByteCapacity Sample.app in
  exists c',
    Capacity.lockLocalCapacity Sample.app (MsgTransaction 7) c = Some (true, c')
    /\ Capacity.checkCapacityInvariants Sample.app c' = Some tt
    /\ 0 <= Capacity.mFloodCapacity (Capacity.mCapacity c')
         <= Capacity.mFloodCapacity (Capacity.mCapacity c).
Proof.
  intros c. eexists. split; [reflexivity|].
  refine (let H := lockLocalCapacity_within_limits Sample.app (MsgTransaction 7) c _ true
                     _ _ eq_refl in conj (proj1 H) (proj1 (proj2 H))).
  - vm_compute. discriminate.
  - vm_compute. discriminate.
Defined.

Lemma outbound_cost_nonneg app c ms :
  Forall (fun m => 0 <= xdr_size app m) ms -> 0 <= outbound_cost app c ms.
Proof.
  induction 1 as [|m rest Hm _ IH]; simpl; [lia|].
  unfold flood_cost. destruct (isFloodMessage m); [|lia].
  destruct c; simpl; unfold Capacity.msgBodySize; lia.
Qed.

Lemma outbound_cost_set_mOutboundCapacity app out c ms :
  outbound_cost app (Capacity.set_mOutboundCapacity out c) ms = outbound_cost app c ms.
Proof.
  induction ms as [|m rest IH]; simpl; [reflexivity|].
  rewrite IH. unfold flood_cost. destruct c; reflexivity.
Qed.

(** X4. The outbound capacity is a budget that only flood messages draw
    on. Locking it for a list of messages in order succeeds exactly when
    the flood messages of the list cost no more, together, than the
    capacity at hand; it then leaves the capacity lower by that cost and
    the local capacity untouched. When the cost exceeds the capacity, one
    of the locks fails its assertion. *)
Theorem lockOutboundAll_budget
    (app : Application) (ms : list HcnetMessage) (c : Capacity.t) :
  Forall (fun m => 0 <= xdr_size app m) ms ->
  0 <= Capacity.mOutboundCapacity c ->
  match lockOutboundAll app ms c with
  | Some c' =>
      outbound_cost app c ms <= Capacity.mOutboundCapacity c
      /\ Capacity.mOutboundCapacity c' = Capacity.mOutboundCapacity c - outbound_cost app c ms
      /\ Capacity.mCapacity c' = Capacity.mCapacity c
  | None => Capacity.mOutboundCapacity c < outbound_cost app c ms
  end.
Proof.
  intros Hms. revert c. induction Hms as [|m rest Hm Hrest IH]; intros c Hout.
  - simpl. repeat split; lia.
  - cbn [lockOutboundAll outbound_cost].
    pose proof (outbound_cost_nonneg app c rest Hrest) as Hnn.
    unfold Capacity.lockOutboundCapacity, flood_cost, Capacity.hasOutboundCapacity.
    destruct (isFloodMessage m).
    + destruct (Capacity.getMsgResourceCount app c m <=? Capacity.mOutboundCapacity c)
        eqn:Hle; cbn [Capacity.releaseAssert bindO].
      * apply Z.leb_le in Hle.
        specialize (IH (Capacity.set_mOutboundCapacity
                          (Capacity.mOutboundCapacity c
                           - Capacity.getMsgResourceCount app c m) c)).
        rewrite outbound_cost_set_mOutboundCapacity in IH.
        assert (E : forall out, Capacity.mOutboundCapacity
                                  (Capacity.set_mOutboundCapacity out c) = out)
          by (intros out; destruct c; reflexivity).
        rewrite E in IH. specialize (IH ltac:(lia)).
        destruct (lockOutboundAll app rest _) as [c'|].
        -- destruct IH as (I1 & I2 & I3).
           repeat split; [lia|lia|].
           rewrite I3. destruct c; reflexivity.
        -- lia.
      * apply Z.leb_gt in Hle. lia.
    + cbn [bindO]. specialize (IH c Hout).
      destruct (lockOutboundAll app rest c) as [c'|].
      * destruct IH as (I1 & I2 & I3). repeat split; [lia|lia|exact I3].
      * lia.
Qed.

(** Two transactions fit a grant of two messages, three do not. *)
Lemma lockOutboundAll_budget_witness :
  let c := Capacity.set_mOutboundCapacity 2 (Capacity.newMessageCapacity Sample.app) in
  option_map Capacity.mOutboundCapacity
    (lockOutboundAll Sample.app [MsgTransaction 7; MsgGetPeers; MsgTransaction 7] c) = Some 0
  /\ lockOutboundAll Sample.app [MsgTransaction 7; MsgTransaction 7; MsgTransaction 7] c = None
  /\ match lockOutboundAll Sample.app [MsgTransaction 7; MsgGetPeers; MsgTransaction 7] c with
     | Some c' =>
         outbound_cost Sample.app c [MsgTransaction 7; MsgGetPeers; MsgTransaction 7]
           <= Capacity.mOutboundCapacity c
         /\ Capacity.mOutboundCapacity c'
            = Capacity.mOutboundCapacity c
              - outbound_cost Sample.app c [MsgTransaction 7; MsgGetPeers; MsgTransaction 7]
         /\ Capacity.mCapacity c' = Capacity.mCapacity c
     | None =>
         Capacity.mOutboundCapacity c
           < outbound_cost Sample.app c [MsgTransaction 7; MsgGetPeers; MsgTransaction 7]
     end.
Proof.
  intros c. split; [reflexivity|]. split; [reflexivity|].
  apply (lockOutboundAll_budget Sample.app
           [MsgTransaction 7; MsgGetPeers; MsgTransaction 7] c).
  - repeat constructor; vm_compute; discriminate.
  - vm_compute. discriminate.
Defined.

(** X5. Raising the maximum transaction size by [increase] keeps the byte
    axis consistent: the flood capacity and its limit both grow by
    [increase], so the capacity still passes [checkCapacityInvariants] and
    the part of the window in use is unchanged; the outbound capacity and
    the answer of [canRead] are unaffected. *)
Theorem handleTxSizeIncrease_keeps_invariants
    (app : Application) (increase out : Z) (cap lim : Capacity.ReadingCapacity) :
  let c := Capacity.FlowControlByteCapacity cap out lim in
  let c' := Capacity.handleTxSizeIncrease increase c in
  0 <= increase ->
  0 <= Capacity.mFloodCapacity cap ->
  Capacity.mFloodCapacity lim + increase < 2 ^ 64 ->
  Capacity.checkCapacityInvariants app c = Some tt ->
  Capacity.checkCapacityInvariants app c' = Some tt
  /\ Capacity.mFloodCapacity (Capacity.mCapacity c') = Capacity.mFloodCapacity cap + increase
  /\ Capacity.mFloodCapacity (Capacity.getCapacityLimits app c')
     = Capacity.mFloodCapacity lim + increase
  /\ Capacity.mFloodCapacity (Capacity.getCapacityLimits app c')
       - Capacity.mFloodCapacity (Capacity.mCapacity c')
     = Capacity.mFloodCapacity lim - Capacity.mFloodCapacity cap
  /\ Capacity.mOutboundCapacity c' = out
  /\ Capacity.canRead c' = Capacity.canRead c.
Proof.
  intros c c' Hinc Hcap Hlim Hinv.
  subst c' c.
  unfold Capacity.checkCapacityInvariants in Hinv.
  cbn [Capacity.mCapacity Capacity.getCapacityLimits] in Hinv.
  destruct (Capacity.mFloodCapacity cap <=? Capacity.mFloodCapacity lim) eqn:Hle;
    cbn [Capacity.releaseAssert bindO] in Hinv; [|discriminate].
  apply Z.leb_le in Hle.
  assert (W1 : wrap64 (Capacity.mFloodCapacity cap + increase)
               = Capacity.mFloodCapacity cap + increase).
  { unfold wrap64. apply Z.mod_small. lia. }
  assert (W2 : wrap64 (Capacity.mFloodCapacity lim + increase)
               = Capacity.mFloodCapacity lim + increase).
  { unfold wrap64. apply Z.mod_small. lia. }
  cbn [Capacity.handleTxSizeIncrease Capacity.mCapacity Capacity.getCapacityLimits
         Capacity.mOutboundCapacity Capacity.canRead
         Capacity.mFloodCapacity Capacity.mTotalCapacity].
  rewrite W1, W2.
  split.
  - apply checkCapacityInvariants_ok;
      cbn [Capacity.mCapacity Capacity.getCapacityLimits
             Capacity.mFloodCapacity Capacity.mTotalCapacity]; [lia|].
    destruct (Capacity.mTotalCapacity lim) as [limit|],
      (Capacity.mTotalCapacity cap) as [total|];
      cbn [Capacity.releaseAssert] in Hinv; try discriminate; try exact I.
    destruct (total <=? limit) eqn:Ht; [|discriminate]. apply Z.leb_le in Ht. exact Ht.
  - repeat split; lia.
Qed.

Lemma handleTxSizeIncrease_keeps_invariants_witness :
  let c := Capacity.FlowControlByteCapacity
             {| Capacity.mFloodCapacity := 100; Capacity.mTotalCapacity := None |} 7
             {| Capacity.mFloodCapacity := 300000; Capacity.mTotalCapacity := None |} in
  let c' := Capacity.handleTxSizeIncrease 5000 c in
  Capacity.checkCapacityInvariants Sample.app c' = Some tt
  /\ Capacity.mFloodCapacity (Capacity.mCapacity c') = 100 + 5000
  /\ Capacity.mFloodCapacity (Capacity.getCapacityLimits Sample.app c') = 300000 + 5000
  /\ Capacity.mFloodCapacity (Capacity.getCapacityLimits Sample.app c')
       - Capacity.mFloodCapacity (Capacity.mCapacity c')
     = 300000 - 100
  /\ Capacity.mOutboundCapacity c' = 7
  /\ Capacity.canRead c' = Capacity.canRead c.
Proof.
  apply (handleTxSizeIncrease_keeps_invariants Sample.app 5000 7
           {| Capacity.mFloodCapacity := 100; Capacity.mTotalCapacity := None |}
           {| Capacity.mFloodCapacity := 300000; Capacity.mTotalCapacity := None |}).
  - lia.
  - simpl. lia.
  - simpl. lia.
  - reflexivity.
Defined.

(** ** Received errors *)

Lemma sanitize_get msg :
  String.length (sanitize msg) = String.length msg
  /\ forall i c,
       String.get i (sanitize msg) = Some c ->
       (is_plain c = true /\ String.get i msg = Some c)
       \/ (c = "*"%char
           /\ exists c0, String.get i msg = Some c0 /\ is_plain c0 = false).
Proof.
  induction msg as [|c0 rest [IHl IHg]]; simpl.
  - split; [reflexivity|]. intros i c H. discriminate.
  - split; [by rewrite IHl|].
    intros [|i] c H; simpl in *.
    + fold (is_plain c0) in H.
      destruct (is_plain c0) eqn:Hp; injection H as <-; eauto.
    + apply IHg. exact H.
Qed.

(** X6. An ERROR_MSG only ever makes the session drop the connection, as
    dropped by the remote side and ignoring the write queue; nothing is
    sent back. The text of the error reaches the reason of the drop
    filtered: it keeps its length, every letter, digit and space stays in
    place, and every other character is replaced by an asterisk. *)
Theorem recvError_drops_with_filtered_text
    (code : ErrorCode) (msg : string) (w : World) :
  exists p' text,
    recvError code msg w =
      Some (tt, {| self := p';
                   events := events w ++
                     [EvDrop (codeStr code +:+ " (" +:+ text +:+ ")")
                        REMOTE_DROPPED_US IGNORE_WRITE_QUEUE];
                   draws := draws w |})
    /\ mState p' = CLOSING
    /\ String.length text = String.length msg
    /\ forall i c,
         String.get i text = Some c ->
         (is_plain c = true /\ String.get i msg = Some c)
         \/ (c = "*"%char
             /\ exists c0, String.get i msg = Some c0 /\ is_plain c0 = false).
Proof.
  unfold recvError.
  match goal with
  | |- context [drop ?r ?d ?m w] =>
      destruct (drop_spec r d m w) as (p' & E & St & _)
  end.
  exists p', (sanitize msg).
  split.
  - rewrite E. destruct code; reflexivity.
  - split; [exact St|]. apply sanitize_get.
Qed.

(** ** Measuring latency *)

(** X7. A ping and its answer. An authenticated session with no ping
    under way sends one GET_SCP_QUORUMSET for the hash of the current
    instant and remembers that instant; until the answer comes, further
    calls of [pingPeer] send nothing. A DONT_HAVE for that hash, received
    later, ends the ping and records as latency the time elapsed, in whole
    milliseconds. *)
Theorem pingPeer_round_trip
    (app later : Application) (type : MessageType) (w : World) :
  isAuthenticated (self w) = true ->
  mPingSentTime (self w) = None ->
  shortHash_of_time later (now app) = shortHash_of_time app (now app) ->
  exists w1 added,
    pingPeer app w = Some (tt, w1)
    /\ events w1 = events w ++ added
    /\ calls added = [EvSend (MsgGetSCPQuorumSet (pingIDfromTimePoint app (now app)))]
    /\ mPingSentTime (self w1) = Some (now app)
    /\ pingPeer later w1 = Some (tt, w1)
    /\ exists w2,
         recvDontHave later type (pingIDfromTimePoint app (now app)) w1 = Some (tt, w2)
         /\ mLastPing (self w2) = (now later - now app) `quot` 1000000
         /\ mPingSentTime (self w2) = None.
Proof.
  intros Hauth Hnone Hhash.
  unfold pingPeer at 1. unfold bind at 1. unfold get at 1.
  unfold bind at 1. unfold get at 1. rewrite Hnone, Hauth.
  unfold bind at 1. unfold modify at 1. unfold sendGetQuorumSet.
  match goal with
  | |- context [sendMessage app ?m ?w0] =>
      destruct (sendMessage_sends_only app m w0) as [w1 [E [S D [tail [Ev C]]]]]
  end.
  cbn [self events draws] in *.
  assert (P : mPingSentTime (self w1) = Some (now app)).
  { rewrite S. reflexivity. }
  exists w1, ([EvSend (MsgGetSCPQuorumSet (pingIDfromTimePoint app (now app)))] ++ tail).
  split; [exact E|]. split; [exact Ev|].
  split; [rewrite calls_app, C; reflexivity|].
  split; [exact P|].
  split.
  { unfold pingPeer. unfold bind at 1. unfold get at 1.
    unfold bind at 1. unfold get at 1. rewrite P. reflexivity. }
  unfold recvDontHave, maybeProcessPingResponse.
  unfold bind at 1. unfold bind at 1. unfold get at 1. rewrite P.
  unfold pingIDfromTimePoint. rewrite Hhash, Z.eqb_refl.
  unfold bind, modify, emit. cbn [self events draws].
  eexists. split; [reflexivity|]. cbn [self]. split; reflexivity.
Qed.

Lemma pingPeer_round_trip_witness :
  let later := Sample.make_app (seconds 1000 + milliseconds 250) true false in
  exists w1 w2,
    pingPeer Sample.app after_auth = Some (tt, w1)
    /\ recvDontHave later SCP_QUORUMSET (pingIDfromTimePoint Sample.app (now Sample.app)) w1
       = Some (tt, w2)
    /\ mLastPing (self w2) = (now later - now Sample.app) `quot` 1000000
    /\ mPingSentTime (self w2) = None.
Proof.
  intros later.
  destruct (pingPeer_round_trip Sample.app later SCP_QUORUMSET after_auth)
    as (w1 & added & E1 & _ & _ & _ & _ & w2 & E2 & L & P).
  - vm_compute. reflexivity.
  - vm_compute. reflexivity.
  - vm_compute. reflexivity.
  - exists w1, w2. exact (conj E1 (conj E2 (conj L P))).
Defined.

(** ** The state of the session *)

Lemma settled_keeps {B} (c : M B) : keeps mState c -> settled c.
Proof. intros H w b w' E. left. eapply H; eauto. Qed.

Lemma settled_bind {B C} (c : M B) (k : B -> M C) :
  settled c -> (forall b, settled (k b)) -> settled (bind c k).
Proof.
  intros Hc Hk w b' w' H. unfold bind in H.
  destruct (c w) as [[b w1]|] eqn:E; [|discriminate].
  destruct (Hc _ _ _ E) as [H1|H1], (Hk _ _ _ _ H) as [H2|H2]; rewrite H2, ?H1; auto.
Qed.

Lemma settled_for_each {B} (xs : list B) (body : B -> M unit) :
  (forall x, settled (body x)) -> settled (for_each xs body).
Proof.
  intros Hb. induction xs as [|x rest IH]; cbn [for_each].
  - apply settled_keeps, keeps_ret.
  - apply settled_bind; [apply Hb|intros _; apply IH].
Qed.

Lemma settled_drop reason dir mode : settled (drop reason dir mode).
Proof.
  intros w b w' H.
  destruct (drop_spec reason dir mode w) as (p' & E & St & _).
  rewrite E in H. injection H as _ <-. right. exact St.
Qed.

Lemma settled_sendErrorAndDrop app code text mode :
  settled (sendErrorAndDrop app code text mode).
Proof.
  intros w b w' H.
  destruct (sendErrorAndDrop_spec app code text mode w) as (w1 & added & E & _ & _ & St & _).
  rewrite E in H. injection H as _ <-. right. exact St.
Qed.

(** Decompose a member function by its shape; the steps that cannot drop
    keep the state. *)
Ltac keeps_leaf :=
  lazymatch goal with
  | |- keeps _ (ret _) => apply keeps_ret
  | |- keeps _ (get _) => apply keeps_get
  | |- keeps _ (emit _) => apply keeps_emit
  | |- keeps _ (draw _) => apply keeps_draw
  | |- keeps _ (lift _) => apply keeps_lift
  | |- keeps _ (releaseAssert _) => apply keeps_releaseAssert
  | |- keeps _ (sendMessage _ _) => apply keeps_sendMessage; intros ? ? ? ?; reflexivity
  | |- keeps _ (sendAuthenticatedMessage _ _) =>
      apply keeps_sendAuthenticatedMessage; intros ? ? ? ?; reflexivity
  | |- keeps _ (modify _) => apply keeps_modify; intros ?; reflexivity
  end.

Ltac settled_step :=
  lazymatch goal with
  | |- settled (bind _ _) => apply settled_bind; [|intros ?]
  | |- settled (drop _ _ _) => apply settled_drop
  | |- settled (sendErrorAndDrop _ _ _ _) => apply settled_sendErrorAndDrop
  | |- settled (for_each _ _) => apply settled_for_each; intros ?
  | |- settled (match ?x with _ => _ end) => destruct x
  | |- settled _ => apply settled_keeps; keeps_leaf
  end.

Ltac settled_auto := unfold skip; repeat settled_step.

Lemma settled_beginMessageProcessing app m : settled (beginMessageProcessing app m).
Proof. unfold beginMessageProcessing. settled_auto. Qed.

Lemma settled_endMessageProcessing app m : settled (endMessageProcessing app m).
Proof.
  apply settled_keeps. unfold endMessageProcessing, canRead. keeps_auto.
Qed.

(** The handlers of the messages that follow the handshake. *)
Lemma settled_handlers app m :
  type_of m <> HELLO -> type_of m <> AUTH ->
  settled (recvRawMessage app m).
Proof.
  intros Hh Ha. unfold recvRawMessage.
  apply settled_bind; [settled_auto|intros abort].
  destruct abort; [settled_auto|].
  apply settled_bind; [settled_auto|intros authenticated].
  match goal with |- settled (if ?c then _ else _) => destruct c end; [settled_auto|].
  apply settled_bind; [settled_auto|intros _].
  apply settled_bind; [settled_auto|intros _].
  destruct m; try (exfalso; apply Hh; reflexivity); try (exfalso; apply Ha; reflexivity).
  - unfold recvError. settled_auto.
  - unfold recvDontHave, maybeProcessPingResponse. settled_auto.
  - unfold recvGetPeers, sendPeers. settled_auto.
  - unfold recvPeers. settled_auto.
  - unfold recvGetTxSet, sendDontHave. settled_auto.
  - unfold recvTxSet. settled_auto.
  - unfold recvGeneralizedTxSet. settled_auto.
  - unfold recvTransaction. settled_auto.
  - unfold recvGetSCPQuorumSet, sendSCPQuorumSet, sendDontHave. settled_auto.
  - unfold recvSCPQuorumSet, maybeProcessPingResponse. settled_auto.
  - unfold recvSCPMessage. settled_auto.
  - unfold recvGetSCPState. settled_auto.
  - unfold recvSurveyRequestMessage. settled_auto.
  - unfold recvSurveyResponseMessage. settled_auto.
  - unfold recvSendMore. settled_auto.
  - unfold recvSendMore. settled_auto.
  - unfold recvFloodAdvert, rememberHash. settled_auto.
  - unfold recvFloodDemand, fulfillDemand, fulfillOne. settled_auto.
Qed.

Lemma drop_closes reason dir mode w b w' :
  drop reason dir mode w = Some (b, w') -> mState (self w') = CLOSING.
Proof.
  intros H. destruct (drop_spec reason dir mode w) as (p' & E & St & _).
  rewrite E in H. injection H as _ <-. exact St.
Qed.

Lemma sendErrorAndDrop_closes app code text mode w b w' :
  sendErrorAndDrop app code text mode w = Some (b, w') -> mState (self w') = CLOSING.
Proof.
  intros H.
  destruct (sendErrorAndDrop_spec app code text mode w) as (w1 & added & E & _ & _ & St & _).
  rewrite E in H. injection H as _ <-. exact St.
Qed.

Lemma recvHello_state app elo w w' :
  recvHello app elo w = Some (tt, w') ->
  mState (self w') = CLOSING
  \/ (state_value (mState (self w)) < state_value GOT_HELLO
      /\ mState (self w') = GOT_HELLO).
Proof.
  intros H. unfold recvHello in H. unfold bind at 1 in H. unfold get at 1 in H.
  destruct (state_value GOT_HELLO <=? state_value (mState (self w))) eqn:Hs;
    [left; eapply drop_closes; eauto|].
  apply Z.leb_gt in Hs.
  destruct (negb (verifyRemoteAuthCert app (peerID elo) (cert elo)));
    [left; eapply drop_closes; eauto|].
  destruct (isBanned app (peerID elo)); [left; eapply drop_closes; eauto|].
  do 10 (unfold bind at 1 in H; unfold modify at 1 in H; cbv beta iota in H).
  cbv zeta in H.
  match type of H with
  | ?c ?w0 = _ =>
      assert (S : settled c);
      [|destruct (S _ _ _ H) as [E|E]; [right; split; [exact Hs|exact E]|left; exact E]]
  end.
  clear. unfold sendHello, sendAuth, updatePeerRecordAfterEcho. settled_auto.
Qed.

Lemma recvAuth_state app flags w w' :
  recvAuth app flags w = Some (tt, w') ->
  mState (self w') = CLOSING
  \/ (mState (self w) = GOT_HELLO /\ mState (self w') = GOT_AUTH).
Proof.
  intros H. unfold recvAuth in H. unfold bind at 1 in H. unfold get at 1 in H.
  destruct (bool_decide (mState (self w) = GOT_HELLO)) eqn:Hs; cbn [negb] in H;
    [|left; eapply sendErrorAndDrop_closes; eauto].
  apply bool_decide_eq_true in Hs.
  unfold bind at 1 in H. unfold get at 1 in H.
  destruct (isAuthenticated (self w)); [left; eapply sendErrorAndDrop_closes; eauto|].
  unfold bind at 1 in H. unfold modify at 1 in H. cbv beta iota in H.
  match type of H with
  | ?c ?w0 = _ =>
      assert (S : settled c);
      [|destruct (S _ _ _ H) as [E|E]; [right; split; [exact Hs|exact E]|left; exact E]]
  end.
  clear. unfold sendAuth, sendPeers, updatePeerRecordAfterAuthentication, sendGetScpState.
  settled_auto.
Qed.

Lemma recvRawMessage_state app m w w' :
  recvRawMessage app m w = Some (tt, w') ->
  state_step m (mState (self w)) (mState (self w')).
Proof.
  intros H.
  assert (Hother : type_of m <> HELLO -> type_of m <> AUTH ->
                   state_step m (mState (self w)) (mState (self w'))).
  { intros Hh Ha. destruct (settled_handlers app m Hh Ha _ _ _ H) as [E|E];
      unfold state_step; auto. }
  destruct m; try (apply Hother; discriminate).
  - (* HELLO *)
    unfold recvRawMessage in H. unfold bind at 1 in H. unfold get at 1 in H.
    destruct (shouldAbort app (self w)); [injection H as <-; left; reflexivity|].
    unfold bind at 1 in H. unfold get at 1 in H. cbn [type_of] in H.
    rewrite (bool_decide_true (HELLO = HELLO)) in H by reflexivity.
    cbn [negb] in H. rewrite !andb_false_r, !orb_true_r in H. cbn [andb orb] in H.
    rewrite ?orb_true_r in H.
    unfold bind at 1 in H. unfold releaseAssert at 1 in H.
    unfold bind at 1 in H. unfold emit at 1 in H.
    apply recvHello_state in H. cbn [self] in H.
    destruct H as [E|[Hs E]]; unfold state_step; [auto|].
    right; right; left. repeat split; assumption.
  - (* AUTH *)
    unfold recvRawMessage in H. unfold bind at 1 in H. unfold get at 1 in H.
    destruct (shouldAbort app (self w)); [injection H as <-; left; reflexivity|].
    unfold bind at 1 in H. unfold get at 1 in H. cbn [type_of] in H.
    rewrite (bool_decide_true (AUTH = AUTH)) in H by reflexivity.
    cbn [negb] in H. rewrite !andb_false_r, !orb_true_r in H. cbn [andb orb] in H.
    rewrite ?orb_true_r in H.
    unfold bind at 1 in H. unfold releaseAssert at 1 in H.
    unfold bind at 1 in H. unfold emit at 1 in H.
    apply recvAuth_state in H. cbn [self] in H.
    destruct H as [E|[Hs E]]; unfold state_step; [auto|].
    right; right; right. repeat split; assumption.
Qed.

Lemma state_step_settled m s s1 s' :
  state_step m s s1 -> s' = s1 \/ s' = CLOSING -> state_step m s s'.
Proof. unfold state_step. intros H [->| ->]; tauto. Qed.

Lemma settled_state_step m s s1 s' :
  s1 = s \/ s1 = CLOSING -> state_step m s1 s' -> state_step m s s'.
Proof.
  unfold state_step. intros [->| ->] H; [exact H|].
  destruct H as [->|[->|[(_ & H & _)|(_ & H & _)]]]; auto.
  - vm_compute in H. discriminate.
  - discriminate.
Qed.

Lemma recvMessage_HcnetMessage_state app m w w' :
  recvMessage_HcnetMessage app m w = Some (tt, w') ->
  state_step m (mState (self w)) (mState (self w')).
Proof.
  intros H.
  unfold recvMessage_HcnetMessage in H. unfold bind at 1 in H. unfold get at 1 in H.
  destruct (shouldAbort app (self w)); [injection H as <-; left; reflexivity|].
  assert (Hpost : forall (c : M unit), settled c -> c w = Some (tt, w') ->
                  state_step m (mState (self w)) (mState (self w'))).
  { intros c S E. destruct (S _ _ _ E); unfold state_step; auto. }
  destruct m; cbn [type_of categorize] in H; cbv beta iota in H;
    try (apply (recvRawMessage_state app); exact H);
    (revert H; apply Hpost;
     apply settled_bind; [apply settled_beginMessageProcessing|intros _];
     match goal with
     | |- settled (if ?c then _ else _) => destruct c
     | _ => idtac
     end;
     first [apply settled_endMessageProcessing | apply settled_keeps, keeps_emit]).
Qed.

Lemma recvMessage_state app amsg w w' :
  recvMessage app amsg w = Some (tt, w') ->
  state_step (message amsg) (mState (self w)) (mState (self w')).
Proof.
  intros H.
  unfold recvMessage in H. unfold bind at 1 in H. unfold get at 1 in H.
  destruct (shouldAbort app (self w)); [injection H as <-; left; reflexivity|].
  unfold bind at 1 in H. unfold get at 1 in H.
  destruct ((state_value GOT_HELLO <=? state_value (mState (self w)))
            && negb (bool_decide (type_of (message amsg) = ERROR_MSG)));
    [|apply (recvMessage_HcnetMessage_state app); exact H].
  unfold bind at 1 in H. unfold get at 1 in H.
  unfold bind at 1 in H. unfold get at 1 in H.
  destruct (negb (sequence amsg =? mRecvMacSeq (self w))).
  { unfold bind at 1 in H. unfold modify at 1 in H.
    apply sendErrorAndDrop_closes in H. unfold state_step. auto. }
  destruct (negb (hmacSha256Verify app (mac amsg) (mRecvMacKey (self w))
                    (xdr_to_opaque app (sequence amsg) (message amsg)))).
  { unfold bind at 1 in H. unfold modify at 1 in H.
    apply sendErrorAndDrop_closes in H. unfold state_step. auto. }
  unfold bind at 1 in H. unfold modify at 1 in H.
  apply recvMessage_HcnetMessage_state in H. exact H.
Qed.

Lemma runTask_state app m cat w w' :
  runTask app (RecvMessageTask m cat) w = Some (tt, w') ->
  state_step m (mState (self w)) (mState (self w')).
Proof.
  intros H. unfold runTask in H. unfold bind at 1 in H.
  destruct (recvRawMessage app m w) as [[[] w1]|] eqn:E; [|discriminate].
  apply recvRawMessage_state in E.
  eapply state_step_settled; [exact E|].
  eapply settled_endMessageProcessing. exact H.
Qed.

Lemma state_step_rank m s s' :
  state_step m s s' -> state_value s <= state_value s'.
Proof.
  intros [->|[->|[(_ & Hs & ->)|(_ & -> & ->)]]].
  - lia.
  - destruct s; vm_compute; discriminate.
  - lia.
  - vm_compute. discriminate.
Qed.

(** X8. One input moves the state of a session only forwards and only
    by the steps of the handshake. After a frame was read, or a posted
    message was handled, the session is in the state it was in, or
    CLOSING, or it went from before GOT_HELLO to GOT_HELLO on a HELLO, or
    from GOT_HELLO to GOT_AUTH on an AUTH. In particular nothing but an
    AUTH received in GOT_HELLO makes a session authenticated. *)
Theorem deliver_state_step (app : Application) (i : Input) (w w' : World) :
  deliver app i w = Some (tt, w') ->
  state_step (input_message i) (mState (self w)) (mState (self w')).
Proof.
  destruct i as [amsg|m cat]; cbn [deliver input_message]; intros H.
  - exact (recvMessage_state app amsg w w' H).
  - exact (runTask_state app m cat w w' H).
Qed.

(** A HELLO takes a fresh responder to GOT_HELLO. *)
Lemma deliver_state_step_witness :
  let i := FrameRead {| sequence := 0; message := MsgHello (Sample.hello_from 2002);
                        mac := 0 |} in
  let w := {| self := Sample.fresh; events := []; draws := 0 |} in
  state_step (input_message i) (mState (self w)) (mState (self after_hello)).
Proof.
  intros i w.
  apply (deliver_state_step Sample.app i w after_hello).
  vm_compute. reflexivity.
Defined.

(** X9. Whatever a peer sends, the state of the session never goes
    back: along any sequence of inputs the state's rank (CONNECTING,
    CONNECTED, GOT_HELLO, GOT_AUTH, CLOSING) does not decrease. *)
Theorem deliver_never_goes_back (app : Application) (inputs : list Input) (w w' : World) :
  for_each inputs (deliver app) w = Some (tt, w') ->
  state_value (mState (self w)) <= state_value (mState (self w')).
Proof.
  revert w. induction inputs as [|i rest IH]; intros w H; cbn [for_each] in H.
  - injection H as <-. lia.
  - unfold bind at 1 in H.
    destruct (deliver app i w) as [[[] w1]|] eqn:E; [|discriminate].
    specialize (IH _ H).
    assert (state_value (mState (self w)) <= state_value (mState (self w1))); [|lia].
    destruct i as [amsg|m cat]; cbn [deliver] in E.
    + exact (state_step_rank _ _ _ (recvMessage_state app amsg w w1 E)).
    + exact (state_step_rank _ _ _ (runTask_state app m cat w w1 E)).
Qed.

(** A HELLO, then the AUTH, then a second HELLO: GOT_HELLO, GOT_AUTH,
    CLOSING. *)
Lemma deliver_never_goes_back_witness :
  let inputs :=
    [FrameRead {| sequence := 0; message := MsgHello (Sample.hello_from 2002); mac := 0 |};
     FrameRead auth_frame;
     TaskRuns (MsgHello (Sample.hello_from 2002)) "MISC"] in
  let w := {| self := Sample.fresh; events := []; draws := 0 |} in
  let w' := match for_each inputs (deliver Sample.app) w with
            | Some (_, w') => w'
            | None => w
            end in
  mState (self w') = CLOSING
  /\ state_value (mState (self w)) <= state_value (mState (self w')).
Proof.
  intros inputs w w'. split; [vm_compute; reflexivity|].
  apply (deliver_never_goes_back Sample.app inputs w w').
  vm_compute. reflexivity.
Defined.

(** ** Outward calls *)

Lemma does_bind (c k : M unit) w w1 w2 cs1 cs2 :
  does c w w1 cs1 -> does k w1 w2 cs2 -> does (c ;; k) w w2 (cs1 ++ cs2).
Proof.
  intros [E1 (a1 & V1 & C1)] [E2 (a2 & V2 & C2)]. split.
  - unfold bind. rewrite E1. exact E2.
  - exists (a1 ++ a2). split.
    + rewrite V2, V1, <- app_assoc. reflexivity.
    + rewrite calls_app, C1, C2. reflexivity.
Qed.

Lemma does_sendMessage app m w :
  exists w', does (sendMessage app m) w w' [EvSend m]
             /\ only_send_state (self w) (self w').
Proof.
  destruct (sendMessage_sends_only app m w) as [w' [E [S D [tail [Ev C]]]]].
  exists w'. split; [|exact S]. split; [exact E|].
  exists ([EvSend m] ++ tail). split; [exact Ev|].
  rewrite calls_app, C. reflexivity.
Qed.

Lemma does_drop reason dir mode w :
  exists w', does (drop reason dir mode) w w' [EvDrop reason dir mode]
             /\ mState (self w') = CLOSING
             /\ mFlowControl (self w') = mFlowControl (self w).
Proof.
  destruct (drop_spec reason dir mode w) as (p' & E & St & _ & _ & F & _).
  eexists. split; [split; [exact E|]|].
  - exists [EvDrop reason dir mode]. split; reflexivity.
  - split; [exact St|exact F].
Qed.

Lemma does_sendErrorAndDrop app code text mode w :
  exists w', does (sendErrorAndDrop app code text mode) w w'
               [EvSend (MsgError code text); EvDrop text WE_DROPPED_REMOTE mode]
             /\ mState (self w') = CLOSING
             /\ mFlowControl (self w') = mFlowControl (self w).
Proof.
  unfold sendErrorAndDrop, sendError.
  destruct (does_sendMessage app (MsgError code text) w) as (w1 & D1 & S1).
  destruct (does_drop text WE_DROPPED_REMOTE mode w1) as (w2 & D2 & St & F).
  exists w2. split; [exact (does_bind _ _ _ _ _ _ _ D1 D2)|].
  split; [exact St|]. rewrite F.
  destruct D1 as [E1 _].
  exact (sendMessage_not_flood_keeps_mFlowControl app (MsgError code text) eq_refl
           _ _ _ E1).
Qed.

(** ** Messages out of turn *)

(** X10. A message other than HELLO, AUTH and ERROR_MSG that is handled
    before the session is authenticated is not processed: the session
    drops the connection with the reason "received <type> before completed
    handshake", ignoring the write queue; no handler runs, nothing is sent,
    and the capacity tracker of the message, destroyed on a session that is
    now CLOSING, leaves the flow controller as it was. *)
Theorem message_before_handshake
    (app : Application) (m : HcnetMessage) (cat : string) (w : World) :
  shouldAbort app (self w) = false ->
  isAuthenticated (self w) = false ->
  type_of m <> HELLO -> type_of m <> AUTH -> type_of m <> ERROR_MSG ->
  exists p',
    runTask app (RecvMessageTask m cat) w =
      Some (tt, {| self := p';
                   events := events w ++
                     [EvDrop ("received " +:+ format_MessageType app (type_of m)
                              +:+ " before completed handshake")
                        WE_DROPPED_REMOTE IGNORE_WRITE_QUEUE];
                   draws := draws w |})
    /\ mState p' = CLOSING
    /\ mFlowControl p' = mFlowControl (self w).
Proof.
  intros Hab Hauth Hh Ha He.
  unfold runTask, recvRawMessage. unfold bind at 1.
  unfold bind at 1. unfold get at 1. rewrite Hab.
  unfold bind at 1. unfold get at 1. rewrite Hauth.
  rewrite !bool_decide_false by assumption. cbn [negb andb].
  match goal with
  | |- context [drop ?r ?d ?md w] =>
      destruct (drop_spec r d md w) as (p' & E & St & _ & _ & F & _)
  end.
  rewrite E. cbv beta iota.
  exists p'. split; [|split; assumption].
  unfold MsgCapacityTracker_delete, endMessageProcessing.
  unfold bind at 1. unfold get at 1. cbn [self].
  unfold shouldAbort. rewrite St. rewrite bool_decide_true by reflexivity.
  reflexivity.
Qed.

Lemma message_before_handshake_witness :
  exists p',
    runTask Sample.app (RecvMessageTask (MsgTransaction 7) "TX")
      {| self := Sample.fresh; events := []; draws := 0 |} =
      Some (tt, {| self := p';
                   events := [] ++
                     [EvDrop ("received " +:+ format_MessageType Sample.app TRANSACTION
                              +:+ " before completed handshake")
                        WE_DROPPED_REMOTE IGNORE_WRITE_QUEUE];
                   draws := 0 |})
    /\ mState p' = CLOSING
    /\ mFlowControl p' = mFlowControl Sample.fresh.
Proof.
  apply (message_before_handshake Sample.app (MsgTransaction 7) "TX"
           {| self := Sample.fresh; events := []; draws := 0 |});
    first [reflexivity | discriminate].
Defined.

(** X11. An AUTH that does not come right after the HELLO is refused:
    whenever a session that is not in GOT_HELLO (the HELLO has not come
    yet, or the session is authenticated already) receives an AUTH, it
    passes ERR_MISC "out-of-order AUTH message" to [sendMessage] and drops
    the connection, ignoring the write queue. *)
Theorem auth_out_of_order (app : Application) (flags : Z) (w : World) :
  shouldAbort app (self w) = false ->
  mState (self w) <> GOT_HELLO ->
  exists w',
    does (recvMessage_HcnetMessage app (MsgAuth flags)) w w'
      [EvSend (MsgError ERR_MISC "out-of-order AUTH message");
       EvDrop "out-of-order AUTH message" WE_DROPPED_REMOTE IGNORE_WRITE_QUEUE]
    /\ mState (self w') = CLOSING
    /\ mFlowControl (self w') = mFlowControl (self w).
Proof.
  intros Hab Hst.
  match goal with
  | |- context [does _ _ _ ?cs] =>
      destruct (does_sendErrorAndDrop app ERR_MISC "out-of-order AUTH message"
                  IGNORE_WRITE_QUEUE
                  {| self := self w;
                     events := events w ++
                       [EvCall (OverlayManager_recordMessageMetric (MsgAuth flags))];
                     draws := draws w |})
        as (w' & [E (added & Ev & C)] & St & F)
  end.
  exists w'. split; [|split; [exact St|exact F]].
  split.
  - unfold recvMessage_HcnetMessage. unfold bind at 1. unfold get at 1. rewrite Hab.
    cbn [type_of]. unfold recvRawMessage.
    unfold bind at 1. unfold get at 1. rewrite Hab.
    unfold bind at 1. unfold get at 1. cbn [type_of].
    rewrite (bool_decide_true (AUTH = AUTH)) by reflexivity.
    cbn [negb]. rewrite !andb_false_r, ?orb_true_r. cbn [andb orb].
    rewrite ?orb_true_r.
    unfold bind at 1. unfold releaseAssert at 1.
    unfold bind at 1. unfold emit at 1. cbv beta iota.
    unfold recvAuth. unfold bind at 1. unfold get at 1. cbn [self].
    rewrite bool_decide_false by exact Hst. cbn [negb].
    exact E.
  - exists ([EvCall (OverlayManager_recordMessageMetric (MsgAuth flags))] ++ added).
    cbn [events] in Ev. split.
    + rewrite Ev, <- app_assoc. reflexivity.
    + rewrite calls_app, C. reflexivity.
Qed.

(** An AUTH before any HELLO, on a fresh responder. *)
Lemma auth_out_of_order_witness :
  exists w',
    does (recvMessage_HcnetMessage Sample.app (MsgAuth 200))
      {| self := Sample.fresh; events := []; draws := 0 |} w'
      [EvSend (MsgError ERR_MISC "out-of-order AUTH message");
       EvDrop "out-of-order AUTH message" WE_DROPPED_REMOTE IGNORE_WRITE_QUEUE]
    /\ mState (self w') = CLOSING
    /\ mFlowControl (self w') = mFlowControl Sample.fresh.
Proof.
  apply (auth_out_of_order Sample.app 200
           {| self := Sample.fresh; events := []; draws := 0 |});
    first [reflexivity | discriminate].
Defined.

Lemma does_sendMessage_control app m w :
  isFloodMessage m = false ->
  exists w', does (sendMessage app m) w w' [EvSend m]
             /\ only_send_state (self w) (self w')
             /\ mFlowControl (self w') = mFlowControl (self w).
Proof.
  intros Hnf. destruct (does_sendMessage app m w) as (w' & D & S).
  exists w'. split; [exact D|]. split; [exact S|].
  destruct D as [E _].
  exact (sendMessage_not_flood_keeps_mFlowControl app m Hnf _ _ _ E).
Qed.

Lemma does_nothing w : does skip w w [].
Proof. split; [reflexivity|]. exists []. rewrite app_nil_r. split; reflexivity. Qed.

Lemma does_sendPeers app w :
  Z.of_nat (length (peersToSend app (mAddress (self w)))) <= Z.min 50 (PEERS_MAX_SIZE app) ->
  exists w', does (sendPeers app) w w' (peers_calls app (mAddress (self w)))
             /\ only_send_state (self w) (self w')
             /\ mFlowControl (self w') = mFlowControl (self w).
Proof.
  intros H. unfold peers_calls, peersToSend in *. unfold does, sendPeers. cbv zeta.
  unfold bind at 1. unfold get at 1.
  unfold bind at 1. unfold releaseAssert at 1.
  apply Z.leb_le in H. rewrite H.
  destruct (getPeersToSend app _ _) as [|a rest].
  - exists w. split; [apply does_nothing|]. split; [apply only_send_state_refl|reflexivity].
  - apply does_sendMessage_control. reflexivity.
Qed.

(** X12. A peer that the overlay manager does not accept is turned away
    before flow control starts. When an AUTH arrives in GOT_HELLO and
    [acceptAuthenticatedPeer] refuses the session, a responder has already
    answered with its AUTH and its known peers; then, on either side,
    ERR_LOAD "peer rejected" is passed to [sendMessage] and the connection is
    dropped, flushing the write queue. The flow controller is left as it
    was: no capacity is granted and no SCP state is asked for. *)
Theorem recvAuth_peer_rejected (app : Application) (flags : Z) (w : World) :
  mState (self w) = GOT_HELLO ->
  isEmpty (mAddress (self w)) = false ->
  Z.of_nat (length (peersToSend app (mAddress (self w)))) <= Z.min 50 (PEERS_MAX_SIZE app) ->
  acceptAuthenticatedPeer app (mPeerID (self w)) = false ->
  exists w',
    does (recvAuth app flags) w w'
      ((if decide (mRole (self w) = REMOTE_CALLED_US)
        then EvSend (ourAuth app) :: peers_calls app (mAddress (self w))
        else [])
       ++ [EvSend (MsgError ERR_LOAD "peer rejected");
           EvDrop "peer rejected" WE_DROPPED_REMOTE FLUSH_WRITE_QUEUE])
    /\ mState (self w') = CLOSING
    /\ mFlowControl (self w') = mFlowControl (self w).
Proof.
  intros Hst Haddr Hpeers Hacc.
  assert (Ia : send_invariant mAddress) by (intros ? ? ? ?; reflexivity).
  assert (Ii : send_invariant mPeerID) by (intros ? ? ? ?; reflexivity).
  assert (Ir : send_invariant mRole) by (intros ? ? ? ?; reflexivity).
  pose (w0 := {| self := set_mState GOT_AUTH (self w); events := events w;
                 draws := draws w |}).
  (* the answer of the responder *)
  assert (Hpre : exists wA,
            does (if decide (mRole (self w) = REMOTE_CALLED_US)
                  then sendAuth app ;; sendPeers app
                  else skip) w0 wA
              (if decide (mRole (self w) = REMOTE_CALLED_US)
               then EvSend (ourAuth app) :: peers_calls app (mAddress (self w))
               else [])
            /\ only_send_state (self w0) (self wA)
            /\ mFlowControl (self wA) = mFlowControl (self w)).
  { destruct (decide (mRole (self w) = REMOTE_CALLED_US)).
    - destruct (does_sendMessage_control app (ourAuth app) w0 eq_refl)
        as (w1 & D1 & S1 & F1).
      pose proof (only_send_state_inv _ _ _ Ia S1) as A1. cbn in A1.
      destruct (does_sendPeers app w1) as (w2 & D2 & S2 & F2).
      { rewrite A1. exact Hpeers. }
      rewrite A1 in D2.
      exists w2. split; [exact (does_bind _ _ _ _ _ _ _ D1 D2)|].
      split; [eapply only_send_state_trans; eauto|].
      rewrite F2, F1. reflexivity.
    - exists w0. split; [apply does_nothing|].
      split; [apply only_send_state_refl|reflexivity]. }
  destruct Hpre as (wA & [EA (addA & VA & CA)] & SA & FA).
  pose proof (only_send_state_inv _ _ _ Ia SA) as EAaddr.
  pose proof (only_send_state_inv _ _ _ Ii SA) as EAid.
  pose proof (only_send_state_inv _ _ _ Ir SA) as EArole.
  cbn in EAaddr, EAid, EArole.
  (* the peer record *)
  assert (Hrec : exists wB tail,
            updatePeerRecordAfterAuthentication wA = Some (tt, wB)
            /\ self wB = self wA
            /\ events wB = events wA ++ tail /\ calls tail = []).
  { unfold updatePeerRecordAfterAuthentication.
    unfold bind at 1. unfold get at 1.
    unfold bind at 1. unfold releaseAssert at 1.
    change (mAddress (id (self wA))) with (mAddress (self wA)).
    rewrite EAaddr, Haddr. cbn [negb].
    destruct (decide (mRole (id (self wA)) = WE_CALLED_REMOTE)).
    - eexists _, [_]. split; [reflexivity|]. repeat split.
    - exists wA, []. rewrite app_nil_r. repeat split. }
  destruct Hrec as (wB & tailB & EB & SB & VB & CB).
  destruct (does_sendErrorAndDrop app ERR_LOAD "peer rejected" FLUSH_WRITE_QUEUE wB)
    as (w' & [EC (addC & VC & CC)] & St & FC).
  exists w'. split; [|split; [exact St|rewrite FC, SB; exact FA]].
  split.
  - unfold recvAuth.
    unfold bind at 1. unfold get at 1. rewrite Hst.
    rewrite bool_decide_true by reflexivity. cbn [negb].
    unfold bind at 1. unfold get at 1. unfold isAuthenticated at 1. rewrite Hst.
    rewrite bool_decide_false by discriminate.
    unfold bind at 1. unfold modify at 1. fold w0.
    unfold bind at 1. unfold get at 1.
    change (mRole (self w0)) with (mRole (self w)).
    unfold bind at 1. rewrite EA. cbv beta iota.
    unfold bind at 1. rewrite EB. cbv beta iota.
    unfold bind at 1. unfold get at 1.
    change (mPeerID (id (self wB))) with (mPeerID (self wB)).
    rewrite SB, EAid, Hacc. cbn [negb].
    exact EC.
  - exists (addA ++ tailB ++ addC). split.
    + rewrite VC, VB, VA. change (events w0) with (events w).
      rewrite <- !app_assoc. reflexivity.
    + rewrite !calls_app, CA, CB, CC. reflexivity.
Qed.

Lemma recvAuth_peer_rejected_witness :
  let crowded := with_acceptAuthenticatedPeer (fun _ => false) Sample.app in
  exists w',
    does (recvAuth crowded 200) after_hello w'
      [EvSend (MsgAuth 200);
       EvSend (MsgError ERR_LOAD "peer rejected");
       EvDrop "peer rejected" WE_DROPPED_REMOTE FLUSH_WRITE_QUEUE]
    /\ mState (self w') = CLOSING
    /\ mFlowControl (self w') = mFlowControl (self after_hello).
Proof.
  intros crowded.
  apply (recvAuth_peer_rejected crowded 200 after_hello).
  - vm_compute. reflexivity.
  - vm_compute. reflexivity.
  - vm_compute. discriminate.
  - reflexivity.
Defined.

(** ** C6: an AUTH that starts no flow control *)

(** An AUTH in GOT_HELLO from a peer the overlay manager does not accept:
    the session closes and its flow controller is as it was. *)
Lemma recvAuth_rejected app flags w :
  mState (self w) = GOT_HELLO ->
  isEmpty (mAddress (self w)) = false ->
  Z.of_nat (length (peersToSend app (mAddress (self w)))) <= Z.min 50 (PEERS_MAX_SIZE app) ->
  acceptAuthenticatedPeer app (mPeerID (self w)) = false ->
  exists w',
    recvAuth app flags w = Some (tt, w')
    /\ mState (self w') = CLOSING
    /\ mFlowControl (self w') = mFlowControl (self w).
Proof.
  intros Hst Haddr Hpeers Hacc.
  assert (Ia : send_invariant mAddress) by (intros ? ? ? ?; reflexivity).
  assert (Ii : send_invariant mPeerID) by (intros ? ? ? ?; reflexivity).
  pose (w0 := {| self := set_mState GOT_AUTH (self w); events := events w;
                 draws := draws w |}).
  assert (Hpre : exists wA,
            (if decide (mRole (self w) = REMOTE_CALLED_US)
             then sendAuth app ;; sendPeers app
             else skip) w0 = Some (tt, wA)
            /\ only_send_state (self w0) (self wA)
            /\ mFlowControl (self wA) = mFlowControl (self w)).
  { destruct (decide (mRole (self w) = REMOTE_CALLED_US)).
    - destruct (does_sendMessage_control app (ourAuth app) w0 eq_refl)
        as (w1 & [E1 _] & S1 & F1).
      pose proof (only_send_state_inv _ _ _ Ia S1) as A1. cbn in A1.
      destruct (does_sendPeers app w1) as (w2 & [E2 _] & S2 & F2).
      { rewrite A1. exact Hpeers. }
      exists w2. split.
      { unfold bind. unfold sendAuth. fold (ourAuth app). rewrite E1. exact E2. }
      split; [eapply only_send_state_trans; eauto|].
      rewrite F2, F1. reflexivity.
    - exists w0. split; [reflexivity|].
      split; [apply only_send_state_refl|reflexivity]. }
  destruct Hpre as (wA & EA & SA & FA).
  pose proof (only_send_state_inv _ _ _ Ia SA) as EAaddr.
  pose proof (only_send_state_inv _ _ _ Ii SA) as EAid.
  cbn in EAaddr, EAid.
  assert (Hrec : exists wB,
            updatePeerRecordAfterAuthentication wA = Some (tt, wB)
            /\ self wB = self wA).
  { unfold updatePeerRecordAfterAuthentication.
    unfold bind at 1. unfold get at 1.
    unfold bind at 1. unfold releaseAssert at 1.
    change (mAddress (id (self wA))) with (mAddress (self wA)).
    rewrite EAaddr, Haddr. cbn [negb].
    destruct (decide (mRole (id (self wA)) = WE_CALLED_REMOTE)).
    - eexists. split; reflexivity.
    - exists wA. split; reflexivity. }
  destruct Hrec as (wB & EB & SB).
  destruct (does_sendErrorAndDrop app ERR_LOAD "peer rejected" FLUSH_WRITE_QUEUE wB)
    as (w' & [EC _] & St & FC).
  exists w'. split; [|split; [exact St|rewrite FC, SB; exact FA]].
  unfold recvAuth.
  unfold bind at 1. unfold get at 1. rewrite Hst.
  rewrite bool_decide_true by reflexivity. cbn [negb].
  unfold bind at 1. unfold get at 1. unfold isAuthenticated at 1. rewrite Hst.
  rewrite bool_decide_false by discriminate.
  unfold bind at 1. unfold modify at 1. fold w0.
  unfold bind at 1. unfold get at 1.
  change (mRole (self w0)) with (mRole (self w)).
  unfold bind at 1. rewrite EA. cbv beta iota.
  unfold bind at 1. rewrite EB. cbv beta iota.
  unfold bind at 1. unfold get at 1.
  change (mPeerID (id (self wB))) with (mPeerID (self wB)).
  rewrite SB, EAid, Hacc. cbn [negb].
  exact EC.
Qed.

(** C6 (as amended). When an AUTH is received in GOT_HELLO and the
    overlay manager accepts the authenticated peer, the session enters
    GOT_AUTH and the byte axis of its flow controller is enabled if and
    only if the local overlay version is at least 28, the remote overlay
    version is at least 28, the flags of the AUTH are the
    byte-flow-control request and the local configuration enables byte
    flow control; otherwise the message axis alone is active. An AUTH
    received in another state, or from a peer the overlay manager does not
    accept, starts no flow control whatever the three conditions: the
    session is left CLOSING and its flow controller, byte axis included,
    is as it was. The hypotheses are the assertions [recvAuth] makes on
    the way: the address of the peer is set and the list of peers to send
    is within its bound. *)
Theorem recvAuth_enables_byte_axis (app : Application) (w : World) (flags : Z) :
  isEmpty (mAddress (self w)) = false ->
  Z.of_nat (length (peersToSend app (mAddress (self w)))) <= Z.min 50 (PEERS_MAX_SIZE app) ->
  exists w',
    recvAuth app flags w = Some (tt, w')
    /\ if bool_decide (mState (self w) = GOT_HELLO)
          && acceptAuthenticatedPeer app (mPeerID (self w))
       then
         mState (self w') = GOT_AUTH
         /\ (is_Some (FlowControl.mFlowControlBytesCapacity (mFlowControl (self w'))) <->
             28 <= OVERLAY_PROTOCOL_VERSION (getConfig app)
             /\ 28 <= mRemoteOverlayVersion (self w)
             /\ flags = AUTH_MSG_FLAG_FLOW_CONTROL_BYTES_REQUESTED app
             /\ ENABLE_FLOW_CONTROL_BYTES (getConfig app) = true)
       else
         mState (self w') = CLOSING
         /\ mFlowControl (self w') = mFlowControl (self w).
Proof.
  intros Haddr Hpeers.
  destruct (decide (mState (self w) = GOT_HELLO)) as [Hst|Hst].
  - rewrite bool_decide_true by exact Hst. cbn [andb].
    destruct (acceptAuthenticatedPeer app (mPeerID (self w))) eqn:Hacc.
    + destruct (recvAuth_accepted app w flags Hst Haddr Hpeers Hacc)
        as (w' & E & St & B).
      exists w'. split; [exact E|]. split; [exact St|exact B].
    + destruct (recvAuth_rejected app flags w Hst Haddr Hpeers Hacc) as (w' & E & St & F).
      exists w'. split; [exact E|]. split; [exact St|exact F].
  - rewrite bool_decide_false by exact Hst. cbn [andb].
    destruct (does_sendErrorAndDrop app ERR_MISC "out-of-order AUTH message"
                IGNORE_WRITE_QUEUE w) as (w' & [E _] & St & F).
    exists w'. split; [|split; [exact St|exact F]].
    unfold recvAuth. unfold bind at 1. unfold get at 1.
    rewrite bool_decide_false by exact Hst. cbn [negb]. exact E.
Qed.

(** The responder of the sample accepts the AUTH of node 2002, which asks
    for byte flow control. *)
Lemma recvAuth_enables_byte_axis_witness :
  exists w',
    recvAuth Sample.app 200 after_hello = Some (tt, w')
    /\ if bool_decide (mState (self after_hello) = GOT_HELLO)
          && acceptAuthenticatedPeer Sample.app (mPeerID (self after_hello))
       then
         mState (self w') = GOT_AUTH
         /\ (is_Some (FlowControl.mFlowControlBytesCapacity (mFlowControl (self w'))) <->
             28 <= OVERLAY_PROTOCOL_VERSION (getConfig Sample.app)
             /\ 28 <= mRemoteOverlayVersion (self after_hello)
             /\ 200 = AUTH_MSG_FLAG_FLOW_CONTROL_BYTES_REQUESTED Sample.app
             /\ ENABLE_FLOW_CONTROL_BYTES (getConfig Sample.app) = true)
       else
         mState (self w') = CLOSING
         /\ mFlowControl (self w') = mFlowControl (self after_hello).
Proof.
  apply (recvAuth_enables_byte_axis Sample.app after_hello 200).
  - reflexivity.
  - vm_compute. discriminate.
Defined.

(** C6 as stated fails in the direction from the conditions to the byte
    axis. The three conditions hold for the AUTH of node 2002, and the
    session is in GOT_HELLO; the overlay manager does not accept the peer,
    so the session closes before flow control starts, and the byte axis
    stays off. *)
Lemma recvAuth_counterexample :
  let crowded := with_acceptAuthenticatedPeer (fun _ => false) Sample.app in
  mState (self after_hello) = GOT_HELLO
  /\ (28 <=? OVERLAY_PROTOCOL_VERSION (getConfig crowded)) = true
  /\ (28 <=? mRemoteOverlayVersion (self after_hello)) = true
  /\ 200 = AUTH_MSG_FLAG_FLOW_CONTROL_BYTES_REQUESTED crowded
  /\ ENABLE_FLOW_CONTROL_BYTES (getConfig crowded) = true
  /\ bothWantBytes crowded (self after_hello) 200 = true
  /\ option_map (fun r => (mState (self (snd r)),
                           FlowControl.mFlowControlBytesCapacity
                             (mFlowControl (self (snd r)))))
       (recvAuth crowded 200 after_hello)
     = Some (CLOSING, None).
Proof. vm_compute. repeat split. Qed.

(** ** A HELLO that passes the checks of C2 *)

Lemma failed_check_None app elo :
  failed_check app elo = None ->
  verifyRemoteAuthCert app (peerID elo) (cert elo) = true
  /\ isBanned app (peerID elo) = false
  /\ (overlayVersion elo <? overlayMinVersion elo)
     || (overlayVersion elo <? OVERLAY_PROTOCOL_MIN_VERSION (getConfig app))
     || (OVERLAY_PROTOCOL_VERSION (getConfig app) <? overlayMinVersion elo) = false
  /\ (peerID elo =? NODE_SEED_getPublicKey (getConfig app)) = false
  /\ (networkID elo =? getNetworkID app) = true.
Proof.
  unfold failed_check. cbv zeta.
  destruct (verifyRemoteAuthCert app (peerID elo) (cert elo)); cbn [negb]; [|discriminate].
  destruct (isBanned app (peerID elo)); [discriminate|].
  destruct ((overlayVersion elo <? overlayMinVersion elo)
            || (overlayVersion elo <? OVERLAY_PROTOCOL_MIN_VERSION (getConfig app))
            || (OVERLAY_PROTOCOL_VERSION (getConfig app) <? overlayMinVersion elo));
    [discriminate|].
  destruct (peerID elo =? NODE_SEED_getPublicKey (getConfig app)); [discriminate|].
  destruct (networkID elo =? getNetworkID app); cbn [negb]; [|discriminate].
  intros _. repeat split.
Qed.

Lemma hello_recorded_send app elo p p1 p2 :
  hello_recorded app elo p p1 -> only_send_state p1 p2 -> hello_recorded app elo p p2.
Proof.
  unfold hello_recorded. intros H ->. exact H.
Qed.

(** [recvHello] is the two parts in sequence. *)
Lemma recvHello_early app elo w :
  state_value (mState (self w)) < state_value GOT_HELLO ->
  verifyRemoteAuthCert app (peerID elo) (cert elo) = true ->
  isBanned app (peerID elo) = false ->
  getIP app <> "" ->
  recvHello app elo w =
  recvHello_late app elo
    {| self := hello_record app elo (self w); events := events w; draws := draws w |}.
Proof.
  intros Hst Hv Hb Hip.
  unfold recvHello. unfold bind at 1. unfold get at 1.
  apply Z.ltb_lt in Hst. rewrite Z.ltb_antisym in Hst.
  apply negb_true_iff in Hst. rewrite Hst, Hv, Hb. cbn [negb].
  do 10 (unfold bind at 1; unfold modify at 1; cbv beta iota; cbn [self events draws]).
  cbv zeta.
  destruct (decide (getIP app = "")) as [|_]; [contradiction|].
  unfold bind at 1; unfold modify at 1; cbv beta iota; cbn [self events draws].
  unfold recvHello_late, recvHello_verdict, hello_record. cbv zeta.
  reflexivity.
Qed.

Lemma hello_record_recorded app elo p :
  hello_recorded app elo p (hello_record app elo p)
  /\ this (hello_record app elo p) = this p
  /\ mRole (hello_record app elo p) = mRole p
  /\ mSendNonce (hello_record app elo p) = mSendNonce p
  /\ mFlowControl (hello_record app elo p) = mFlowControl p.
Proof. repeat split. Qed.

(** Up to the verdict: the session has recorded the HELLO, and the
    responder has answered it. *)
Lemma recvHello_answered app elo w :
  state_value (mState (self w)) < state_value GOT_HELLO ->
  failed_check app elo = None ->
  getIP app <> "" ->
  exists w2 added,
    recvHello app elo w =
      recvHello_verdict app elo (mRole (self w))
        (if decide (mRole (self w) = REMOTE_CALLED_US)
         then FLUSH_WRITE_QUEUE else IGNORE_WRITE_QUEUE) (self w2) w2
    /\ hello_recorded app elo (self w) (self w2)
    /\ this (self w2) = this (self w)
    /\ mRole (self w2) = mRole (self w)
    /\ events w2 = events w ++ added
    /\ calls added = (if decide (mRole (self w) = REMOTE_CALLED_US)
                      then [EvSend (ourHello app (self w))]
                      else []).
Proof.
  intros Hst Hf Hip.
  assert (I5 : send_invariant this) by (intros ? ? ? ?; reflexivity).
  assert (I6 : send_invariant mRole) by (intros ? ? ? ?; reflexivity).
  destruct (failed_check_None _ _ Hf) as (Hv & Hb & _).
  rewrite (recvHello_early app elo w Hst Hv Hb Hip).
  destruct (hello_record_recorded app elo (self w)) as (R1 & T1 & O1 & S1 & _).
  set (w1 := {| self := hello_record app elo (self w); events := events w;
                draws := draws w |}).
  change (hello_record app elo (self w)) with (self w1) in R1, T1, O1, S1.
  assert (E1 : events w1 = events w) by reflexivity.
  clearbody w1.
  unfold recvHello_late.
  unfold bind at 1. unfold get at 1. rewrite O1.
  destruct (decide (mRole (self w) = REMOTE_CALLED_US)).
  - destruct (sendHello_spec app w1) as (w2 & Hs & [S D (tail & E & C)]).
    exists w2, ([EvSend (ourHello app (self w1))] ++ tail).
    unfold bind at 1. unfold bind at 1. rewrite Hs.
    split; [reflexivity|].
    split; [eapply hello_recorded_send; eauto|].
    split; [rewrite (only_send_state_inv _ _ _ I5 S); exact T1|].
    split; [rewrite (only_send_state_inv _ _ _ I6 S); exact O1|].
    split; [rewrite E, E1; reflexivity|].
    rewrite calls_app, C. unfold ourHello. rewrite S1. reflexivity.
  - exists w1, []. split; [reflexivity|].
    split; [exact R1|]. split; [exact T1|]. split; [exact O1|].
    rewrite app_nil_r. split; [exact E1|reflexivity].
Qed.

(** X13. A HELLO that passes every check is accepted. Received before
    GOT_HELLO from a known address, with a listening port between 1 and
    65535, a certificate that verifies, an identity that is neither
    banned, nor ours, nor held by another session, and compatible overlay
    versions on our network, it leaves the session in GOT_HELLO with the
    peer's identity, versions, nonce and address recorded, the receive
    sequence at 0 and the two MAC keys derived from the certificate and the
    nonces. The responder answers with its own HELLO, the initiator with
    its AUTH; nothing else is sent and the connection is kept. *)
Theorem recvHello_accepts (app : Application) (elo : Hello) (w : World) :
  state_value (mState (self w)) < state_value GOT_HELLO ->
  failed_check app elo = None ->
  getIP app <> "" ->
  0 < listeningPort elo <= UINT16_MAX ->
  already_connected app (this (self w)) (peerID elo) = false ->
  exists w',
    does (recvHello app elo) w w'
      [EvSend (if decide (mRole (self w) = REMOTE_CALLED_US)
               then ourHello app (self w)
               else ourAuth app)]
    /\ hello_recorded app elo (self w) (self w').
Proof.
  intros Hst Hf Hip Hport Hdup.
  destruct (recvHello_answered app elo w Hst Hf Hip)
    as (w2 & added2 & E2 & R2 & T2 & O2 & V2 & C2).
  destruct (failed_check_None _ _ Hf) as (_ & _ & Hver & Hself & Hnet).
  unfold does. rewrite E2. clear E2.
  pose proof R2 as (Rst & Rid & Rver & Rov & Romv & Rn & Rseq & Rsk & Rrk & Raddr).
  unfold recvHello_verdict. cbv zeta.
  rewrite Rov, Romv, Hver, Hself, Hnet. cbn [negb].
  assert (Hp : (listeningPort elo <=? 0) || (UINT16_MAX <? listeningPort elo)
               || bool_decide (getIP app = "") = false).
  { rewrite bool_decide_false by exact Hip.
    destruct (Z.leb_spec (listeningPort elo) 0); [lia|].
    destruct (Z.ltb_spec UINT16_MAX (listeningPort elo)); [lia|]. reflexivity. }
  rewrite Hp.
  (* the peer record *)
  unfold bind at 1. unfold updatePeerRecordAfterEcho.
  unfold bind at 1. unfold get at 1.
  unfold bind at 1. unfold releaseAssert at 1.
  change (mAddress (id (self w2))) with (mAddress (self w2)).
  rewrite Raddr. cbn [isEmpty negb]. unfold emit at 1. cbv beta iota.
  (* no other session of this peer *)
  unfold already_connected in Hdup. apply orb_false_iff in Hdup.
  destruct Hdup as [Hd1 Hd2].
  rewrite Rid, T2, Hd1, Hd2.
  destruct (decide (mRole (self w) = WE_CALLED_REMOTE)) as [Rw|Rw].
  - destruct (decide (mRole (self w) = REMOTE_CALLED_US)) as [Rr|_];
      [rewrite Rr in Rw; discriminate|].
    match goal with
    | |- context [sendAuth app ?w0] =>
        destruct (does_sendMessage app (ourAuth app) w0) as (w3 & [E3 (a3 & V3 & C3)] & S3)
    end.
    exists w3. split; [split; [exact E3|]|].
    + cbn [events] in V3. rewrite V2 in V3.
      eexists. split; [rewrite V3, <- !app_assoc; reflexivity|].
      rewrite !calls_app, C2, C3. reflexivity.
    + eapply hello_recorded_send; [|exact S3]. exact R2.
  - destruct (decide (mRole (self w) = REMOTE_CALLED_US)) as [Rr|Rr];
      [|destruct (mRole (self w)); contradiction].
    eexists. split; [split; [reflexivity|]|].
    + cbn [events]. rewrite V2.
      eexists. split; [rewrite <- !app_assoc; reflexivity|].
      rewrite !calls_app, C2. reflexivity.
    + exact R2.
Qed.

(** The HELLO of node 2002 on a fresh responder, which answers with its
    own HELLO. *)
Lemma recvHello_accepts_witness :
  let w := {| self := Sample.fresh; events := []; draws := 0 |} in
  exists w',
    does (recvHello Sample.app (Sample.hello_from 2002)) w w'
      [EvSend (ourHello Sample.app Sample.fresh)]
    /\ hello_recorded Sample.app (Sample.hello_from 2002) Sample.fresh (self w').
Proof.
  intros w.
  apply (recvHello_accepts Sample.app (Sample.hello_from 2002) w).
  - vm_compute. reflexivity.
  - vm_compute. reflexivity.
  - discriminate.
  - vm_compute. split; [reflexivity|discriminate].
  - vm_compute. reflexivity.
Defined.

(** X14. A HELLO that passes the checks of identity, version and network
    but names a listening port outside 1..65535 is refused with ERR_CONF
    "bad address"; the connection is then dropped ignoring the write queue
    on the responder side as well, although the responder has just queued
    its own HELLO and the error. *)
Theorem recvHello_bad_address (app : Application) (elo : Hello) (w : World) :
  state_value (mState (self w)) < state_value GOT_HELLO ->
  failed_check app elo = None ->
  getIP app <> "" ->
  listeningPort elo <= 0 \/ UINT16_MAX < listeningPort elo ->
  exists w',
    does (recvHello app elo) w w'
      ((if decide (mRole (self w) = REMOTE_CALLED_US)
        then [EvSend (ourHello app (self w))]
        else [])
       ++ [EvSend (MsgError ERR_CONF "bad address");
           EvDrop "bad address" WE_DROPPED_REMOTE IGNORE_WRITE_QUEUE])
    /\ mState (self w') = CLOSING.
Proof.
  intros Hst Hf Hip Hport.
  destruct (recvHello_answered app elo w Hst Hf Hip)
    as (w2 & added2 & E2 & R2 & T2 & O2 & V2 & C2).
  destruct (failed_check_None _ _ Hf) as (_ & _ & Hver & Hself & Hnet).
  unfold does. rewrite E2. clear E2.
  pose proof R2 as (Rst & Rid & Rver & Rov & Romv & Rn & Rseq & Rsk & Rrk & Raddr).
  unfold recvHello_verdict. cbv zeta.
  rewrite Rov, Romv, Hver, Hself, Hnet. cbn [negb].
  assert (Hp : (listeningPort elo <=? 0) || (UINT16_MAX <? listeningPort elo)
               || bool_decide (getIP app = "") = true).
  { destruct (Z.leb_spec (listeningPort elo) 0); [reflexivity|].
    destruct (Z.ltb_spec UINT16_MAX (listeningPort elo)); [reflexivity|lia]. }
  rewrite Hp.
  destruct (does_sendErrorAndDrop app ERR_CONF "bad address" IGNORE_WRITE_QUEUE w2)
    as (w' & [E (added & V & C)] & St & _).
  exists w'. split; [split; [exact E|]|exact St].
  exists (added2 ++ added). split.
  - rewrite V, V2, <- app_assoc. reflexivity.
  - rewrite calls_app, C2, C. reflexivity.
Qed.

Lemma recvHello_bad_address_witness :
  let w := {| self := Sample.fresh; events := []; draws := 0 |} in
  let elo :=
    {| ledgerVersion := 20; overlayVersion := 30; overlayMinVersion := 27;
       networkID := 5; versionStr := "remote"; listeningPort := 70000;
       peerID := 2002; cert := {| cert_pubkey := 9; cert_expiration := 0; cert_sig := 2011 |};
       nonce := 77 |} in
  exists w',
    does (recvHello Sample.app elo) w w'
      ([EvSend (ourHello Sample.app Sample.fresh)]
       ++ [EvSend (MsgError ERR_CONF "bad address");
           EvDrop "bad address" WE_DROPPED_REMOTE IGNORE_WRITE_QUEUE])
    /\ mState (self w') = CLOSING.
Proof.
  intros w elo.
  apply (recvHello_bad_address Sample.app elo w).
  - vm_compute. reflexivity.
  - vm_compute. reflexivity.
  - discriminate.
  - right. vm_compute. reflexivity.
Defined.

(** X15. One session per node identity. A HELLO that passes the other
    checks but comes from an identity that another session, authenticated
    or pending, already holds is refused with ERR_CONF "already-connected
    peer: <identity>", after the peer record was updated; the responder
    flushes its write queue, the initiator does not. *)
Theorem recvHello_already_connected (app : Application) (elo : Hello) (w : World) :
  state_value (mState (self w)) < state_value GOT_HELLO ->
  failed_check app elo = None ->
  getIP app <> "" ->
  0 < listeningPort elo <= UINT16_MAX ->
  already_connected app (this (self w)) (peerID elo) = true ->
  let text := "already-connected peer: " +:+ toShortString app (peerID elo) in
  exists w',
    does (recvHello app elo) w w'
      ((if decide (mRole (self w) = REMOTE_CALLED_US)
        then [EvSend (ourHello app (self w))]
        else [])
       ++ [EvSend (MsgError ERR_CONF text);
           EvDrop text WE_DROPPED_REMOTE
             (if decide (mRole (self w) = REMOTE_CALLED_US)
              then FLUSH_WRITE_QUEUE else IGNORE_WRITE_QUEUE)])
    /\ mState (self w') = CLOSING.
Proof.
  intros Hst Hf Hip Hport Hdup text.
  destruct (recvHello_answered app elo w Hst Hf Hip)
    as (w2 & added2 & E2 & R2 & T2 & O2 & V2 & C2).
  destruct (failed_check_None _ _ Hf) as (_ & _ & Hver & Hself & Hnet).
  unfold does. rewrite E2. clear E2.
  pose proof R2 as (Rst & Rid & Rver & Rov & Romv & Rn & Rseq & Rsk & Rrk & Raddr).
  unfold recvHello_verdict. cbv zeta.
  rewrite Rov, Romv, Hver, Hself, Hnet. cbn [negb].
  assert (Hp : (listeningPort elo <=? 0) || (UINT16_MAX <? listeningPort elo)
               || bool_decide (getIP app = "") = false).
  { rewrite bool_decide_false by exact Hip.
    destruct (Z.leb_spec (listeningPort elo) 0); [lia|].
    destruct (Z.ltb_spec UINT16_MAX (listeningPort elo)); [lia|]. reflexivity. }
  rewrite Hp.
  unfold bind at 1. unfold updatePeerRecordAfterEcho.
  unfold bind at 1. unfold get at 1.
  unfold bind at 1. unfold releaseAssert at 1.
  change (mAddress (id (self w2))) with (mAddress (self w2)).
  rewrite Raddr. cbn [isEmpty negb]. unfold emit at 1. cbv beta iota.
  rewrite Rid, T2.
  match goal with
  | |- exists _, (?f ?w0 = _ /\ _) /\ _ =>
      destruct (does_sendErrorAndDrop app ERR_CONF text
                  (if decide (mRole (self w) = REMOTE_CALLED_US)
                   then FLUSH_WRITE_QUEUE else IGNORE_WRITE_QUEUE) w0)
        as (w' & [E (added & V & C)] & St & _)
  end.
  assert (Hgo : (if match getAuthenticatedPeers app !! peerID elo with
                    | Some other => negb (other =? this (self w))
                    | None => false
                    end
                 then true
                 else existsb (fun '(other, otherID) =>
                                 negb (other =? this (self w)) && (otherID =? peerID elo))
                        (getPendingPeers app)) = true).
  { unfold already_connected in Hdup.
    destruct (match getAuthenticatedPeers app !! peerID elo with
              | Some other => negb (other =? this (self w))
              | None => false
              end); [reflexivity|exact Hdup]. }
  exists w'. split; [split|exact St].
  - destruct (match getAuthenticatedPeers app !! peerID elo with
              | Some other => negb (other =? this (self w))
              | None => false
              end); [exact E|].
    rewrite Hgo. exact E.
  - cbn [events] in V. rewrite V2 in V.
    eexists. split; [rewrite V, <- !app_assoc; reflexivity|].
    rewrite !calls_app, C2, C. reflexivity.
Qed.

(** A second connection from node 2002 while another session with it is
    pending. *)
Lemma recvHello_already_connected_witness :
  let app := with_getPendingPeers [(99, 2002)] Sample.app in
  let w := {| self := Sample.fresh; events := []; draws := 0 |} in
  exists w',
    does (recvHello app (Sample.hello_from 2002)) w w'
      ([EvSend (ourHello app Sample.fresh)]
       ++ [EvSend (MsgError ERR_CONF "already-connected peer: GABCD");
           EvDrop "already-connected peer: GABCD" WE_DROPPED_REMOTE FLUSH_WRITE_QUEUE])
    /\ mState (self w') = CLOSING.
Proof.
  intros app w.
  apply (recvHello_already_connected app (Sample.hello_from 2002) w).
  - vm_compute. reflexivity.
  - vm_compute. reflexivity.
  - discriminate.
  - vm_compute. split; [reflexivity|discriminate].
  - vm_compute. reflexivity.
Defined.

(** X16. When the transport cannot tell the remote address, a HELLO with
    a valid certificate from an identity that is not banned makes the
    session drop the connection with "failed to determine remote address",
    ignoring the write queue: no error is sent, and none of the later
    checks is made. *)
Theorem recvHello_unknown_address (app : Application) (elo : Hello) (w : World) :
  state_value (mState (self w)) < state_value GOT_HELLO ->
  verifyRemoteAuthCert app (peerID elo) (cert elo) = true ->
  isBanned app (peerID elo) = false ->
  getIP app = "" ->
  exists p',
    recvHello app elo w =
      Some (tt, {| self := p';
                   events := events w ++
                     [EvDrop "failed to determine remote address"
                        WE_DROPPED_REMOTE IGNORE_WRITE_QUEUE];
                   draws := draws w |})
    /\ mState p' = CLOSING.
Proof.
  intros Hst Hv Hb Hip.
  unfold recvHello. unfold bind at 1. unfold get at 1.
  apply Z.ltb_lt in Hst. rewrite Z.ltb_antisym in Hst.
  apply negb_true_iff in Hst. rewrite Hst, Hv, Hb. cbn [negb].
  do 10 (unfold bind at 1; unfold modify at 1; cbv beta iota; cbn [self events draws]).
  cbv zeta.
  destruct (decide (getIP app = "")) as [_|]; [|contradiction].
  match goal with
  | |- context [drop ?r ?d ?m ?w0] =>
      destruct (drop_spec r d m w0) as (p' & E & St & _)
  end.
  exists p'. split; [exact E|exact St].
Qed.

Lemma recvHello_unknown_address_witness :
  let app := with_getIP "" Sample.app in
  exists p',
    recvHello app (Sample.hello_from 2002)
      {| self := Sample.fresh; events := []; draws := 0 |} =
      Some (tt, {| self := p';
                   events := [] ++
                     [EvDrop "failed to determine remote address"
                        WE_DROPPED_REMOTE IGNORE_WRITE_QUEUE];
                   draws := 0 |})
    /\ mState p' = CLOSING.
Proof.
  intros app.
  apply (recvHello_unknown_address app (Sample.hello_from 2002)
           {| self := Sample.fresh; events := []; draws := 0 |}).
  - vm_compute. reflexivity.
  - vm_compute. reflexivity.
  - vm_compute. reflexivity.
  - reflexivity.
Defined.

(** ** Exchanging addresses *)

(** X17. [sendPeers] hands at most one PEERS message to [sendMessage],
    and only when the peer manager has addresses to offer: the message
    carries these addresses, at least one and never more than 50. The call
    aborts exactly when the peer manager returns more addresses than it was
    asked for. *)
Theorem sendPeers_at_most_50 (app : Application) (w : World) :
  let peers := peersToSend app (mAddress (self w)) in
  match sendPeers app w with
  | Some (_, w') =>
      Z.of_nat (length peers) <= 50
      /\ exists added,
           events w' = events w ++ added
           /\ calls added =
                match peers with
                | [] => []
                | _ => [EvSend (MsgPeers (map (toXdr app) peers))]
                end
  | None => Z.min 50 (PEERS_MAX_SIZE app) < Z.of_nat (length peers)
  end.
Proof.
  intros peers.
  destruct (Z.le_gt_cases (Z.of_nat (length peers)) (Z.min 50 (PEERS_MAX_SIZE app)))
    as [Hle|Hgt].
  - destruct (does_sendPeers app w Hle) as (w' & [E (added & V & C)] & _).
    rewrite E. split; [lia|]. exists added. split; [exact V|].
    rewrite C. unfold peers_calls. fold peers. destruct peers; reflexivity.
  - unfold sendPeers. cbv zeta. unfold bind at 1. unfold get at 1.
    unfold bind at 1. unfold releaseAssert at 1.
    fold (peersToSend app (mAddress (self w))). fold peers.
    apply Z.leb_gt in Hgt. rewrite Hgt. apply Z.leb_gt in Hgt. exact Hgt.
Qed.

(** X18. The addresses learnt from a PEERS message are filtered before
    they reach the peer manager. [recvPeers] always returns, sends nothing
    and leaves the session as it was; the addresses it passes to
    [ensureExists] are entries of the message, in their order, and each of
    them is an IPv4 address with a port that is not 0 and not above 65535,
    is not private, is not the peer's own address with our listening port,
    and is localhost only if the configuration allows that for testing. *)
Theorem recvPeers_filters (app : Application) (peers : list PeerAddress) (w : World) :
  exists kept,
    recvPeers app peers w =
      Some (tt, {| self := self w;
                   events := events w ++ map (ensureExists app) kept;
                   draws := draws w |})
    /\ sublist kept peers
    /\ Forall (acceptable_peer app (mAddress (self w))) kept.
Proof.
  unfold recvPeers.
  match goal with |- context [for_each peers ?b] => set (body := b) end.
  assert (G : forall evs,
            exists kept,
              for_each peers body {| self := self w; events := evs; draws := draws w |} =
                Some (tt, {| self := self w;
                             events := evs ++ map (ensureExists app) kept;
                             draws := draws w |})
              /\ sublist kept peers
              /\ Forall (acceptable_peer app (mAddress (self w))) kept).
  { induction peers as [|peer rest IH]; intros evs.
    - exists []. cbn [for_each map]. rewrite app_nil_r.
      split; [reflexivity|]. split; constructor.
    - cbn [for_each]. unfold bind at 1.
      assert (Skip : exists kept,
                for_each rest body {| self := self w; events := evs; draws := draws w |} =
                  Some (tt, {| self := self w;
                               events := evs ++ map (ensureExists app) kept;
                               draws := draws w |})
                /\ sublist kept (peer :: rest)
                /\ Forall (acceptable_peer app (mAddress (self w))) kept).
      { destruct (IH evs) as (kept & E & Hs & Hf).
        exists kept. split; [exact E|]. split; [apply sublist_cons; exact Hs|exact Hf]. }
      unfold body at 1.
      destruct (pa_port peer =? 0) eqn:Hp0; cbn [orb]; [exact Skip|].
      destruct (UINT16_MAX <? pa_port peer) eqn:Hp1; [exact Skip|].
      destruct (pa_type peer) eqn:Ht; [|exact Skip].
      cbv zeta. unfold bind at 1. unfold get at 1. cbn [self].
      destruct (isPrivate app (fromXdr app peer)) eqn:Hpriv; [exact Skip|].
      destruct (match mAddress (self w) with
                | EmptyAddress => false
                | IPv4Address ownIP _ =>
                    match fromXdr app peer with
                    | EmptyAddress => false
                    | IPv4Address ip port =>
                        bool_decide (ip = ownIP) && (port =? PEER_PORT (getConfig app))
                    end
                end) eqn:Hown; [exact Skip|].
      destruct (isLocalhost app (fromXdr app peer)
                && negb (ALLOW_LOCALHOST_FOR_TESTING (getConfig app))) eqn:Hloc;
        [exact Skip|].
      unfold emit at 1. cbn [self events draws].
      destruct (IH (evs ++ [EvCall (PeerManager_ensureExists (fromXdr app peer))]))
        as (kept & E & Hs & Hf).
      exists (peer :: kept). rewrite E. cbn [map].
      rewrite <- app_assoc. split; [reflexivity|].
      split; [apply sublist_skip; exact Hs|].
      constructor; [|exact Hf].
      apply Z.eqb_neq in Hp0. apply Z.ltb_ge in Hp1.
      unfold acceptable_peer. repeat split; try assumption.
      + intros ip port Hadr Heq. rewrite Hadr, Heq in Hown.
        rewrite bool_decide_true, Z.eqb_refl in Hown by reflexivity. discriminate.
      + intros Hl. rewrite Hl in Hloc.
        destruct (ALLOW_LOCALHOST_FOR_TESTING (getConfig app)); [reflexivity|discriminate]. }
  destruct (G (events w)) as (kept & E & Hs & Hf).
  exists kept. split; [|split; assumption].
  destruct w. exact E.
Qed.

(** ** Requests for sets *)

Lemma does_sendMessage_handed_over app m w :
  exists w', does (sendMessage app m) w w' [EvSend m]
             /\ mState (self w') = mState (self w)
             /\ handed_over app m w w'.
Proof.
  destruct (does_sendMessage app m w) as (w' & D & S).
  destruct (sendMessage_handed_over app m w) as (w2 & E2 & H).
  destruct D as [E A]. rewrite E in E2. injection E2 as <-.
  exists w'. split; [split; assumption|]. split; [|exact H].
  apply (only_send_state_inv mState); [intros ? ? ? ?; reflexivity|exact S].
Qed.

(** X19. A request for a quorum set or for a transaction set is answered
    by one message, never by a drop: the set itself when the herder has it,
    otherwise a DONT_HAVE that names the hash asked for, with the kind
    TX_SET before the Soroban protocol version and GENERALIZED_TX_SET from
    it on for a transaction set. The answer is handed to [sendMessage] and,
    not being flood-class, is written at once as one authenticated frame
    carrying the send sequence number, which moves on by one; the flow
    controller is not involved. The one exception is load shedding: when
    the request is processed as a droppable action and the write queue is
    overloaded, the answer is discarded, no frame is written, and the
    session counts one dropped message. *)
Theorem requests_answered_unless_shed (app : Application) (hash : uint256) (w : World) :
  tx_set_in_wire_form app hash ->
  (exists w',
     does (recvGetSCPQuorumSet app hash) w w' [EvSend (quorum_set_reply app hash)]
     /\ mState (self w') = mState (self w)
     /\ is_exempt (quorum_set_reply app hash) = false
     /\ if sheds app w
        then discarded w w'
        else written_at_once app (quorum_set_reply app hash) w w')
  /\ (exists w',
        does (recvGetTxSet app hash) w w' [EvSend (tx_set_reply app hash)]
        /\ mState (self w') = mState (self w)
        /\ is_exempt (tx_set_reply app hash) = false
        /\ if sheds app w
           then discarded w w'
           else written_at_once app (tx_set_reply app hash) w w').
Proof.
  intros Hwire.
  assert (Hq : isFloodMessage (quorum_set_reply app hash) = false
               /\ is_exempt (quorum_set_reply app hash) = false).
  { unfold quorum_set_reply. destruct (getQSet app hash); split; reflexivity. }
  assert (Ht : isFloodMessage (tx_set_reply app hash) = false
               /\ is_exempt (tx_set_reply app hash) = false).
  { unfold tx_set_reply, tx_set_in_wire_form in *.
    destruct (getTxSet app hash) as [txSet|]; [|split; reflexivity].
    unfold isFloodMessage, is_exempt.
    destruct (Hwire txSet eq_refl) as [-> | ->]; split; reflexivity. }
  split.
  - destruct (does_sendMessage_handed_over app (quorum_set_reply app hash) w)
      as (w' & D & St & H).
    exists w'. split.
    { unfold recvGetSCPQuorumSet, sendSCPQuorumSet, sendDontHave.
      unfold quorum_set_reply in D |- *. destruct (getQSet app hash); exact D. }
    split; [exact St|]. split; [exact (proj2 Hq)|].
    unfold handed_over in H. rewrite (proj1 Hq) in H. exact H.
  - destruct (does_sendMessage_handed_over app (tx_set_reply app hash) w)
      as (w' & D & St & H).
    exists w'. split.
    { unfold recvGetTxSet, sendDontHave. cbv zeta.
      unfold tx_set_reply in D |- *. destruct (getTxSet app hash); exact D. }
    split; [exact St|]. split; [exact (proj2 Ht)|].
    unfold handed_over in H. rewrite (proj1 Ht) in H. exact H.
Qed.

(** The authenticated responder of the sample is asked for the quorum
    set and for the transaction set of hash 90; it has the second. *)
Lemma requests_answered_unless_shed_witness :
  (exists w',
     does (recvGetSCPQuorumSet app_with_tx_set 90) after_auth w'
       [EvSend (quorum_set_reply app_with_tx_set 90)]
     /\ mState (self w') = mState (self after_auth)
     /\ is_exempt (quorum_set_reply app_with_tx_set 90) = false
     /\ if sheds app_with_tx_set after_auth
        then discarded after_auth w'
        else written_at_once app_with_tx_set (quorum_set_reply app_with_tx_set 90)
               after_auth w')
  /\ (exists w',
        does (recvGetTxSet app_with_tx_set 90) after_auth w'
          [EvSend (tx_set_reply app_with_tx_set 90)]
        /\ mState (self w') = mState (self after_auth)
        /\ is_exempt (tx_set_reply app_with_tx_set 90) = false
        /\ if sheds app_with_tx_set after_auth
           then discarded after_auth w'
           else written_at_once app_with_tx_set (tx_set_reply app_with_tx_set 90)
                  after_auth w').
Proof.
  apply (requests_answered_unless_shed app_with_tx_set 90 after_auth).
  intros txSet H. left.
  assert (E : txSet = MsgTxSet 5) by (vm_compute in H; congruence).
  rewrite E. reflexivity.
Defined.

(** The same two requests on the overloaded node: the answers are handed
    to [sendMessage], and no frame is written. *)
Example requests_shed_under_load :
  option_map (fun r => (calls (events (snd r)), written (events (snd r)),
                        mMessageDrop (mPeerMetrics (self (snd r)))))
    (run (recvGetSCPQuorumSet overloaded_app 90 ;; recvGetTxSet overloaded_app 90)
       (self after_auth))
  = Some ([EvSend (MsgDontHave SCP_QUORUMSET 90);
           EvSend (MsgDontHave GENERALIZED_TX_SET 90)], [], 2).
Proof. vm_compute. reflexivity. Qed.

(** ** Frames on the wire *)

Lemma well_sequenced_app app key s1 f1 s2 f2 s3 :
  well_sequenced app key s1 f1 s2 -> well_sequenced app key s2 f2 s3 ->
  well_sequenced app key s1 (f1 ++ f2) s3.
Proof.
  induction 1; intros H2; cbn [Datatypes.app]; [exact H2| |].
  - apply ws_exempt; auto.
  - apply ws_authenticated; auto.
Qed.

Lemma sequenced_run_refl app w : sequenced_run app w w.
Proof. exists []. rewrite app_nil_r. split; [reflexivity|]. split; [constructor|reflexivity]. Qed.

Lemma sequenced_run_trans app w1 w2 w3 :
  sequenced_run app w1 w2 -> sequenced_run app w2 w3 -> sequenced_run app w1 w3.
Proof.
  intros (f1 & V1 & S1 & K1) (f2 & V2 & S2 & K2).
  exists (f1 ++ f2). split; [rewrite V2, V1, app_assoc; reflexivity|].
  split; [|congruence].
  eapply well_sequenced_app; [exact S1|]. rewrite <- K1. exact S2.
Qed.

Lemma sendAuthenticatedMessage_sequenced app m w :
  exists w', sendAuthenticatedMessage app m w = Some (tt, w') /\ sequenced_run app w w'.
Proof.
  rewrite sendAuthenticatedMessage_eq. eexists. split; [reflexivity|].
  destruct (is_exempt m) eqn:Hx; eexists [_]; cbn [self events];
    (split; [rewrite written_app; reflexivity|]); (split; [|reflexivity]).
  - apply ws_exempt; [exact Hx|constructor].
  - apply ws_authenticated; [exact Hx|constructor].
Qed.

Lemma for_each_sendAuthenticatedMessage_sequenced app ms :
  forall w, exists w',
    for_each ms (sendAuthenticatedMessage app) w = Some (tt, w') /\ sequenced_run app w w'.
Proof.
  induction ms as [|m rest IH]; intros w; cbn [for_each].
  - exists w. split; [reflexivity|apply sequenced_run_refl].
  - unfold bind at 1.
    destruct (sendAuthenticatedMessage_sequenced app m w) as (w1 & -> & R1).
    destruct (IH w1) as (w2 & -> & R2).
    exists w2. split; [reflexivity|]. eapply sequenced_run_trans; eauto.
Qed.

Lemma sendMessage_sequenced app m w :
  exists w', sendMessage app m w = Some (tt, w') /\ sequenced_run app w w'.
Proof.
  unfold sendMessage. unfold_monad. simpl.
  destruct (bool_decide (currentSchedulerActionType app = DROPPABLE_ACTION)
            && sendQueueIsOverloaded app (written (events w ++ [EvSend m]))); simpl.
  - eexists. split; [reflexivity|]. exists []. cbn [self events].
    rewrite !written_app, !app_nil_r. split; [reflexivity|].
    split; [constructor|reflexivity].
  - destruct (maybeSendMessage_total app m (mFlowControl (self w)))
      as (fc' & released & -> & _).
    simpl.
    assert (R0 : sequenced_run app w
              {| self := set_mFlowControl fc' (self w);
                 events := (events w ++ [EvSend m]) ++ [EvMark (sendMeter (type_of m)) 1];
                 draws := draws w |}).
    { exists []. cbn [self events]. rewrite !written_app, !app_nil_r.
      split; [reflexivity|]. split; [constructor|reflexivity]. }
    match goal with
    | |- context [for_each released ?f ?w0] =>
        destruct (for_each_sendAuthenticatedMessage_sequenced app released w0)
          as (w1 & -> & R1)
    end.
    destruct (isFloodMessage m).
    + exists w1. split; [reflexivity|]. eapply sequenced_run_trans; eauto.
    + destruct (sendAuthenticatedMessage_sequenced app m w1) as (w2 & -> & R2).
      exists w2. split; [reflexivity|].
      eapply sequenced_run_trans; [|exact R2]. eapply sequenced_run_trans; eauto.
Qed.

(** X20. The frames a session writes are always in sequence. Whatever
    messages are handed to [sendMessage], one after the other, and whether
    each is shed under load, queued by the flow controller, released later
    or written at once, every call returns, and the frames written to the
    connection form a well-sequenced run from where the send sequence
    stood: the authenticated frames carry consecutive sequence numbers,
    each with the MAC of its number and message under the send key, and the
    send sequence ends just past the last of them. A message that is shed
    or still queued uses up no sequence number. *)
Theorem sendMessage_frames_in_sequence
    (app : Application) (ms : list HcnetMessage) (w : World) :
  exists w' frames,
    for_each ms (sendMessage app) w = Some (tt, w')
    /\ written (events w') = written (events w) ++ frames
    /\ well_sequenced app (mSendMacKey (self w)) (mSendMacSeq (self w)) frames
         (mSendMacSeq (self w'))
    /\ mSendMacKey (self w') = mSendMacKey (self w).
Proof.
  assert (G : forall w, exists w',
            for_each ms (sendMessage app) w = Some (tt, w') /\ sequenced_run app w w').
  { induction ms as [|m rest IH]; intros w0; cbn [for_each].
    - exists w0. split; [reflexivity|apply sequenced_run_refl].
    - unfold bind at 1.
      destruct (sendMessage_sequenced app m w0) as (w1 & -> & R1).
      destruct (IH w1) as (w2 & -> & R2).
      exists w2. split; [reflexivity|]. eapply sequenced_run_trans; eauto. }
  destruct (G w) as (w' & E & frames & V & S & K).
  exists w', frames. repeat split; assumption.
Qed.

(** The authenticated responder of the sample, whose handshake wrote four
    frames, sends a GET_PEERS, an ERROR_MSG and a GET_SCP_STATE: sequence
    numbers 3 and 4, and 0 for the error. *)
Example frames_of_three_messages :
  option_map (fun r => map sequence (skipn 4%nat (written (events (snd r)))))
    (for_each [MsgGetPeers; MsgError ERR_MISC "x"; MsgGetSCPState 5]
       (sendMessage Sample.app) after_auth)
  = Some [3; 0; 4].
Proof. vm_compute. reflexivity. Qed.

(** X21. What one side writes, the other accepts. Let a sender and a
    receiver be in step: the receiver, past its HELLO and not closing,
    holds as receiving key and sequence the sending key and sequence of the
    sender, both sides encode alike, and a MAC made by the sender verifies
    at the receiver. Then the frame that [sendAuthenticatedMessage] writes
    for any message but a HELLO passes the check of [recvMessage]: the
    message is dispatched, and the two sides are in step again, the
    receiver's sequence being the sender's new one. *)
Theorem written_frame_is_accepted
    (sender receiver : Application) (m : HcnetMessage) (ws wr : World) :
  type_of m <> HELLO ->
  shouldAbort receiver (self wr) = false ->
  state_value GOT_HELLO <= state_value (mState (self wr)) ->
  mRecvMacKey (self wr) = mSendMacKey (self ws) ->
  mRecvMacSeq (self wr) = mSendMacSeq (self ws) ->
  xdr_to_opaque receiver (mSendMacSeq (self ws)) m
    = xdr_to_opaque sender (mSendMacSeq (self ws)) m ->
  hmacSha256Verify receiver
    (hmacSha256 sender (mSendMacKey (self ws))
       (xdr_to_opaque sender (mSendMacSeq (self ws)) m))
    (mSendMacKey (self ws)) (xdr_to_opaque sender (mSendMacSeq (self ws)) m) = true ->
  exists ws' frame wr1,
    sendAuthenticatedMessage sender m ws = Some (tt, ws')
    /\ events ws' = events ws ++ [EvWrite frame]
    /\ recvMessage receiver frame wr = recvMessage_HcnetMessage receiver m wr1
    /\ mRecvMacSeq (self wr1) = mSendMacSeq (self ws')
    /\ mRecvMacKey (self wr1) = mSendMacKey (self ws')
    /\ mState (self wr1) = mState (self wr)
    /\ events wr1 = events wr.
Proof.
  intros Hh Hab Hst Hkey Hseq Hxdr Hmac.
  rewrite sendAuthenticatedMessage_eq.
  unfold is_exempt. rewrite (bool_decide_false (type_of m = HELLO)) by exact Hh.
  cbn [orb].
  destruct (bool_decide (type_of m = ERROR_MSG)) eqn:He.
  - (* an error travels without a MAC and is not counted *)
    eexists _, _, wr. split; [reflexivity|]. split; [reflexivity|].
    cbn [self]. split; [|repeat split; assumption].
    unfold recvMessage. unfold bind at 1. unfold get at 1. rewrite Hab.
    unfold bind at 1. unfold get at 1. cbn [message].
    rewrite He. cbn [negb]. rewrite andb_false_r. reflexivity.
  - eexists _, _, {| self := set_mRecvMacSeq (wrap64 (mRecvMacSeq (self wr) + 1)) (self wr);
                     events := events wr; draws := draws wr |}.
    split; [reflexivity|]. split; [reflexivity|].
    cbn [self events]. split; [|repeat split; try assumption; rewrite Hseq; reflexivity].
    unfold recvMessage. unfold bind at 1. unfold get at 1. rewrite Hab.
    unfold bind at 1. unfold get at 1. cbn [message sequence mac].
    apply Z.leb_le in Hst. rewrite Hst, He. cbn [negb andb].
    unfold bind at 1. unfold get at 1. unfold bind at 1. unfold get at 1.
    rewrite Hseq, Z.eqb_refl. cbn [negb].
    rewrite Hkey, Hxdr, Hmac. cbn [negb].
    reflexivity.
Qed.

(** The initiator's side of the sample session, in step with the
    authenticated responder, sends it a GET_PEERS. *)
Lemma written_frame_is_accepted_witness :
  let ws := {| self := set_mSendMacKey (mRecvMacKey (self after_auth))
                         (set_mSendMacSeq (mRecvMacSeq (self after_auth)) Sample.initiator);
               events := []; draws := 0 |} in
  exists ws' frame wr1,
    sendAuthenticatedMessage Sample.app MsgGetPeers ws = Some (tt, ws')
    /\ events ws' = events ws ++ [EvWrite frame]
    /\ recvMessage Sample.app frame after_auth
       = recvMessage_HcnetMessage Sample.app MsgGetPeers wr1
    /\ mRecvMacSeq (self wr1) = mSendMacSeq (self ws')
    /\ mRecvMacKey (self wr1) = mSendMacKey (self ws')
    /\ mState (self wr1) = mState (self after_auth)
    /\ events wr1 = events after_auth.
Proof.
  intros ws.
  apply (written_frame_is_accepted Sample.app Sample.app MsgGetPeers ws after_auth).
  - discriminate.
  - vm_compute. reflexivity.
  - vm_compute. discriminate.
  - vm_compute. reflexivity.
  - vm_compute. reflexivity.
  - reflexivity.
  - vm_compute. reflexivity.
Defined.

(** ** The life of an advert batch *)

Lemma adverts_app a b : adverts (a ++ b) = adverts a ++ adverts b.
Proof. unfold adverts. apply omap_app. Qed.

(** One step, from a batch shorter than the maximum advert size. *)
Lemma advert_step_spec app s w :
  0 < TX_ADVERT_VECTOR_MAX_SIZE app ->
  getMaxAdvertSize app <= TX_ADVERT_VECTOR_MAX_SIZE app ->
  Z.of_nat (length (mTxHashesToAdvertise (self w))) < Z.max 1 (getMaxAdvertSize app) ->
  exists w' new,
    advert_step app s w = Some (tt, w')
    /\ adverts (events w') = adverts (events w) ++ new
    /\ concat new ++ mTxHashesToAdvertise (self w')
       = mTxHashesToAdvertise (self w) ++ queued [s]
    /\ Forall (fun hashes =>
                 0 < Z.of_nat (length hashes) <= Z.max 1 (getMaxAdvertSize app)) new
    /\ Z.of_nat (length (mTxHashesToAdvertise (self w'))) < Z.max 1 (getMaxAdvertSize app).
Proof.
  intros Hmax Hk Hlen.
  destruct s as [h|]; cbn [advert_step queued omap].
  - unfold queueTxHashToAdvertise. unfold bind at 1. unfold get at 1.
    set (hashes := mTxHashesToAdvertise (self w)) in *.
    assert (Hstart : exists p1,
              (match hashes with [] => startAdvertTimer app | _ => skip end) w
              = Some (tt, {| self := p1; events := events w; draws := draws w |})
              /\ mTxHashesToAdvertise p1 = hashes).
    { destruct hashes eqn:Eh.
      - unfold startAdvertTimer. unfold bind at 1. unfold get at 1.
        destruct (shouldAbort app (self w)).
        + exists (self w). destruct w. split; [reflexivity|exact Eh].
        + eexists. split; [reflexivity|]. exact Eh.
      - exists (self w). destruct w. split; [reflexivity|exact Eh]. }
    destruct Hstart as (p1 & E1 & B1).
    unfold bind at 1. rewrite E1. cbv beta iota.
    assert (Hne : (Z.of_nat (length hashes) =? TX_ADVERT_VECTOR_MAX_SIZE app) = false).
    { apply Z.eqb_neq. lia. }
    rewrite Hne.
    unfold bind at 1. unfold modify at 1. cbv beta iota. cbn [self events draws].
    assert (Hl : Z.of_nat (length (hashes ++ [h])) = Z.of_nat (length hashes) + 1).
    { rewrite length_app. cbn [length]. lia. }
    destruct (getMaxAdvertSize app <=? Z.of_nat (length (hashes ++ [h]))) eqn:Hfull.
    + apply Z.leb_le in Hfull.
      rewrite flushAdvert_spec. cbn [self events draws].
      change (mTxHashesToAdvertise (set_mTxHashesToAdvertise ?v ?p)) with v.
      destruct (hashes ++ [h]) as [|x rest] eqn:Ea;
        [destruct hashes; discriminate|].
      eexists _, [x :: rest]. split; [reflexivity|]. cbn [self events].
      split; [rewrite adverts_app; reflexivity|].
      change (mTxHashesToAdvertise (set_mTxHashesToAdvertise ?v ?p)) with v.
      split; [cbn [concat]; rewrite !app_nil_r, <- Ea; reflexivity|].
      split; [constructor; [lia|constructor]|].
      cbn [length]. lia.
    + apply Z.leb_gt in Hfull.
      eexists _, []. split; [reflexivity|]. cbn [self events].
      change (mTxHashesToAdvertise (set_mTxHashesToAdvertise ?v ?p)) with v.
      split; [rewrite app_nil_r; reflexivity|].
      split; [reflexivity|]. split; [constructor|]. lia.
  - unfold advertTimerExpired. unfold bind at 1. unfold modify at 1.
    rewrite flushAdvert_spec. cbn [self events draws].
    change (mTxHashesToAdvertise (set_mAdvertTimer ?v ?p)) with (mTxHashesToAdvertise p).
    destruct (mTxHashesToAdvertise (self w)) as [|x rest] eqn:Eb; rewrite ?Eb in Hlen.
    + eexists _, []. split; [reflexivity|]. cbn [self events].
      change (mTxHashesToAdvertise (set_mAdvertTimer ?v ?p)) with (mTxHashesToAdvertise p).
      rewrite Eb. cbn [concat Datatypes.app queued omap length].
      split; [rewrite app_nil_r; reflexivity|].
      split; [reflexivity|]. split; [constructor|lia].
    + eexists _, [x :: rest]. split; [reflexivity|]. cbn [self events].
      split; [rewrite adverts_app; reflexivity|].
      change (mTxHashesToAdvertise (set_mTxHashesToAdvertise ?v ?p)) with v.
      split; [cbn [concat]; rewrite !app_nil_r; reflexivity|].
      cbn [length] in *.
      split; [constructor; [cbn [length]; lia|constructor]|lia].
Qed.

(** X22. No hash is lost, repeated or reordered on its way into the
    adverts. When the advert vector can hold a full advert, then along any
    succession of hashes queued and expiries of the flush timer, starting
    from a batch shorter than the maximum advert size, every step returns,
    and the hashes of the adverts posted, in order, followed by the batch
    still pending, are the hashes of the first batch followed by those
    queued since. Every advert posted has at least one hash and at most the
    maximum advert size, and the batch stays shorter than that. *)
Theorem adverts_carry_every_hash
    (app : Application) (steps : list AdvertStep) (w : World) :
  0 < TX_ADVERT_VECTOR_MAX_SIZE app ->
  getMaxAdvertSize app <= TX_ADVERT_VECTOR_MAX_SIZE app ->
  Z.of_nat (length (mTxHashesToAdvertise (self w))) < Z.max 1 (getMaxAdvertSize app) ->
  exists w' new,
    for_each steps (advert_step app) w = Some (tt, w')
    /\ adverts (events w') = adverts (events w) ++ new
    /\ concat new ++ mTxHashesToAdvertise (self w')
       = mTxHashesToAdvertise (self w) ++ queued steps
    /\ Forall (fun hashes =>
                 0 < Z.of_nat (length hashes) <= Z.max 1 (getMaxAdvertSize app)) new
    /\ Z.of_nat (length (mTxHashesToAdvertise (self w'))) < Z.max 1 (getMaxAdvertSize app).
Proof.
  intros Hmax Hk. revert w.
  induction steps as [|s rest IH]; intros w Hlen; cbn [for_each].
  - exists w, []. cbn [concat queued omap]. rewrite !app_nil_r.
    repeat split; [constructor|exact Hlen].
  - destruct (advert_step_spec app s w Hmax Hk Hlen) as (w1 & n1 & E1 & A1 & C1 & F1 & L1).
    destruct (IH w1 L1) as (w2 & n2 & E2 & A2 & C2 & F2 & L2).
    exists w2, (n1 ++ n2). unfold bind at 1. rewrite E1.
    split; [exact E2|].
    split; [rewrite A2, A1, app_assoc; reflexivity|].
    split.
    + rewrite concat_app, <- app_assoc, C2, app_assoc, C1, <- app_assoc.
      f_equal. change (s :: rest) with ([s] ++ rest).
      unfold queued. rewrite omap_app. reflexivity.
    + split; [apply Forall_app; split; assumption|exact L2].
Qed.

(** Five hashes and one expiry of the timer on the authenticated
    responder, whose maximum advert size is 3. *)
Lemma adverts_carry_every_hash_witness :
  let steps := [HashQueued 70; HashQueued 71; HashQueued 72; HashQueued 73;
                TimerExpires; HashQueued 74] in
  exists w' new,
    for_each steps (advert_step Sample.app) after_auth = Some (tt, w')
    /\ adverts (events w') = adverts (events after_auth) ++ new
    /\ concat new ++ mTxHashesToAdvertise (self w')
       = mTxHashesToAdvertise (self after_auth) ++ queued steps
    /\ Forall (fun hashes =>
                 0 < Z.of_nat (length hashes) <= Z.max 1 (getMaxAdvertSize Sample.app)) new
    /\ Z.of_nat (length (mTxHashesToAdvertise (self w')))
       < Z.max 1 (getMaxAdvertSize Sample.app).
Proof.
  intros steps.
  apply (adverts_carry_every_hash Sample.app steps after_auth).
  - vm_compute. reflexivity.
  - vm_compute. discriminate.
  - vm_compute. reflexivity.
Defined.

Example adverts_of_five_hashes :
  option_map (fun r => (adverts (events (snd r)), mTxHashesToAdvertise (self (snd r))))
    (for_each [HashQueued 70; HashQueued 71; HashQueued 72; HashQueued 73;
               TimerExpires; HashQueued 74] (advert_step Sample.app) after_auth)
  = Some ([[70; 71; 72]; [73]], [74]).
Proof. vm_compute. reflexivity. Qed.

(** ** A session that is closing *)

(** X23. A session that is CLOSING, or whose overlay is shutting down,
    takes no input: a frame read off the connection and a posted message
    that comes up for handling both leave the session, its flow controller
    and its counters exactly as they were, and cause no send, no drop and
    no call at all. *)
Theorem deliver_ignored_when_aborting (app : Application) (i : Input) (w : World) :
  shouldAbort app (self w) = true ->
  deliver app i w = Some (tt, w).
Proof.
  intros Hab. destruct i as [amsg|m cat]; cbn [deliver].
  - unfold recvMessage. unfold bind at 1. unfold get at 1. rewrite Hab. reflexivity.
  - unfold runTask, recvRawMessage. unfold bind at 1.
    unfold bind at 1. unfold get at 1. rewrite Hab.
    unfold skip, ret. cbv beta iota.
    unfold MsgCapacityTracker_delete, endMessageProcessing.
    unfold bind at 1. unfold get at 1. rewrite Hab. reflexivity.
Qed.

(** A transaction handled after the overlay began to shut down. *)
Lemma deliver_ignored_when_aborting_witness :
  deliver (Sample.make_app (seconds 1000) true true) (TaskRuns (MsgTransaction 7) "TX")
    after_auth
  = Some (tt, after_auth).
Proof.
  apply (deliver_ignored_when_aborting (Sample.make_app (seconds 1000) true true)
           (TaskRuns (MsgTransaction 7) "TX") after_auth).
  vm_compute. reflexivity.
Defined.
